(** * Outline effects of the scene viewer: jump-flood and dilation pipelines

    A shallow embedding of the two outline renderers of the viewer
    ([JumpFloodEffect] with its four shader materials, and [OutlineEffect]
    with its dilation and compositing materials), and the properties of
    the design document checked against them.

    Numbers.  GLSL [float]s and JavaScript numbers are idealised as exact
    rationals ([Q]); [int]s and [ivec2] components are [Z].  The only
    operation of the shaders that leaves the rationals is the builtin
    [length] (a square root); it is a parameter of the development, with
    non-negativity as its single assumed property. *)

From Stdlib Require Import ZArith QArith Qround Qabs Qminmax List Lia Lqa Bool.
From Equations Require Import Equations.
Import ListNotations.

Open Scope Q_scope.

(** ** GLSL values, builtins and textures *)

Module GLSL.

Record vec3 := mkVec3 { v3x : Q; v3y : Q; v3z : Q }.
Record vec4 := mkVec4 { r : Q; g : Q; b : Q; a : Q }.
Definition ivec2 := (Z * Z)%type.

(** [vec4(v)] with a single scalar, [vec4(v3, w)] and the [.rgb] swizzle. *)
Definition vec4_splat (v : Q) : vec4 := mkVec4 v v v v.
Definition vec4_of (v : vec3) (w : Q) : vec4 :=
  mkVec4 (v3x v) (v3y v) (v3z v) w.
Definition rgb (c : vec4) : vec3 := mkVec3 (r c) (g c) (b c).

Definition Qltb (x y : Q) : bool := negb (Qle_bool y x).
Definition Qneqb (x y : Q) : bool := negb (Qeq_bool x y).

(** [sign(x)]: 1.0, 0.0 or -1.0. *)
Definition sign (x : Q) : Q := inject_Z (Z.sgn (Qnum x)).

(** [clamp(x, lo, hi) = min(max(x, lo), hi)]. *)
Definition clamp (x lo hi : Q) : Q := Qmin (Qmax x lo) hi.

(** [smoothstep(edge0, edge1, x)], by the formula of the GLSL
    specification; the shaders also call it with [edge0 > edge1], where
    the formula yields the mirrored ramp. *)
Definition smoothstep (edge0 edge1 x : Q) : Q :=
  let t := clamp ((x - edge0) / (edge1 - edge0)) 0 1 in
  t * t * (3 - 2 * t).

(** [step(edge, x)]: 0.0 if [x < edge], else 1.0. *)
Definition glsl_step (edge x : Q) : Q := if Qltb x edge then 0 else 1.

(** [int(x)] / [ivec2(v)]: conversion of a float truncates toward zero. *)
Definition to_int (x : Q) : Z := Z.quot (Qnum x) (Zpos (Qden x)).

(** A texture: its size and its texels (only texels inside the size are
    meaningful). *)
Record sampler2D := mkSampler
  { tex_width : Z; tex_height : Z; texel : Z -> Z -> vec4 }.

Definition textureSize (t : sampler2D) : ivec2 := (tex_width t, tex_height t).

Definition in_bounds (t : sampler2D) (c : ivec2) : bool :=
  (0 <=? fst c)%Z && (fst c <? tex_width t)%Z &&
  (0 <=? snd c)%Z && (snd c <? tex_height t)%Z.

(** [texelFetch(t, c, 0)]; a fetch outside the texture yields zero. *)
Definition texelFetch (t : sampler2D) (c : ivec2) : vec4 :=
  if in_bounds t c then texel t (fst c) (snd c) else vec4_splat 0.

Definition clampZ (x lo hi : Z) : Z := Z.min (Z.max x lo) hi.

(** [texture(t, uv)] / [texture2D(t, uv)] with nearest filtering and
    clamp-to-edge wrapping, the settings of every render target here. *)
Definition texture2D (t : sampler2D) (uv : Q * Q) : vec4 :=
  texel t
    (clampZ (Qfloor (fst uv * inject_Z (tex_width t))) 0 (tex_width t - 1))
    (clampZ (Qfloor (snd uv * inject_Z (tex_height t))) 0 (tex_height t - 1)).

(** The [uv] varying of a full-screen quad at pixel [(x, y)] of a
    [w]x[h] viewport, and [gl_FragCoord.xy] there: the pixel centre. *)
Definition quad_uv (w h : Z) (x y : Z) : Q * Q :=
  ((inject_Z x + 0.5) / inject_Z w, (inject_Z y + 0.5) / inject_Z h).
Definition fragCoord (x y : Z) : Q * Q :=
  (inject_Z x + 0.5, inject_Z y + 0.5).

End GLSL.
Import GLSL.

(** ** The shader materials of the jump-flood effect *)

(** [ExpandMaskMaterial]: "expands the mask by 1 pixel in each direction". *)
Module ExpandMaskMaterial.

(** The offsets visited by the two nested loops, in order, the zero
    offset being skipped by [continue]. *)
Definition offsets : list ivec2 :=
  flat_map (fun x =>
    flat_map (fun y =>
      if ((x =? 0) && (y =? 0))%Z then [] else [(x, y)])
      [-1; 0; 1]%Z)
    [-1; 0; 1]%Z.

Definition fragmentShader (source : sampler2D) (x y : Z) : option vec4 :=
  let currCoord := (x, y) in
  if existsb (fun o =>
       let coord := (fst currCoord + fst o, snd currCoord + snd o)%Z in
       let otherValue := r (texelFetch source coord) in
       Qneqb otherValue 0) offsets
  then Some (vec4_splat 1)
  else Some (vec4_splat 0).

End ExpandMaskMaterial.

(** [SeedMaterial]: writes fragment coordinates for the initialization. *)
Module SeedMaterial.

(** The [negative] uniform holds -1 or 1; the constructor stores 1. *)
Definition default_negative : Z := 1.
Definition set_negative (v : bool) : Z := if v then (-1)%Z else 1%Z.
Definition get_negative (u : Z) : bool := (u =? -1)%Z.

Definition fragmentShader (negative : Z) (x y : Z) : option vec4 :=
  let fc := fragCoord x y in
  Some (mkVec4 (fst fc) (snd fc) (1e4 * inject_Z negative) 1).

End SeedMaterial.

(** [JFAMaterial]: performs jump flood iterations. *)
Module JFAMaterial.
Section WithLength.

(** The GLSL builtin [length(vec2(d))] of an integer offset [d]. *)
Variable length : Z -> Z -> Q.

(** The offsets of the unrolled neighbour code, generated by the
  constructor's loop over [i = 0 .. 8]. *)
Definition loop_offsets : list ivec2 :=
flat_map (fun i =>
  let x := (i mod 3 - 1)%Z in
  let y := (i / 3 - 1)%Z in
  if ((x =? 0) && (y =? 0))%Z then [] else [(x, y)])
  [0; 1; 2; 3; 4; 5; 6; 7; 8]%Z.

(** One generated block of the unrolled loop. *)
Definition sample_neighbor (source : sampler2D) (size currCoord : ivec2)
  (step : Z) (resultSign : Q) (result : vec3) (o : ivec2) : vec3 :=
let otherCoord :=
  (fst currCoord + fst o * step, snd currCoord + snd o * step)%Z in
if ((fst otherCoord <? fst size) && (0 <=? fst otherCoord) &&
    (snd otherCoord <? snd size) && (0 <=? snd otherCoord))%Z then
  let other := rgb (texelFetch source otherCoord) in
  if Qneqb (v3z other) 0 then
    if Qneqb resultSign (sign (v3z other)) then
      let dist := length (fst currCoord - fst otherCoord)
                         (snd currCoord - snd otherCoord) in
      if Qltb dist (v3z result * resultSign)
      then mkVec3 (inject_Z (fst otherCoord)) (inject_Z (snd otherCoord))
                  (dist * resultSign)
      else result
    else if negb ((to_int (v3x other) =? fst otherCoord)%Z &&
                  (to_int (v3y other) =? snd otherCoord)%Z) then
      let dist := length (fst currCoord - to_int (v3x other))
                         (snd currCoord - to_int (v3y other)) in
      if Qltb dist (v3z result * resultSign)
      then mkVec3 (v3x other) (v3y other) (dist * resultSign)
      else result
    else result
  else result
else result.

(** [main]: the value last assigned to [gl_FragColor], and whether the
  fragment executed [discard]. *)
Definition main (source mask : sampler2D) (step : Z)
  (vUv : Q * Q) (x y : Z) : vec4 * bool :=
let size := textureSize source in
let currCoord := (x, y) in
let result := rgb (texelFetch source currCoord) in
if Qltb (r (texture2D mask vUv)) 0.5 then (vec4_of result 1, true)
else
  let resultSign := sign (v3z result) in
  let result :=
    fold_left (sample_neighbor source size currCoord step resultSign)
              loop_offsets result in
  (vec4_of result 1.0, false).

(** What the fragment writes: a discarded fragment updates no buffer,
  whatever it assigned to [gl_FragColor] before. *)
Definition fragmentShader (source mask : sampler2D) (step : Z)
  (vUv : Q * Q) (x y : Z) : option vec4 :=
let (color, discarded) := main source mask step vUv x y in
if discarded then None else Some color.

End WithLength.
End JFAMaterial.

(** [EffectMaterial]: renders the final outline effect. *)
Module EffectMaterial.

Definition set_inside (v : bool) : Z := if v then (-1)%Z else 1%Z.

(** The value [val] of the outline mode. *)
Definition outline_val (thickness dist : Q) : Q :=
  let w := 0.5 in
  smoothstep (thickness + w) (thickness - w) dist *
  smoothstep (- w - 1.0) (w - 1.0) dist.

(** [main], up to the colour-space conversion of the written colour. *)
Definition fragmentShader (map : sampler2D) (thickness : Q) (inside : Z)
    (color : vec3) (vUv : Q * Q) : option vec4 :=
  let size := textureSize map in
  let currCoord := (to_int (fst vUv * inject_Z (fst size)),
                    to_int (snd vUv * inject_Z (snd size))) in
  let s := rgb (texelFetch map currCoord) in
  if Qeq_bool (v3z s) 0 then None
  else
    let dist := v3z s * inject_Z inside in
    let val := outline_val thickness dist in
    let alpha := clamp val 0.0 1.0 in
    if Qle_bool alpha 0 then None
    else Some (vec4_of color alpha).

End EffectMaterial.


(** ** Raster passes *)

Module GL.

(** How a written fragment combines with the pixel it lands on. *)
Definition overwrite (src dst : vec4) : vec4 := src.

(** Normal blending of a transparent material: source over destination,
    weighted by the source alpha. *)
Definition normal_blend (src dst : vec4) : vec4 :=
  mkVec4 (r src * a src + r dst * (1 - a src))
         (g src * a src + g dst * (1 - a src))
         (b src * a src + b dst * (1 - a src))
         (a src + a dst * (1 - a src)).

(** One draw call into [target]: the pixels of the target that are
    [active] (inside the scissor box when the scissor test is on) are
    first cleared to [clearTexel] when the renderer clears automatically,
    and then receive what the fragment shader writes; a discarded
    fragment leaves the pixel as it is. *)
Definition draw (autoClear : bool) (clearTexel : vec4)
    (active : Z -> Z -> bool) (combine : vec4 -> vec4 -> vec4)
    (frag : Z -> Z -> option vec4) (target : sampler2D) : sampler2D :=
  mkSampler (tex_width target) (tex_height target)
    (fun x y =>
       if in_bounds target (x, y) && active x y then
         let dst := if autoClear then clearTexel else texel target x y in
         match frag x y with
         | Some c => combine c dst
         | None => dst
         end
       else texel target x y).

Definition everywhere : Z -> Z -> bool := fun _ _ => true.

End GL.

(** ** The renderer, the scene and the control flow of a frame *)

Module Three.

Record Color := mkColor { cr : Q; cg : Q; cb : Q }.
Record Vector3 := mkVector3 { vx : Q; vy : Q; vz : Q }.

(** [Matrix4.elements], column-major. *)
Definition Matrix4 := nat -> Q.

(** [Vector3.applyMatrix4], with its perspective divide.  (A zero divisor
    gives 0 in [Q], where JavaScript gives an infinity or NaN.) *)
Definition applyMatrix4 (v : Vector3) (e : Matrix4) : Vector3 :=
  let x := vx v in let y := vy v in let z := vz v in
  let w := 1 / (e 3%nat * x + e 7%nat * y + e 11%nat * z + e 15%nat) in
  mkVector3 ((e 0%nat * x + e 4%nat * y + e 8%nat * z + e 12%nat) * w)
            ((e 1%nat * x + e 5%nat * y + e 9%nat * z + e 13%nat) * w)
            ((e 2%nat * x + e 6%nat * y + e 10%nat * z + e 14%nat) * w).

Definition multiplyScalar (v : Vector3) (s : Q) : Vector3 :=
  mkVector3 (vx v * s) (vy v * s) (vz v * s).

Definition set_vx (v : Vector3) (x : Q) := mkVector3 x (vy v) (vz v).
Definition set_vy (v : Vector3) (y : Q) := mkVector3 (vx v) y (vz v).
Definition set_vz (v : Vector3) (z : Q) := mkVector3 (vx v) (vy v) z.

Record Camera := mkCamera
  { matrixWorldInverse : Matrix4; projectionMatrix : Matrix4 }.

(** [Vector3.project(camera)]. *)
Definition project (v : Vector3) (camera : Camera) : Vector3 :=
  applyMatrix4 (applyMatrix4 v (matrixWorldInverse camera))
               (projectionMatrix camera).

(** Objects of the scene graph are known by identity.  [visible] is the
    only field a frame writes. *)
Record Object3D := mkObject
  { isMesh : bool; isLine : bool; isPoints : bool; visible : bool }.

Definition set_visible (v : bool) (o : Object3D) : Object3D :=
  mkObject (isMesh o) (isLine o) (isPoints o) v.

(** The scene as [render] sees it: the objects [scene.traverse] visits,
    in order. *)
Record Scene := mkScene { scene_traversal : list nat }.

(** A selected object: its root, the objects its [traverse] visits, and
    its world bounding sphere (centre and radius, as computed by
    [Box3.setFromObject(..).getBoundingSphere(..)]). *)
Record Selection := mkSelection
  { sel_root : nat; sel_traversal : list nat;
    sel_center : Vector3; sel_radius : Q }.

(** A render target: its size as the program sees it, and its texture.
    Every texture holds four channels here; the single-channel masks are
    only ever read through [.r]. *)
Record WebGLRenderTarget := mkTarget
  { width : Q; height : Q; texture : sampler2D }.

(** [WebGLRenderTarget.setSize]: the texture is reallocated with the
    integral part of the size. *)
Definition target_setSize (w h : Q) (t : WebGLRenderTarget) :=
  mkTarget w h (mkSampler (Qfloor w) (Qfloor h) (texel (texture t))).

(** The renderer's global state. *)
Record WebGLRenderer := mkRenderer
  { autoClear : bool;
    clearColor : Color;
    clearAlpha : Q;
    scissorTest : bool;
    scissor : Q * Q * Q * Q;
    renderTarget : option nat;
    pixelRatio : Q;
    size : Q * Q }.

(** The materials a scene can be rendered with through
    [scene.overrideMaterial]; they are held by reference. *)
Inductive MaterialRef := maskMaterial | seedMaterial.

(** What a call that reaches the GPU asked for. *)
Inductive Pass :=
| ClearPass
| ScenePass (material : option MaterialRef)
| ExpandPass (source : option nat)
| SeedPass (negative : Z)
| JFAPass (source mask : option nat) (step : Q)
| EffectPass (map : option nat) (thickness : Q) (inside : Z)
| DilatePass (source : option nat)
| CompositePass (dilated original : option nat).

Record Call := mkCall { call_target : option nat; call_pass : Pass }.

(** All the state a frame can touch outside the effect object. *)
Record World := mkWorld
  { renderer : WebGLRenderer;
    targets_heap : nat -> WebGLRenderTarget;
    screen : sampler2D;
    objects : nat -> Object3D;
    overrideMaterial : option MaterialRef;
    background : option nat;
    environment : option nat;
    layersMask : Z;
    faults : list bool;
    calls : list Call }.

(** What the model takes from outside the program: the GLSL [length]
    builtin, the rasterizer (which pixels of a viewport the visible
    geometry covers, for the visibility flags and the camera's layer
    mask), the pixels a scissor box selects at a device pixel ratio, and
    the fragments of the scene's own materials. *)
Record Platform := mkPlatform
  { glsl_length : Z -> Z -> Q;
    covers : Scene -> Camera -> (nat -> Object3D) -> Z -> Z * Z ->
             Z -> Z -> bool;
    scissor_pixels : Q * Q * Q * Q -> Q -> Z -> Z -> bool;
    own_material : Z -> Z -> option vec4 }.

(** *** Field updates *)

Definition upd {A} (f : nat -> A) (k : nat) (v : A) : nat -> A :=
  fun i => if Nat.eqb i k then v else f i.

Definition with_renderer (rd : WebGLRenderer) (w : World) : World :=
  mkWorld rd (targets_heap w) (screen w) (objects w) (overrideMaterial w)
          (background w) (environment w) (layersMask w) (faults w) (calls w).
Definition with_targets_heap h (w : World) : World :=
  mkWorld (renderer w) h (screen w) (objects w) (overrideMaterial w)
          (background w) (environment w) (layersMask w) (faults w) (calls w).
Definition with_screen s (w : World) : World :=
  mkWorld (renderer w) (targets_heap w) s (objects w) (overrideMaterial w)
          (background w) (environment w) (layersMask w) (faults w) (calls w).
Definition with_objects o (w : World) : World :=
  mkWorld (renderer w) (targets_heap w) (screen w) o (overrideMaterial w)
          (background w) (environment w) (layersMask w) (faults w) (calls w).
Definition with_overrideMaterial m (w : World) : World :=
  mkWorld (renderer w) (targets_heap w) (screen w) (objects w) m
          (background w) (environment w) (layersMask w) (faults w) (calls w).
Definition with_background v (w : World) : World :=
  mkWorld (renderer w) (targets_heap w) (screen w) (objects w)
          (overrideMaterial w) v (environment w) (layersMask w) (faults w)
          (calls w).
Definition with_environment v (w : World) : World :=
  mkWorld (renderer w) (targets_heap w) (screen w) (objects w)
          (overrideMaterial w) (background w) v (layersMask w) (faults w)
          (calls w).
Definition with_layersMask v (w : World) : World :=
  mkWorld (renderer w) (targets_heap w) (screen w) (objects w)
          (overrideMaterial w) (background w) (environment w) v (faults w)
          (calls w).
Definition with_faults f (w : World) : World :=
  mkWorld (renderer w) (targets_heap w) (screen w) (objects w)
          (overrideMaterial w) (background w) (environment w)
          (layersMask w) f (calls w).
Definition with_calls c (w : World) : World :=
  mkWorld (renderer w) (targets_heap w) (screen w) (objects w)
          (overrideMaterial w) (background w) (environment w)
          (layersMask w) (faults w) c.

Definition rd_autoClear v (rd : WebGLRenderer) :=
  mkRenderer v (clearColor rd) (clearAlpha rd) (scissorTest rd) (scissor rd)
             (renderTarget rd) (pixelRatio rd) (size rd).
Definition rd_clearColor c al (rd : WebGLRenderer) :=
  mkRenderer (autoClear rd) c al (scissorTest rd) (scissor rd)
             (renderTarget rd) (pixelRatio rd) (size rd).
Definition rd_scissorTest v (rd : WebGLRenderer) :=
  mkRenderer (autoClear rd) (clearColor rd) (clearAlpha rd) v (scissor rd)
             (renderTarget rd) (pixelRatio rd) (size rd).
Definition rd_scissor v (rd : WebGLRenderer) :=
  mkRenderer (autoClear rd) (clearColor rd) (clearAlpha rd) (scissorTest rd)
             v (renderTarget rd) (pixelRatio rd) (size rd).
Definition rd_renderTarget v (rd : WebGLRenderer) :=
  mkRenderer (autoClear rd) (clearColor rd) (clearAlpha rd) (scissorTest rd)
             (scissor rd) v (pixelRatio rd) (size rd).

(** *** Computations of a frame

    A method body is a function of the world and of the effect object
    [this]; it either returns or throws, and the state it leaves is the
    state at that moment. *)

Inductive outcome (A : Type) := Returned (v : A) | Thrown.
Arguments Returned {A} v.
Arguments Thrown {A}.

Definition M (E A : Type) : Type := World * E -> outcome A * (World * E).

Definition ret {E A} (v : A) : M E A := fun s => (Returned v, s).

Definition bind {E A B} (c : M E A) (k : A -> M E B) : M E B :=
  fun s => match c s with
           | (Returned v, s') => k v s'
           | (Thrown, s') => (Thrown, s')
           end.

(** [try { body } finally { handler }]. *)
Definition try_finally {E A} (body : M E A) (handler : M E unit) : M E A :=
  fun s => match body s with
           | (o, s1) =>
               match handler s1 with
               | (Returned _, s2) => (o, s2)
               | (Thrown, s2) => (Thrown, s2)
               end
           end.

Definition get_world {E} : M E World := fun s => (Returned (fst s), s).
Definition get_this {E} : M E E := fun s => (Returned (snd s), s).
Definition modify_world {E} (f : World -> World) : M E unit :=
  fun s => (Returned tt, (f (fst s), snd s)).
Definition modify_this {E} (f : E -> E) : M E unit :=
  fun s => (Returned tt, (fst s, f (snd s))).
Definition modify_renderer {E} (f : WebGLRenderer -> WebGLRenderer)
  : M E unit :=
  modify_world (fun w => with_renderer (f (renderer w)) w).

Declare Scope frame_scope.
Delimit Scope frame_scope with frame.
Notation "x <- c ;; k" := (bind c (fun x => k))
  (at level 61, c at next level, right associativity) : frame_scope.
Notation "c ;; k" := (bind c (fun _ => k))
  (at level 61, right associativity) : frame_scope.

(** The value of a test together with the fact that it has that value. *)
Definition inspect {A} (v : A) : { w : A | v = w } := exist _ v eq_refl.

(** [for (let i = 0; i < n; i++) body(i)]. *)
Fixpoint for_loop {E} (from : nat) (n : nat) (body : nat -> M E unit)
  : M E unit :=
  match n with
  | O => ret tt
  | S n' => bind (body from) (fun _ => for_loop (S from) n' body)
  end.

Section WithPlatform.
Variable P : Platform.
Context {E : Type}.

Definition clearTexel (rd : WebGLRenderer) : vec4 :=
  mkVec4 (cr (clearColor rd)) (cg (clearColor rd)) (cb (clearColor rd))
         (clearAlpha rd).

Definition active (rd : WebGLRenderer) : Z -> Z -> bool :=
  if scissorTest rd
  then scissor_pixels P (scissor rd) (pixelRatio rd)
  else GL.everywhere.

Definition current_target (w : World) : sampler2D :=
  match renderTarget (renderer w) with
  | Some t => texture (targets_heap w t)
  | None => screen w
  end.

Definition store_target (img : sampler2D) (w : World) : World :=
  match renderTarget (renderer w) with
  | Some t =>
      let old := targets_heap w t in
      with_targets_heap
        (upd (targets_heap w) t (mkTarget (width old) (height old) img)) w
  | None => with_screen img w
  end.

(** A call that reaches the GPU: it throws when the next entry of the
    fault schedule says so, and otherwise is recorded and changes the
    current render target. *)
Definition submit (pass : Pass) (f : sampler2D -> sampler2D) : M E unit :=
  fun s =>
    let w := fst s in
    match faults w with
    | true :: rest => (Thrown, (with_faults rest w, snd s))
    | _ =>
        let w1 := with_faults (tl (faults w)) w in
        let w2 := store_target (f (current_target w1)) w1 in
        let c := mkCall (renderTarget (renderer w)) pass in
        (Returned tt, (with_calls (calls w ++ [c]) w2, snd s))
    end.

(** A draw with the renderer's current clear and scissor state. *)
Definition submit_draw (pass : Pass) (combine : vec4 -> vec4 -> vec4)
    (frag : World -> sampler2D -> Z -> Z -> option vec4) : M E unit :=
  fun s =>
    let w := fst s in
    let rd := renderer w in
    submit pass
      (fun target =>
         GL.draw (autoClear rd) (clearTexel rd) (active rd) combine
                 (frag w target) target) s.

(** [renderer.clear()]. *)
Definition clear : M E unit :=
  fun s =>
    let rd := renderer (fst s) in
    submit ClearPass
      (GL.draw true (clearTexel rd) (active rd) GL.overwrite
               (fun _ _ => None)) s.

(** [renderer.render(scene, camera)] with [scene.overrideMaterial]
    resolved by [shade]. *)
Definition render_scene (scene : Scene) (camera : Camera)
    (shade : E -> MaterialRef -> Z -> Z -> option vec4) : M E unit :=
  fun s =>
    let w := fst s in
    submit_draw (ScenePass (overrideMaterial w)) GL.overwrite
      (fun w target x y =>
         if covers P scene camera (objects w) (layersMask w)
                   (textureSize target) x y
         then match overrideMaterial w with
              | Some m => shade (snd s) m x y
              | None => own_material P x y
              end
         else None) s.

Definition setRenderTarget (t : option nat) : M E unit :=
  modify_renderer (rd_renderTarget t).
Definition setClearColor (c : Color) (alpha : Q) : M E unit :=
  modify_renderer (rd_clearColor c alpha).
Definition setAutoClear (v : bool) : M E unit :=
  modify_renderer (rd_autoClear v).
Definition setScissorTest (v : bool) : M E unit :=
  modify_renderer (rd_scissorTest v).
Definition setScissor (x y w h : Q) : M E unit :=
  modify_renderer (rd_scissor (x, y, w, h)).
Definition setOverrideMaterial (m : option MaterialRef) : M E unit :=
  modify_world (with_overrideMaterial m).
Definition target_resize (t : nat) (w h : Q) : M E unit :=
  modify_world (fun wd =>
    with_targets_heap
      (upd (targets_heap wd) t (target_setSize w h (targets_heap wd t)))
      wd).

Definition isDrawable (o : Object3D) : bool :=
  isMesh o || isLine o || isPoints o.

Definition setVisible (o : nat) (v : bool) : M E unit :=
  modify_world (fun w =>
    with_objects (upd (objects w) o (set_visible v (objects w o))) w).

(** [trav.traverse(obj => { if (drawable(obj)) { saved.push({obj,
    visible: obj.visible}); obj.visible = false } })]. *)
Fixpoint hide_all (trav : list nat) (saved : list (nat * bool))
  : M E (list (nat * bool)) :=
  match trav with
  | [] => ret saved
  | o :: rest =>
      bind get_world (fun w =>
        if isDrawable (objects w o) then
          bind (setVisible o false) (fun _ =>
            hide_all rest (saved ++ [(o, visible (objects w o))]))
        else hide_all rest saved)
  end.

(** [trav.traverse(obj => { if (drawable(obj)) obj.visible = true })]. *)
Fixpoint show_all (trav : list nat) : M E unit :=
  match trav with
  | [] => ret tt
  | o :: rest =>
      bind get_world (fun w =>
        if isDrawable (objects w o)
        then bind (setVisible o true) (fun _ => show_all rest)
        else show_all rest)
  end.

(** [saved.forEach(({obj, visible}) => { obj.visible = visible })]. *)
Fixpoint restore_all (saved : list (nat * bool)) : M E unit :=
  match saved with
  | [] => ret tt
  | (o, v) :: rest => bind (setVisible o v) (fun _ => restore_all rest)
  end.

End WithPlatform.

End Three.
Import Three.

(** ** [JumpFloodEffect] *)

Module JumpFloodEffect.

Local Open Scope frame_scope.

(** Uniforms of the materials the effect owns.  A texture uniform holds a
    reference to the render target whose texture it is, or [null]. *)
Record ExpandUniforms := mkExpandU { expand_source : option nat }.
Record JFAUniforms := mkJFAU
  { jfa_source : option nat; jfa_mask : option nat; jfa_step : Q }.
Record EffectUniforms := mkEffectU
  { effect_map : option nat; effect_mask : option nat;
    effect_color : Color; effect_thickness : Q; effect_inside : Z;
    effect_mode : Z }.

Record t := mkEffect
  { thickness : Q;
    color : Color;
    inside : bool;
    selectedObject : option Selection;
    targets : list nat;
    masks : list nat;
    seedMaterial_negative : Z;
    seedQuad_negative : Z;
    expandQuad : ExpandUniforms;
    jfaQuad : JFAUniforms;
    effectQuad : EffectUniforms;
    sphere_center : Vector3;
    sphere_radius : Q }.

(** The constructor, for the render targets [t0 t1] and masks [m0 m1] it
    allocates; [options.thickness || 30], [options.inside || false]. *)
Definition constructor (opt_thickness : option Q) (opt_color : Color)
    (opt_inside : option bool) (t0 t1 m0 m1 : nat) : t :=
  mkEffect
    (match opt_thickness with
     | Some v => if Qeq_bool v 0 then 30 else v
     | None => 30
     end)
    opt_color
    (match opt_inside with Some v => v | None => false end)
    None [t0; t1] [m0; m1]
    SeedMaterial.default_negative SeedMaterial.default_negative
    (mkExpandU None) (mkJFAU None None 0)
    (mkEffectU None None opt_color 5 1 2)
    (mkVector3 0 0 0) (-1).

Definition with_targets v (e : t) : t :=
  mkEffect (thickness e) (color e) (inside e) (selectedObject e) v (masks e)
    (seedMaterial_negative e) (seedQuad_negative e) (expandQuad e)
    (jfaQuad e) (effectQuad e) (sphere_center e) (sphere_radius e).
Definition with_masks v (e : t) : t :=
  mkEffect (thickness e) (color e) (inside e) (selectedObject e) (targets e)
    v (seedMaterial_negative e) (seedQuad_negative e) (expandQuad e)
    (jfaQuad e) (effectQuad e) (sphere_center e) (sphere_radius e).
Definition with_seedMaterial_negative v (e : t) : t :=
  mkEffect (thickness e) (color e) (inside e) (selectedObject e) (targets e)
    (masks e) v (seedQuad_negative e) (expandQuad e)
    (jfaQuad e) (effectQuad e) (sphere_center e) (sphere_radius e).
Definition with_expandQuad v (e : t) : t :=
  mkEffect (thickness e) (color e) (inside e) (selectedObject e) (targets e)
    (masks e) (seedMaterial_negative e) (seedQuad_negative e) v
    (jfaQuad e) (effectQuad e) (sphere_center e) (sphere_radius e).
Definition with_jfaQuad v (e : t) : t :=
  mkEffect (thickness e) (color e) (inside e) (selectedObject e) (targets e)
    (masks e) (seedMaterial_negative e) (seedQuad_negative e) (expandQuad e)
    v (effectQuad e) (sphere_center e) (sphere_radius e).
Definition with_effectQuad v (e : t) : t :=
  mkEffect (thickness e) (color e) (inside e) (selectedObject e) (targets e)
    (masks e) (seedMaterial_negative e) (seedQuad_negative e) (expandQuad e)
    (jfaQuad e) v (sphere_center e) (sphere_radius e).
Definition with_sphere c rad (e : t) : t :=
  mkEffect (thickness e) (color e) (inside e) (selectedObject e) (targets e)
    (masks e) (seedMaterial_negative e) (seedQuad_negative e) (expandQuad e)
    (jfaQuad e) (effectQuad e) c rad.
Definition with_selectedObject v (e : t) : t :=
  mkEffect (thickness e) (color e) (inside e) v (targets e)
    (masks e) (seedMaterial_negative e) (seedQuad_negative e) (expandQuad e)
    (jfaQuad e) (effectQuad e) (sphere_center e) (sphere_radius e).
Definition with_thickness v (e : t) : t :=
  mkEffect v (color e) (inside e) (selectedObject e) (targets e)
    (masks e) (seedMaterial_negative e) (seedQuad_negative e) (expandQuad e)
    (jfaQuad e) (effectQuad e) (sphere_center e) (sphere_radius e).

(** [arr[i]] for an array of render targets. *)
Definition at_index (arr : list nat) (i : nat) : nat := nth i arr 0%nat.

(** The texture a uniform refers to, as it is when the draw executes. *)
Definition sampler_of (w : World) (u : option nat) : sampler2D :=
  match u with
  | Some tg => texture (targets_heap w tg)
  | None => mkSampler 0 0 (fun _ _ => vec4_splat 0)
  end.

Definition color_vec (c : Color) : vec3 := mkVec3 (cr c) (cg c) (cb c).

(** The flat white [MeshBasicMaterial] of the mask, and the seed
    material with its uniform as it is when the scene is drawn. *)
Definition shade (this : t) (m : MaterialRef) (x y : Z) : option vec4 :=
  match m with
  | maskMaterial => Some (vec4_splat 1)
  | seedMaterial =>
      SeedMaterial.fragmentShader (seedMaterial_negative this) x y
  end.

(** The scissor computation of [render]: the statements from
    [const offset = this.sphere.center.clone()] to
    [this.sphere.center.y *= height], on the bounding sphere
    [(center, radius)] and the size of [targets[0]].  It yields the final
    [this.sphere.center] and [delta]. *)
Definition scissor_region (camera : Camera) (center : Vector3) (radius : Q)
    (target_width target_height pixelRatio thickness : Q) : Vector3 * Q :=
  let offset := center in
  let offset := applyMatrix4 offset (matrixWorldInverse camera) in
  let offset := set_vx offset (vx offset + radius) in
  let offset := set_vy offset (vy offset + radius) in
  let offset := applyMatrix4 offset (projectionMatrix camera) in
  let center := multiplyScalar (project center camera) 0.5 in
  let center := set_vx center (vx center + 0.5) in
  let center := set_vy center (vy center + 0.5) in
  let center := set_vz center 0 in
  let offset := multiplyScalar offset 0.5 in
  let offset := set_vx offset (vx offset + 0.5) in
  let offset := set_vy offset (vy offset + 0.5) in
  let offset := set_vz offset 0 in
  let width := target_width / pixelRatio in
  let height := target_height / pixelRatio in
  let delta :=
    Qmax (Qabs (vx center - vx offset) * width)
         (Qabs (vy center - vy offset) * height) + thickness in
  let center := set_vx center (vx center * width) in
  let center := set_vy center (vy center * height) in
  (center, delta).

Section WithPlatform.
Variable P : Platform.

Definition setSize (w h : Q) : M t unit :=
  wd <- get_world ;;
  this <- get_this ;;
  let dpr := pixelRatio (renderer wd) in
  target_resize (at_index (targets this) 0) (w * dpr) (h * dpr) ;;
  target_resize (at_index (targets this) 1) (w * dpr) (h * dpr).

Definition setSelection (object : Selection) : M t unit :=
  modify_this (with_selectedObject (Some object)).
Definition clearSelection : M t unit :=
  modify_this (with_selectedObject None).
Definition setThickness (v : Q) : M t unit :=
  modify_this (with_thickness v).

(** [this.expandQuad.render(renderer)]. *)
Definition expandQuad_render : M t unit :=
  this <- get_this ;;
  let u := expandQuad this in
  submit_draw P (ExpandPass (expand_source u)) GL.overwrite
    (fun w _ x y =>
       ExpandMaskMaterial.fragmentShader
         (sampler_of w (expand_source u)) x y).

(** [this.seedQuad.render(renderer)]. *)
Definition seedQuad_render : M t unit :=
  this <- get_this ;;
  submit_draw P (SeedPass (seedQuad_negative this)) GL.overwrite
    (fun _ _ x y =>
       SeedMaterial.fragmentShader (seedQuad_negative this) x y).

(** [this.jfaQuad.render(renderer)]; the [int] uniform [step] receives
    the integral part of the number stored. *)
Definition jfaQuad_render : M t unit :=
  this <- get_this ;;
  let u := jfaQuad this in
  submit_draw P
    (JFAPass (jfa_source u) (jfa_mask u) (jfa_step u))
    GL.overwrite
    (fun w target x y =>
       JFAMaterial.fragmentShader (glsl_length P)
         (sampler_of w (jfa_source u)) (sampler_of w (jfa_mask u))
         (to_int (jfa_step u))
         (quad_uv (tex_width target) (tex_height target) x y) x y).

(** [this.effectQuad.render(renderer)]; the material is transparent. *)
Definition effectQuad_render : M t unit :=
  this <- get_this ;;
  let u := effectQuad this in
  submit_draw P
    (EffectPass (effect_map u) (effect_thickness u) (effect_inside u))
    GL.normal_blend
    (fun w target x y =>
       EffectMaterial.fragmentShader (sampler_of w (effect_map u))
         (effect_thickness u) (effect_inside u)
         (color_vec (effect_color u))
         (quad_uv (tex_width target) (tex_height target) x y)).

(** One turn of the ping-pong loop, up to the test of [step]. *)
Definition jfa_iteration (step : Q) : M t unit :=
  this <- get_this ;;
  modify_this (with_jfaQuad
    (mkJFAU (Some (at_index (targets this) 0))
            (Some (at_index (masks this) 1)) step)) ;;
  setRenderTarget (Some (at_index (targets this) 1)) ;;
  jfaQuad_render ;;
  setRenderTarget None ;;
  modify_this (fun e => with_targets (rev (targets e)) e).

(** [Math.ceil(step * 0.5)]. *)
Definition next_step (step : Q) : Q := inject_Z (Qceiling (step * 0.5)).

(** [while (true) { ...; if (step <= 1) break;
     step = Math.ceil(step * 0.5) }]. *)
Equations jfa_loop (step : Q) : M t unit
  by wf (Z.to_nat (Qceiling step)) lt :=
  jfa_loop step with inspect (Qle_bool step 1) := {
    | exist _ true _ => jfa_iteration step
    | exist _ false H =>
        bind (jfa_iteration step) (fun _ => jfa_loop (next_step step)) }.
Next Obligation.
  unfold next_step. rewrite Qceiling_Z.
  assert (Hs : 1 < step).
  { apply Qnot_le_lt. intros Hle. apply Qle_bool_iff in Hle. congruence. }
  pose proof (Qle_ceiling step) as Hc.
  assert (H2 : (2 <= Qceiling step)%Z).
  { assert (Hlt : inject_Z 1 < inject_Z (Qceiling step)) by
      (eapply Qlt_le_trans; [exact Hs | exact Hc]).
    rewrite <- Zlt_Qlt in Hlt. lia. }
  assert (Hle : (Qceiling (step * 0.5) <= Qceiling step - 1)%Z).
  { rewrite <- (Qceiling_Z (Qceiling step - 1)).
    apply Qceiling_resp_le.
    assert (Hi : inject_Z 2 <= inject_Z (Qceiling step))
      by (rewrite <- Zle_Qle; exact H2).
    unfold Z.sub. rewrite inject_Z_plus, inject_Z_opp.
    change (inject_Z 2) with 2 in Hi.
    change (inject_Z 1) with 1. lra. }
  assert (Hpos : (1 <= Qceiling (step * 0.5))%Z).
  { assert (Hlt : inject_Z 0 < inject_Z (Qceiling (step * 0.5))).
    { eapply Qlt_le_trans; [| apply Qle_ceiling].
      change (inject_Z 0) with 0. lra. }
    rewrite <- Zlt_Qlt in Hlt. lia. }
  lia.
Qed.

(** The stages of [render], in the order of the method body. *)

(** "Calculate mask size based on thickness" and "Render mask of selected
    object"; yields [originalVisible]. *)
Definition mask_stage (scene : Scene) (camera : Camera)
    (selected : Selection) (thickness : Q) : M t (list (nat * bool)) :=
  this <- get_this ;;
  w0 <- get_world ;;
  let t0 := targets_heap w0 (at_index (targets this) 0) in
  let maskWidth := inject_Z (Z.max (Qfloor (width t0 / thickness)) 3) in
  let maskHeight := inject_Z (Z.max (Qfloor (height t0 / thickness)) 3) in
  target_resize (at_index (masks this) 0) maskWidth maskHeight ;;
  target_resize (at_index (masks this) 1) maskWidth maskHeight ;;
  originalVisible <- hide_all (scene_traversal scene) [] ;;
  (* Make only selected object visible *)
  show_all (sel_traversal selected) ;;
  setOverrideMaterial (Some maskMaterial) ;;
  setClearColor (mkColor 0 0 0) 0 ;;
  setRenderTarget (Some (at_index (masks this) 0)) ;;
  clear P ;;
  render_scene P scene camera shade ;;
  setOverrideMaterial None ;;
  (* Restore visibility *)
  restore_all originalVisible ;;
  ret originalVisible.

(** "Expand mask". *)
Definition expand_iteration (i : nat) : M t unit :=
  this <- get_this ;;
  modify_this (with_expandQuad
    (mkExpandU (Some (at_index (masks this) 0)))) ;;
  setRenderTarget (Some (at_index (masks this) 1)) ;;
  expandQuad_render ;;
  modify_this (fun e => with_masks (rev (masks e)) e).

Definition expand_stage : M t unit :=
  for_loop 0 4 expand_iteration ;;
  modify_this (fun e => with_masks (rev (masks e)) e).

(** "Calculate scissor region based on object bounding box". *)
Definition scissor_stage (camera : Camera) (selected : Selection)
    (thickness : Q) : M t unit :=
  this <- get_this ;;
  w <- get_world ;;
  let t0 := targets_heap w (at_index (targets this) 0) in
  let (center, delta) :=
    scissor_region camera (sel_center selected) (sel_radius selected)
      (width t0) (height t0) (pixelRatio (renderer w)) thickness in
  modify_this (with_sphere center (sel_radius selected)) ;;
  setScissorTest true ;;
  setScissor (vx center - delta) (vy center - delta) (delta * 2) (delta * 2).

(** "Initialize JFA seed", "Render selected object to seed" and "Restore
    visibility again". *)
Definition seed_stage (scene : Scene) (camera : Camera)
    (selected : Selection) (originalVisible : list (nat * bool))
    : M t unit :=
  this <- get_this ;;
  setRenderTarget (Some (at_index (targets this) 0)) ;;
  seedQuad_render ;;
  show_all (sel_traversal selected) ;;
  setOverrideMaterial (Some seedMaterial) ;;
  modify_this (with_seedMaterial_negative (SeedMaterial.set_negative true)) ;;
  setAutoClear false ;;
  render_scene P scene camera shade ;;
  setAutoClear true ;;
  setOverrideMaterial None ;;
  restore_all originalVisible ;;
  setRenderTarget None.

(** "JFA ping-pong iterations". *)
Definition initial_step (target_width target_height thickness : Q) : Q :=
  Qmin (Qmax target_width target_height) thickness.

Definition flood_stage (thickness : Q) : M t unit :=
  this <- get_this ;;
  w <- get_world ;;
  let t0 := targets_heap w (at_index (targets this) 0) in
  jfa_loop (initial_step (width t0) (height t0) thickness).

(** "Render final effect to screen" and "Restore clear color". *)
Definition composite_stage (thickness : Q) (originalAutoClear : bool)
    (originalClearColor : Color) (originalClearAlpha : Q) : M t unit :=
  setAutoClear false ;;
  setRenderTarget None ;;
  this <- get_this ;;
  modify_this (with_effectQuad
    (mkEffectU (Some (at_index (targets this) 0))
               (Some (at_index (masks this) 1))
               (effect_color (effectQuad this)) thickness
               (EffectMaterial.set_inside (inside this)) 2)) ;;
  effectQuad_render ;;
  setAutoClear originalAutoClear ;;
  setScissorTest false ;;
  setClearColor originalClearColor originalClearAlpha.

Definition render (scene : Scene) (camera : Camera) : M t unit :=
  this <- get_this ;;
  w0 <- get_world ;;
  match selectedObject this with
  | None => ret tt
  | Some selected =>
      if negb (visible (objects w0 (sel_root selected))) then ret tt
      else
        let thickness := thickness this in
        (* Store original state *)
        let originalAutoClear := autoClear (renderer w0) in
        let originalClearColor := clearColor (renderer w0) in
        let originalClearAlpha := clearAlpha (renderer w0) in
        originalVisible <- mask_stage scene camera selected thickness ;;
        expand_stage ;;
        scissor_stage camera selected thickness ;;
        seed_stage scene camera selected originalVisible ;;
        flood_stage thickness ;;
        composite_stage thickness originalAutoClear originalClearColor
                        originalClearAlpha
  end.

End WithPlatform.

End JumpFloodEffect.

(** ** [OutlineEffect] and its two materials *)

(** [DilateMaterial]: "grows mask by 1 pixel per pass"; reads the centre
    and the 4 cardinal neighbours. *)
Module DilateMaterial.

Definition fragmentShader (source : sampler2D) (texelSize : Q * Q)
    (vUv : Q * Q) : option vec4 :=
  let center := r (texture2D source vUv) in
  let right := r (texture2D source (fst vUv + fst texelSize, snd vUv + 0.0)) in
  let left := r (texture2D source (fst vUv - fst texelSize, snd vUv - 0.0)) in
  let up := r (texture2D source (fst vUv + 0.0, snd vUv + snd texelSize)) in
  let down := r (texture2D source (fst vUv - 0.0, snd vUv - snd texelSize)) in
  let val := Qmax center (Qmax right (Qmax left (Qmax up down))) in
  Some (mkVec4 val 0.0 0.0 1.0).

End DilateMaterial.

(** [CompositeOutlineMaterial]: "draws outline where dilated mask exists
    but original doesn't". *)
Module CompositeOutlineMaterial.

(** The factor [outline] of [main]. *)
Definition outline (d o : Q) : Q :=
  glsl_step 0.5 d * (1.0 - glsl_step 0.5 o).

Definition fragmentShader (dilated original : sampler2D) (color : vec3)
    (vUv : Q * Q) : option vec4 :=
  let d := r (texture2D dilated vUv) in
  let o := r (texture2D original vUv) in
  let outline := outline d o in
  Some (mkVec4 (v3x color * outline) (v3y color * outline)
               (v3z color * outline) (1.0 * outline)).

End CompositeOutlineMaterial.

Module OutlineEffect.

Local Open Scope frame_scope.

Definition OUTLINE_LAYER : Z := 1.

Record DilateUniforms := mkDilateU
  { dilate_source : option nat; dilate_texelSize : Q * Q }.
Record CompositeUniforms := mkCompositeU
  { composite_dilated : option nat; composite_original : option nat;
    composite_color : Color }.

Record t := mkEffect
  { thickness : Q;
    color : Color;
    selectedObject : option Selection;
    _width : Q;
    _height : Q;
    maskTarget : nat;
    dilateA : nat;
    dilateB : nat;
    dilateMaterial : DilateUniforms;
    compositeMaterial : CompositeUniforms }.

(** The constructor, for the three render targets it allocates;
    [options.thickness || 3]. *)
Definition constructor (opt_thickness : option Q) (opt_color : Color)
    (tm ta tb : nat) : t :=
  mkEffect
    (match opt_thickness with
     | Some v => if Qeq_bool v 0 then 3 else v
     | None => 3
     end)
    opt_color None 0 0 tm ta tb
    (mkDilateU None (1 / 512, 1 / 512))
    (mkCompositeU None None (mkColor 1 1 1)).

Definition with_size w h (e : t) : t :=
  mkEffect (thickness e) (color e) (selectedObject e) w h (maskTarget e)
    (dilateA e) (dilateB e) (dilateMaterial e) (compositeMaterial e).
Definition with_selectedObject v (e : t) : t :=
  mkEffect (thickness e) (color e) v (_width e) (_height e)
    (maskTarget e) (dilateA e) (dilateB e) (dilateMaterial e)
    (compositeMaterial e).
Definition with_dilateMaterial v (e : t) : t :=
  mkEffect (thickness e) (color e) (selectedObject e) (_width e) (_height e)
    (maskTarget e) (dilateA e) (dilateB e) v (compositeMaterial e).
Definition with_compositeMaterial v (e : t) : t :=
  mkEffect (thickness e) (color e) (selectedObject e) (_width e) (_height e)
    (maskTarget e) (dilateA e) (dilateB e) (dilateMaterial e) v.

Definition sampler_of := JumpFloodEffect.sampler_of.
Definition color_vec := JumpFloodEffect.color_vec.

(** The white [MeshBasicMaterial] of the silhouette; the effect owns no
    other material a scene is rendered with. *)
Definition shade (this : t) (m : MaterialRef) (x y : Z) : option vec4 :=
  match m with
  | maskMaterial => Some (vec4_splat 1)
  | seedMaterial => None
  end.

(** [Math.round]: the nearest integer, halves going up. *)
Definition Math_round (x : Q) : Z := Qfloor (x + 0.5).

(** [Math.max(1, Math.round(this.thickness * renderer.getPixelRatio()))]. *)
Definition physicalThickness (thickness pixelRatio : Q) : Z :=
  Z.max 1 (Math_round (thickness * pixelRatio)).

(** [for (let i = 0; i < n; i++) { state = body(i, state) }], for the
    variables a loop body reassigns. *)
Fixpoint for_loop_with {S} (from n : nat) (body : nat -> S -> M t S)
    (state : S) : M t S :=
  match n with
  | O => ret state
  | Datatypes.S n' =>
      bind (body from state)
           (fun state' => for_loop_with (Datatypes.S from) n' body state')
  end.

Section WithPlatform.
Variable P : Platform.

Definition _updateSize : M t unit :=
  wd <- get_world ;;
  this <- get_this ;;
  let size := size (renderer wd) in
  let dpr := pixelRatio (renderer wd) in
  let w := inject_Z (Qfloor (fst size * dpr)) in
  let h := inject_Z (Qfloor (snd size * dpr)) in
  if negb (Qeq_bool w (_width this)) || negb (Qeq_bool h (_height this))
  then
    modify_this (with_size w h) ;;
    target_resize (maskTarget this) w h ;;
    target_resize (dilateA this) w h ;;
    target_resize (dilateB this) w h
  else ret tt.

(** [this.dilateQuad.render(renderer)]. *)
Definition dilateQuad_render : M t unit :=
  this <- get_this ;;
  let u := dilateMaterial this in
  submit_draw P (DilatePass (dilate_source u)) GL.overwrite
    (fun w target x y =>
       DilateMaterial.fragmentShader (sampler_of w (dilate_source u))
         (dilate_texelSize u)
         (quad_uv (tex_width target) (tex_height target) x y)).

(** [this.compositeQuad.render(renderer)]; the material is transparent
    with normal blending. *)
Definition compositeQuad_render : M t unit :=
  this <- get_this ;;
  let u := compositeMaterial this in
  submit_draw P
    (CompositePass (composite_dilated u) (composite_original u))
    GL.normal_blend
    (fun w target x y =>
       CompositeOutlineMaterial.fragmentShader
         (sampler_of w (composite_dilated u))
         (sampler_of w (composite_original u))
         (color_vec (composite_color u))
         (quad_uv (tex_width target) (tex_height target) x y)).

(** The body of the dilation loop, on the pair
    [(readTarget, writeTarget)]. *)
Definition dilate_iteration (i : nat) (rw : nat * nat) : M t (nat * nat) :=
  let (readTarget, writeTarget) := rw in
  this <- get_this ;;
  modify_this (fun e => with_dilateMaterial
    (mkDilateU (Some readTarget)
               (dilate_texelSize (dilateMaterial e))) e) ;;
  setRenderTarget (Some writeTarget) ;;
  clear P ;;
  dilateQuad_render ;;
  (* Swap for next iteration *)
  if Nat.eqb i 0
  then ret (dilateA this, dilateB this)
  else ret (writeTarget, readTarget).

(** The steps of [render], in the order of the method body. *)

(** "Step 1: Render mask of selected object". *)
Definition mask_step (scene : Scene) (camera : Camera)
    (savedLayersMask : Z) (savedBackground savedEnvironment : option nat)
    : M t unit :=
  this <- get_this ;;
  modify_world (with_layersMask (Z.shiftl 1 OUTLINE_LAYER)) ;;
  setOverrideMaterial (Some maskMaterial) ;;
  modify_world (with_background None) ;;
  modify_world (with_environment None) ;;
  setClearColor (mkColor 0 0 0) 1 ;;
  setRenderTarget (Some (maskTarget this)) ;;
  clear P ;;
  render_scene P scene camera shade ;;
  setOverrideMaterial None ;;
  modify_world (with_background savedBackground) ;;
  modify_world (with_environment savedEnvironment) ;;
  modify_world (with_layersMask savedLayersMask).

(** "Step 2: Dilate mask N times (ping-pong)"; yields [readTarget], which
    "now has the final dilated mask". *)
Definition dilate_step (physicalThickness : Z) (texelX texelY : Q)
    : M t nat :=
  this <- get_this ;;
  modify_this (fun e => with_dilateMaterial
    (mkDilateU (dilate_source (dilateMaterial e)) (texelX, texelY)) e) ;;
  rw <- for_loop_with 0 (Z.to_nat physicalThickness) dilate_iteration
          (maskTarget this, dilateA this) ;;
  setRenderTarget None ;;
  ret (fst rw).

(** "Step 3: Composite outline over scene". *)
Definition composite_step (readTarget : nat) : M t unit :=
  this <- get_this ;;
  setAutoClear false ;;
  modify_this (with_compositeMaterial
    (mkCompositeU (Some readTarget) (Some (maskTarget this)) (color this))) ;;
  compositeQuad_render.

(** The [finally] block: "Restore all renderer state". *)
Definition restore_state (savedAutoClear : bool) (savedClearColor : Color)
    (savedClearAlpha : Q) (savedLayersMask : Z)
    (savedBackground savedEnvironment : option nat) : M t unit :=
  setAutoClear savedAutoClear ;;
  setClearColor savedClearColor savedClearAlpha ;;
  modify_world (with_layersMask savedLayersMask) ;;
  setOverrideMaterial None ;;
  modify_world (with_background savedBackground) ;;
  modify_world (with_environment savedEnvironment) ;;
  setRenderTarget None.

Definition render (scene : Scene) (camera : Camera) : M t unit :=
  this <- get_this ;;
  w0 <- get_world ;;
  match selectedObject this with
  | None => ret tt
  | Some selected =>
      if negb (visible (objects w0 (sel_root selected))) then ret tt
      else
        _updateSize ;;
        this <- get_this ;;
        w0 <- get_world ;;
        let physicalThickness :=
          physicalThickness (thickness this) (pixelRatio (renderer w0)) in
        let texelX := 1.0 / _width this in
        let texelY := 1.0 / _height this in
        (* Save state *)
        let savedAutoClear := autoClear (renderer w0) in
        let savedClearColor := clearColor (renderer w0) in
        let savedClearAlpha := clearAlpha (renderer w0) in
        let savedLayersMask := layersMask w0 in
        let savedBackground := background w0 in
        let savedEnvironment := environment w0 in
        try_finally
          (mask_step scene camera savedLayersMask savedBackground
                     savedEnvironment ;;
           readTarget <- dilate_step physicalThickness texelX texelY ;;
           composite_step readTarget)
          (restore_state savedAutoClear savedClearColor savedClearAlpha
                         savedLayersMask savedBackground savedEnvironment)
  end.

End WithPlatform.

End OutlineEffect.

(** ** Passes as image transformers, and the data of the examples *)

Module Passes.

(** A texel of a mask counts as covered when its red channel is not zero. *)
Definition is_set (m : sampler2D) (x y : Z) : bool :=
  in_bounds m (x, y) && Qneqb (r (texel m x y)) 0.

(** One invocation of the mask-expansion pass, from [source] into
    [target], as [expandQuad.render] issues it in [render] (no scissor;
    every fragment is written, so the clear has no visible effect). *)
Definition expand_pass (source target : sampler2D) : sampler2D :=
  GL.draw true (vec4_splat 0) GL.everywhere GL.overwrite
          (ExpandMaskMaterial.fragmentShader source) target.

(** [k] invocations with the two masks ping-ponged: [front] is read and
    [back] written, then the roles are exchanged. *)
Fixpoint expand_n (k : nat) (front back : sampler2D) : sampler2D :=
  match k with
  | O => front
  | S k' => expand_n k' (expand_pass front back) front
  end.

(** A mask has no isolated texel when every covered texel has a covered
    texel among its 8 neighbours. *)
Definition no_isolated_texel (m : sampler2D) : Prop :=
  forall x y, is_set m x y = true ->
    exists o, In o ExpandMaskMaterial.offsets /\
              is_set m (x + fst o) (y + snd o) = true.

(** The image a flood pass with the uniform [step] leaves in its output
    buffer [target], under the renderer state [rd]. *)
Definition jfa_output (P : Platform) (rd : WebGLRenderer)
    (source mask : sampler2D) (step : Q) (target : sampler2D) : sampler2D :=
  GL.draw (autoClear rd) (clearTexel rd) (active P rd) GL.overwrite
    (fun x y =>
       JFAMaterial.fragmentShader (glsl_length P) source mask (to_int step)
         (quad_uv (tex_width target) (tex_height target) x y) x y)
    target.


(** A [w]x[h] image given by its rows, bottom row first. *)
Definition image_of (w h : Z) (rows : list (list vec4)) : sampler2D :=
  mkSampler w h (fun x y =>
    nth (Z.to_nat x) (nth (Z.to_nat y) rows []) (vec4_splat 0)).

Definition red (v : Q) : vec4 := mkVec4 v 0 0 1.

End Passes.

(** State that a computation leaves as it found it, whether it returns
    or throws. *)
Module Frame.

(** [keeps J c]: the property [J] of the world survives [c]. *)
Definition keeps {E A} (J : World -> Prop) (c : M E A) : Prop :=
  forall s, J (fst s) -> J (fst (snd (c s))).

(** The part of the renderer's state and of the scene that the design
    document wants restored: clear colour and alpha, scissor test,
    auto-clear flag, and the visibility of every object. *)
Definition same_global_state (w w' : World) : Prop :=
  autoClear (renderer w') = autoClear (renderer w) /\
  clearColor (renderer w') = clearColor (renderer w) /\
  clearAlpha (renderer w') = clearAlpha (renderer w) /\
  scissorTest (renderer w') = scissorTest (renderer w) /\
  forall o, visible (objects w' o) = visible (objects w o).

End Frame.

(** The effect of the three traversals of [render] on the objects. *)
Module Visibility.

Fixpoint show_objs (trav : list nat) (objs : nat -> Object3D)
  : nat -> Object3D :=
  match trav with
  | [] => objs
  | o :: rest =>
      show_objs rest
        (if isDrawable (objs o)
         then upd objs o (set_visible true (objs o)) else objs)
  end.

Fixpoint hide_objs (trav : list nat) (objs : nat -> Object3D)
    (saved : list (nat * bool)) : (nat -> Object3D) * list (nat * bool) :=
  match trav with
  | [] => (objs, saved)
  | o :: rest =>
      if isDrawable (objs o)
      then hide_objs rest (upd objs o (set_visible false (objs o)))
                     (saved ++ [(o, visible (objs o))])
      else hide_objs rest objs saved
  end.

Fixpoint restore_objs (saved : list (nat * bool)) (objs : nat -> Object3D)
  : nat -> Object3D :=
  match saved with
  | [] => objs
  | (o, v) :: rest => restore_objs rest (upd objs o (set_visible v (objs o)))
  end.

(** What [hide_objs] saves on a traversal that starts with nothing
    saved. *)
Definition saved_of (trav : list nat) (objs : nat -> Object3D)
  : list (nat * bool) :=
  flat_map (fun o => if isDrawable (objs o)
                     then [(o, visible (objs o))] else []) trav.

(** Two tables of objects that differ at most in visibility flags. *)
Definition same_kinds (f g : nat -> Object3D) : Prop :=
  forall o, isMesh (f o) = isMesh (g o) /\ isLine (f o) = isLine (g o) /\
            isPoints (f o) = isPoints (g o).

End Visibility.

(** The dilation of the cheaper outline in the words of the design
    document. *)
Module Dilation.

(** The values of a single-channel mask. *)
Definition mask_values (m : sampler2D) : Z -> Z -> Q :=
  fun x y => r (texel m x y).

(** The 4-neighbour maximum filter on a [w]x[h] raster, neighbours beyond
    an edge being the edge texels themselves. *)
Definition max4 (w h : Z) (f : Z -> Z -> Q) : Z -> Z -> Q :=
  fun x y =>
    Qmax (f x y)
      (Qmax (f (clampZ (x + 1) 0 (w - 1)) y)
         (Qmax (f (clampZ (x - 1) 0 (w - 1)) y)
            (Qmax (f x (clampZ (y + 1) 0 (h - 1)))
                  (f x (clampZ (y - 1) 0 (h - 1)))))).


(** "dilated AND NOT original", a mask being set where it reaches 0.5. *)
Definition dilated_and_not_original (d o : Q) : bool :=
  Qle_bool 0.5 d && negb (Qle_bool 0.5 o).


End Dilation.

(** The scissor region in the words of the design document. *)
Module Region.

(** A point of normalized device space in normalized screen coordinates. *)
Definition to_screen (ndc : Vector3) : Q * Q :=
  (vx ndc * 0.5 + 0.5, vy ndc * 0.5 + 0.5).

(** The bounding-sphere centre projected to the screen. *)
Definition center_on_screen (camera : Camera) (center : Vector3) : Q * Q :=
  to_screen (project center camera).

(** The projection of the centre displaced by the radius along the
    camera-relative X and Y axes. *)
Definition offset_on_screen (camera : Camera) (center : Vector3)
    (radius : Q) : Q * Q :=
  let v := applyMatrix4 center (matrixWorldInverse camera) in
  let displaced := mkVector3 (vx v + radius) (vy v + radius) (vz v) in
  to_screen (applyMatrix4 displaced (projectionMatrix camera)).

(** [max(|center.x - offset.x| * width, |center.y - offset.y| * height)
     + thickness]. *)
Definition half_extent (camera : Camera) (center : Vector3) (radius : Q)
    (width height thickness : Q) : Q :=
  let c := center_on_screen camera center in
  let o := offset_on_screen camera center radius in
  Qmax (Qabs (fst c - fst o) * width) (Qabs (snd c - snd o) * height)
  + thickness.

End Region.

(** The flood schedule in the words of the design document. *)
Module FloodSchedule.

(** The steps of the flood passes among the recorded calls, in order. *)
Definition jfa_steps (cs : list Call) : list Q :=
  flat_map (fun c => match call_pass c with
                     | JFAPass _ _ step => [step]
                     | _ => []
                     end) cs.

(** [schedule step l]: starting from [step], halving (rounding up) after
    each pass and stopping after the pass whose step is at most 1 yields
    the steps [l]. *)
Inductive schedule : Q -> list Q -> Prop :=
| schedule_last (step : Q) :
    step <= 1 -> schedule step [step]
| schedule_more (step : Q) (rest : list Q) :
    1 < step ->
    schedule (inject_Z (Qceiling (step / 2))) rest ->
    schedule step (step :: rest).

(** [2 ^ k] as a rational. *)
Definition pow2 (k : nat) : Q := inject_Z (2 ^ Z.of_nat k).

(** [k] is the ceiling of the binary logarithm of [x >= 1]: the least
    exponent with [x <= 2 ^ k]. *)
Definition is_ceil_log2 (x : Q) (k : nat) : Prop :=
  x <= pow2 k /\ forall j : nat, (j < k)%nat -> pow2 j < x.

End FloodSchedule.

(** The per-pixel rule of a flood pass in the words of the design
    document, to be compared with [JFAMaterial]. *)
Module FloodRule.
Section WithLength.

Variable length : Z -> Z -> Q.

(** The 8 neighbours of a pixel: offsets of -1, 0 or 1 per axis, the zero
    offset skipped. *)
Definition is_neighbor_offset (o : ivec2) : Prop :=
  (-1 <= fst o <= 1)%Z /\ (-1 <= snd o <= 1)%Z /\ o <> (0, 0)%Z.

(** What the neighbour at offset [o * step] of pixel [p] proposes: a seed
    coordinate and the distance from [p] that goes with it.  A neighbour
    outside the buffer, or with a zero marker, proposes nothing.  A
    neighbour whose sign differs from the pixel's proposes its own raster
    coordinate; one of the same sign that relays another seed (its stored
    coordinate is not its own raster coordinate) proposes that seed. *)
Definition candidate (source : sampler2D) (p : ivec2) (step : Z)
    (o : ivec2) : option (Q * Q * Q) :=
  let n := (fst p + fst o * step, snd p + snd o * step)%Z in
  let pixel := texelFetch source p in
  let other := texelFetch source n in
  if negb (in_bounds source n) then None
  else if Qeq_bool (b other) 0 then None
  else if Qneqb (sign (b pixel)) (sign (b other)) then
    Some (inject_Z (fst n), inject_Z (snd n),
          length (fst p - fst n) (snd p - snd n))
  else if (to_int (r other) =? fst n)%Z && (to_int (g other) =? snd n)%Z
  then None
  else Some (r other, g other,
             length (fst p - to_int (r other)) (snd p - to_int (g other))).

End WithLength.

(** The magnitude of a record's marker for a pixel of sign [s], the
    [result.z * resultSign] of the shader. *)
Definition magnitude (s : Q) (v : vec3) : Q := v3z v * s.

End FloodRule.

Module Examples.
Import Passes.

(** A rational stand-in for the [length] builtin: exact on perfect
    squares and linear between two of them. *)
Definition length (dx dy : Z) : Q :=
  let n := (dx * dx + dy * dy)%Z in
  let k := Z.sqrt n in
  Qred (inject_Z k + inject_Z (n - k * k) / inject_Z (2 * k + 1)).

(** Seed records as [SeedMaterial] writes them at pixel [(x, y)]. *)
Definition seeded (negative : Z) (x y : Z) : vec4 :=
  mkVec4 (inject_Z x + 0.5) (inject_Z y + 0.5) (1e4 * inject_Z negative) 1.

(** A seeded 3x3 propagation buffer: the centre pixel belongs to the
    object, the others do not. *)
Definition seeds3 : sampler2D :=
  mkSampler 3 3 (fun x y =>
    if ((x =? 1) && (y =? 1))%Z then seeded (-1) x y else seeded 1 x y).

(** A coverage mask that is 1 everywhere, and one that is 0 everywhere. *)
Definition full_mask : sampler2D := mkSampler 3 3 (fun _ _ => red 1).

(** A small frame.  Object 0 is the root of the selection (a group),
    object 1 its mesh, object 2 a mesh of the rest of the scene.  The mesh
    of the selection covers the pixel at the centre of a viewport, the
    other mesh the pixel at its origin. *)
Definition objects0 (i : nat) : Object3D :=
  match i with
  | 0%nat => mkObject false false false true
  | _ => mkObject true false false true
  end.

Definition covers (scene : Scene) (camera : Camera)
    (objs : nat -> Object3D) (layers : Z) (size : Z * Z) (x y : Z) : bool :=
  (visible (objs 1%nat) && (x =? fst size / 2)%Z && (y =? snd size / 2)%Z) ||
  (visible (objs 2%nat) && (x =? 0)%Z && (y =? 0)%Z).

(** The pixels of a scissor box [(x, y, w, h)] at a device pixel ratio. *)
Definition scissor_pixels (box : Q * Q * Q * Q) (dpr : Q) (x y : Z) : bool :=
  let '(bx, by_, bw, bh) := box in
  (Qfloor (bx * dpr) <=? x)%Z && (x <? Qfloor ((bx + bw) * dpr))%Z &&
  (Qfloor (by_ * dpr) <=? y)%Z && (y <? Qfloor ((by_ + bh) * dpr))%Z.

Definition platform : Platform :=
  mkPlatform length covers scissor_pixels (fun _ _ => None).

Definition scene : Scene := mkScene [0; 1; 2]%nat.

Definition identity4 : Matrix4 :=
  fun i => match i with
           | 0%nat | 5%nat | 10%nat | 15%nat => 1
           | _ => 0
           end.
Definition camera : Camera := mkCamera identity4 identity4.

Definition selection : Selection :=
  mkSelection 0 [0; 1]%nat (mkVector3 0 0 0) (1 # 2).

Definition blank (w h : Z) : sampler2D :=
  mkSampler w h (fun _ _ => vec4_splat 0).

(** Render targets 0 and 1 are 4x4 float buffers, the others 1x1. *)
Definition heap0 (i : nat) : WebGLRenderTarget :=
  if (i <? 2)%nat then mkTarget 4 4 (blank 4 4)
  else mkTarget 1 1 (blank 1 1).

Definition renderer0 : WebGLRenderer :=
  mkRenderer true (mkColor 1 1 1) 1 false (0, 0, 4, 4) None 1 (4, 4).

Definition world0 : World :=
  mkWorld renderer0 heap0 (blank 4 4) objects0 None None None 1 [] [].

(** A jump-flood effect of thickness 2 with the selection set. *)
Definition jfe0 : JumpFloodEffect.t :=
  JumpFloodEffect.with_selectedObject (Some selection)
    (JumpFloodEffect.constructor (Some 2) (mkColor 1 0 0) None 0 1 2 3).

(** A larger frame: 12x12 float buffers, a selection whose bounding
    sphere has radius 1, and a jump-flood effect of thickness 1. *)
Definition heap12 (i : nat) : WebGLRenderTarget :=
  if (i <? 2)%nat then mkTarget 12 12 (blank 12 12)
  else mkTarget 1 1 (blank 1 1).

Definition world12 : World :=
  mkWorld
    (mkRenderer true (mkColor 1 1 1) 1 false (0, 0, 12, 12) None 1 (12, 12))
    heap12 (blank 12 12) objects0 None None None 1 [] [].

Definition selection12 : Selection :=
  mkSelection 0 [0; 1]%nat (mkVector3 0 0 0) 1.

Definition jfe12 : JumpFloodEffect.t :=
  JumpFloodEffect.with_selectedObject (Some selection12)
    (JumpFloodEffect.constructor (Some 1) (mkColor 1 0 0) None 0 1 2 3).

(** The small frame with the scissor test already on, and with a fault
    schedule in which the second call to reach the GPU throws. *)
Definition world0_scissored : World :=
  with_renderer (rd_scissorTest true renderer0) world0.

Definition world0_failing : World := with_faults [false; true] world0.

(** An outline effect of thickness 2 with the selection set. *)
Definition outline0 : OutlineEffect.t :=
  OutlineEffect.with_selectedObject (Some selection)
    (OutlineEffect.constructor (Some 2) (mkColor 1 0 0) 0 1 2).

(** A 3x3 mask whose only covered texel is the centre. *)
Definition dot_mask : sampler2D :=
  image_of 3 3 [[red 0; red 0; red 0];
                [red 0; red 1; red 0];
                [red 0; red 0; red 0]].

(** A 3x3 mask with two adjacent covered texels. *)
Definition pair_mask : sampler2D :=
  image_of 3 3 [[red 0; red 0; red 0];
                [red 0; red 1; red 1];
                [red 0; red 0; red 0]].

Definition blank3 : sampler2D :=
  image_of 3 3 [[red 0; red 0; red 0];
                [red 0; red 0; red 0];
                [red 0; red 0; red 0]].

End Examples.

(** ** Further readings of the two effects *)

Module Guard.

(** The test that opens both [render] methods:
    [!this.selectedObject || !this.selectedObject.visible]. *)
Definition nothing_to_outline (w : World) (sel : option Selection) : bool :=
  match sel with
  | None => true
  | Some selected => negb (visible (objects w (sel_root selected)))
  end.

End Guard.

(** The dilation of [OutlineEffect] as an image transformer. *)
Module Morphology.

(** The image one dilation pass draws when it reads [source] and writes
    a target of the same size, with the texel size [render] sets (the
    reciprocals of the width and of the height) and no scissor. *)
Definition dilate_pass (source : sampler2D) : sampler2D :=
  GL.draw true (vec4_splat 0) GL.everywhere GL.overwrite
    (fun x y =>
       DilateMaterial.fragmentShader source
         (1.0 / inject_Z (tex_width source),
          1.0 / inject_Z (tex_height source))
         (quad_uv (tex_width source) (tex_height source) x y))
    source.

(** The city-block distance between two texels. *)
Definition manhattan (x y x' y' : Z) : Z := (Z.abs (x - x') + Z.abs (y - y'))%Z.

End Morphology.

(** [THREE.Layers]: a 32-bit mask of channels. *)
Module Layers.

(** [x | 0]: the 32-bit two's complement integer congruent to [x]. *)
Definition int32 (x : Z) : Z := ((x + 2 ^ 31) mod 2 ^ 32 - 2 ^ 31)%Z.

(** [1 << channel | 0]; a shift count is taken modulo 32. *)
Definition channel_bit (channel : Z) : Z :=
  int32 (Z.shiftl 1 (channel mod 32)).

(** [enable(channel)]: [this.mask |= 1 << channel | 0]. *)
Definition enable (mask channel : Z) : Z :=
  int32 (Z.lor mask (channel_bit channel)).

(** [disable(channel)]: [this.mask &= ~(1 << channel | 0)]. *)
Definition disable (mask channel : Z) : Z :=
  int32 (Z.land mask (Z.lnot (channel_bit channel))).

(** [isEnabled(channel)]: [(this.mask & (1 << channel | 0)) !== 0]. *)
Definition isEnabled (mask channel : Z) : bool :=
  negb (Z.land mask (channel_bit channel) =? 0)%Z.

End Layers.

(** [OutlineEffect.setSelection] and [clearSelection], which mark the
    meshes of the selection on [OUTLINE_LAYER].  The state is the effect
    object and the layer mask of each object; [objs] tells the meshes. *)
Module OutlineSelection.

(** [object.traverse(child => { if (child.isMesh)
    child.layers.<op>(OUTLINE_LAYER) })]. *)
Definition traverse_layers (op : Z -> Z -> Z) (objs : nat -> Object3D)
    (trav : list nat) (layers : nat -> Z) : nat -> Z :=
  fold_left
    (fun ls child =>
       if isMesh (objs child)
       then upd ls child (op (ls child) OutlineEffect.OUTLINE_LAYER)
       else ls)
    trav layers.

Definition clearSelection (objs : nat -> Object3D)
    (s : OutlineEffect.t * (nat -> Z)) : OutlineEffect.t * (nat -> Z) :=
  let (this, layers) := s in
  let layers :=
    match OutlineEffect.selectedObject this with
    | Some selected =>
        traverse_layers Layers.disable objs (sel_traversal selected) layers
    | None => layers
    end in
  (OutlineEffect.with_selectedObject None this, layers).

Definition setSelection (objs : nat -> Object3D) (object : option Selection)
    (s : OutlineEffect.t * (nat -> Z)) : OutlineEffect.t * (nat -> Z) :=
  let (this, layers) := clearSelection objs s in
  match object with
  | None => (this, layers)
  | Some selected =>
      (OutlineEffect.with_selectedObject (Some selected) this,
       traverse_layers Layers.enable objs (sel_traversal selected) layers)
  end.

(** A mesh that the traversal of [selected] visits. *)
Definition mesh_of (objs : nat -> Object3D) (selected : Selection)
    (o : nat) : bool :=
  existsb (Nat.eqb o) (sel_traversal selected) && isMesh (objs o).

End OutlineSelection.

(** The calls of a frame of [JumpFloodEffect.render]. *)
Module FrameLog.

(** The passes of a ping-pong over the steps [steps]: each reads
    [front], under the mask [mask], and writes [back]; the two are
    exchanged after each pass. *)
Fixpoint pingpong_calls (mask front back : nat) (steps : list Q)
  : list Call :=
  match steps with
  | [] => []
  | step :: rest =>
      mkCall (Some back) (JFAPass (Some front) (Some mask) step)
      :: pingpong_calls mask back front rest
  end.

(** The buffer the last of these passes wrote ([front] when there is
    none). *)
Fixpoint pingpong_front (front back : nat) (steps : list Q) : nat :=
  match steps with
  | [] => front
  | _ :: rest => pingpong_front back front rest
  end.

(** Two worlds whose render targets have the same sizes, as the program
    sees them. *)
Definition same_dims (w w' : World) : Prop :=
  forall tg, width (targets_heap w' tg) = width (targets_heap w tg) /\
             height (targets_heap w' tg) = height (targets_heap w tg).

(** The calls of one frame, for the masks [m0 m1] and the buffers
    [t0 t1] in the order the arrays hold them at the start. *)
Definition jfe_frame (m0 m1 t0 t1 : nat) (seedNegative : Z)
    (steps : list Q) (thickness : Q) (inside : Z) : list Call :=
  [mkCall (Some m0) ClearPass;
   mkCall (Some m0) (ScenePass (Some maskMaterial));
   mkCall (Some m1) (ExpandPass (Some m0));
   mkCall (Some m0) (ExpandPass (Some m1));
   mkCall (Some m1) (ExpandPass (Some m0));
   mkCall (Some m0) (ExpandPass (Some m1));
   mkCall (Some t0) (SeedPass seedNegative);
   mkCall (Some t0) (ScenePass (Some seedMaterial))]
  ++ pingpong_calls m0 t0 t1 steps
  ++ [mkCall None
        (EffectPass (Some (pingpong_front t0 t1 steps)) thickness inside)].

End FrameLog.

Module Images.

(** Two textures with the same size and the same texels. *)
Definition same_image (s s' : sampler2D) : Prop :=
  tex_width s = tex_width s' /\ tex_height s = tex_height s' /\
  forall x y, texel s x y = texel s' x y.

End Images.

(** ** The scene catalogue ([scene-data.js]) *)

From Stdlib Require Import Permutation.
From Stdlib Require String Ascii DecimalString.

Module SceneData.

(** *** 32-bit integer operators of JavaScript *)

(** [x >>> 0]: the unsigned 32-bit integer congruent to [x]. *)
Definition uint32 (x : Z) : Z := (x mod 2 ^ 32)%Z.

(** [x | 0]: the signed one. *)
Definition int32 (x : Z) : Z := Layers.int32 x.

(** [x ^ y], [x | y], [x >>> n] (for [0 <= n < 32]) and
    [Math.imul(x, y)]. *)
Definition xor (x y : Z) : Z := int32 (Z.lxor (int32 x) (int32 y)).
Definition or (x y : Z) : Z := int32 (Z.lor (int32 x) (int32 y)).
Definition ushr (x n : Z) : Z := Z.shiftr (uint32 x) n.
Definition imul (x y : Z) : Z := int32 (int32 x * int32 y).

(** One call of the generator that [mulberry32(a)] returns: the number
    it yields and the new value of its captured variable [a] (a plain
    number, so [a += 0x6D2B79F5] does not wrap). *)
Definition mulberry32 (a : Z) : Q * Z :=
  let a := (a + 0x6D2B79F5)%Z in
  let t := a in
  let t := imul (xor t (ushr t 15)) (or t 1) in
  let t := xor t (t + imul (xor t (ushr t 7)) (or t 61)) in
  (inject_Z (uint32 (xor t (ushr t 14))) / 4294967296, a).

(** [[l[m], l[i]] = [l[i], l[m]]] for two indices inside the array
    (outside it JavaScript would grow the array; the loop below never
    gets there, and the list is then left as it is). *)
Fixpoint set_nth {A} (l : list A) (k : nat) (v : A) : list A :=
  match l, k with
  | [], _ => []
  | _ :: rest, O => v :: rest
  | a :: rest, S k' => a :: set_nth rest k' v
  end.

Definition swap {A} (l : list A) (m i : nat) : list A :=
  match nth_error l i, nth_error l m with
  | Some vi, Some vm => set_nth (set_nth l m vi) i vm
  | _, _ => l
  end.

(** The index drawn when [m] elements remain:
    [Math.floor(mulberry32(seed)() * m)]. *)
Definition draw_index (seed : Z) (m : nat) : nat :=
  Z.to_nat (Qfloor (fst (mulberry32 seed) * inject_Z (Z.of_nat m))).

(** [while (m) { const i = Math.floor(mulberry32(seed)() * m--);
     [result[m], result[i]] = [result[i], result[m]]; seed++ }]. *)
Fixpoint shuffle_loop {A} (m : nat) (result : list A) (seed : Z) : list A :=
  match m with
  | O => result
  | S m' => shuffle_loop m' (swap result m' (draw_index seed m)) (seed + 1)
  end.

(** "Seeded random shuffle for consistent ordering". *)
Definition seededShuffle {A} (array : list A) (seed : Z) : list A :=
  shuffle_loop (length array) array seed.

(** *** The catalogue *)

Definition FEATURED_ROOM_IDS : list Z :=
  [114; 164; 178; 132; 158; 33; 51; 134]%Z.

Definition FEATURED_HOUSE_IDS : list Z := [190; 208; 196; 201; 98]%Z.

Definition ROOM_IDS : list Z :=
  [4; 7; 13; 19; 20; 32; 33; 36; 41; 45; 51; 61; 68; 72; 77; 81; 85; 88;
   100; 102; 103; 108; 109; 111; 112; 114; 118; 119; 121; 129; 132; 134;
   139; 142; 144; 157; 158; 164; 167; 169; 174; 175; 176; 177; 178; 180;
   183; 184]%Z.

Definition HOUSE_IDS : list Z :=
  [47; 49; 98; 99; 185; 186; 187; 188; 190; 191; 192; 193; 194; 195; 196;
   197; 198; 199; 200; 201; 202; 203; 204; 205; 206; 207; 208; 209]%Z.

(** [ids.includes(id)]. *)
Definition includes (ids : list Z) (id : Z) : bool := existsb (Z.eqb id) ids.

Import String.

(** The decimal text of an identifier in a template literal. *)
Definition decimal (id : Z) : String.string :=
  DecimalString.NilZero.string_of_int (Z.to_int id).

Section WithPrompts.

(** The table [PROMPTS]; [PROMPTS[id]] is [undefined] for an identifier
    without an entry. *)
Variable Prompt : Type.
Variable PROMPTS : Z -> option Prompt.

Record SceneInfo := mkSceneInfo
  { id : Z; prompt : option Prompt; path : String.string; featured : bool }.

Definition room_entry (featured : bool) (id : Z) : SceneInfo :=
  mkSceneInfo id (PROMPTS id)
    (String.append "room/scene_"%string
       (String.append (decimal id) "/scene_named.glb"%string))
    featured.

Definition house_entry (featured : bool) (id : Z) : SceneInfo :=
  mkSceneInfo id (PROMPTS id)
    (String.append "house/scene_"%string
       (String.append (decimal id) "/scene_named.glb"%string))
    featured.

(** "Build room scenes array: featured first, then randomized
    remaining". *)
Definition buildRoomScenes : list SceneInfo :=
  let scenes :=
    flat_map (fun id => if includes ROOM_IDS id
                        then [room_entry true id] else [])
             FEATURED_ROOM_IDS in
  let remainingIds :=
    filter (fun id => negb (includes FEATURED_ROOM_IDS id)) ROOM_IDS in
  let shuffled := seededShuffle remainingIds 42 in
  scenes ++ map (room_entry false) shuffled.

(** "Build house scenes array: featured first, then randomized
    remaining"; the remaining ones keep their order. *)
Definition buildHouseScenes : list SceneInfo :=
  let scenes :=
    flat_map (fun id => if includes HOUSE_IDS id
                        then [house_entry true id] else [])
             FEATURED_HOUSE_IDS in
  let remainingIds :=
    filter (fun id => negb (includes FEATURED_HOUSE_IDS id)) HOUSE_IDS in
  scenes ++ map (house_entry false) remainingIds.

(** [SCENES], and the argument [type] of the two helpers: anything but
    ['rooms'] selects the houses. *)
Inductive SceneType := rooms | other_type.

Definition SCENES (type : SceneType) : list SceneInfo :=
  match type with
  | rooms => buildRoomScenes
  | other_type => buildHouseScenes
  end.

(** "Helper to get a scene by ID". *)
Definition getSceneById (wanted : Z) (type : SceneType) : option SceneInfo :=
  find (fun s => (id s =? wanted)%Z) (SCENES type).

End WithPrompts.

End SceneData.

(** ** JavaScript maps and strings *)

(** A [Map]: its entries in insertion order, each key once. *)
Module JSMap.
Section WithKey.

Variables K V : Type.
Variable eqb : K -> K -> bool.

Definition t := list (K * V).

Fixpoint get (m : t) (k : K) : option V :=
  match m with
  | [] => None
  | (k', v) :: rest => if eqb k k' then Some v else get rest k
  end.

Definition has (m : t) (k : K) : bool :=
  match get m k with Some _ => true | None => false end.

(** [set] replaces the value of a key that is present, where it stands,
    and appends a key that is not. *)
Fixpoint set (m : t) (k : K) (v : V) : t :=
  match m with
  | [] => [(k, v)]
  | (k', v') :: rest =>
      if eqb k k' then (k', v) :: rest else (k', v') :: set rest k v
  end.

Fixpoint delete (m : t) (k : K) : t :=
  match m with
  | [] => []
  | (k', v') :: rest =>
      if eqb k k' then rest else (k', v') :: delete rest k
  end.

Definition size (m : t) : nat := length m.

Definition keys (m : t) : list K := map fst m.

End WithKey.
End JSMap.

(** ** [SceneCache]: the cache of loaded scenes

    [get] is asynchronous in the source; it is read here for calls that
    do not overlap, each running to its end before the next starts. *)
Module SceneCache.
Section WithScenes.

(** The keys are the texts [String(sceneId)]. *)
Variable Key : Type.
Variable key_eqb : Key -> Key -> bool.
(** A loaded scene, and whether it has a [scene] to dispose of. *)
Variable GLTF : Type.
Variable has_scene : GLTF -> bool.

Record Entry := mkEntry { gltf : GLTF; lastAccess : Z }.

Record t := mkCache
  { maxSize : Z;
    cache : list (Key * Entry) }.

(** [constructor(maxSize = 5)]. *)
Definition constructor (opt_maxSize : option Z) : t :=
  mkCache (match opt_maxSize with Some n => n | None => 5%Z end) [].

(** The loop of [evictOldest]: [oldestTime] starts at [Infinity]
    ([None]), [oldestKey] at [null]. *)
Fixpoint oldest (entries : list (Key * Entry)) (oldestKey : option Key)
    (oldestTime : option Z) : option Key :=
  match entries with
  | [] => oldestKey
  | (key, entry) :: rest =>
      if match oldestTime with
         | None => true
         | Some time => (lastAccess entry <? time)%Z
         end
      then oldest rest (Some key) (Some (lastAccess entry))
      else oldest rest oldestKey oldestTime
  end.

(** "Evict the least recently used entry"; yields the scenes handed to
    [disposeScene]. *)
Definition evictOldest (c : t) : t * list GLTF :=
  match oldest (cache c) None None with
  | Some oldestKey =>
      let disposed :=
        match JSMap.get Key Entry key_eqb (cache c) oldestKey with
        | Some entry => if has_scene (gltf entry) then [gltf entry] else []
        | None => []
        end in
      (mkCache (maxSize c)
         (JSMap.delete Key Entry key_eqb (cache c) oldestKey), disposed)
  | None => (c, [])
  end.

(** What a call of [get] did: the scene it resolved to ([None] when
    [loadFn] failed), whether it called [loadFn], and the scenes it
    disposed of. *)
Record Got := mkGot
  { value : option GLTF; loaded : bool; disposed : list GLTF }.

(** [get(sceneId, loadFn)], with [Date.now()] reading [now]. *)
Definition get (c : t) (key : Key) (loadFn : unit -> option GLTF)
    (now : Z) : Got * t :=
  match JSMap.get Key Entry key_eqb (cache c) key with
  | Some entry =>
      (mkGot (Some (gltf entry)) false [],
       mkCache (maxSize c)
         (JSMap.set Key Entry key_eqb (cache c) key
            (mkEntry (gltf entry) now)))
  | None =>
      match loadFn tt with
      | None => (mkGot None true [], c)
      | Some g =>
          let (c1, gone) :=
            if (maxSize c <=? Z.of_nat (length (cache c)))%Z
            then evictOldest c else (c, []) in
          (mkGot (Some g) true gone,
           mkCache (maxSize c1)
             (JSMap.set Key Entry key_eqb (cache c1) key (mkEntry g now)))
      end
  end.

Definition has (c : t) (key : Key) : bool :=
  JSMap.has Key Entry key_eqb (cache c) key.

(** [clear()]: every scene is disposed of and the map emptied. *)
Definition clear (c : t) : t * list GLTF :=
  (mkCache (maxSize c) [],
   flat_map (fun e => if has_scene (gltf (snd e)) then [gltf (snd e)] else [])
            (cache c)).

Definition size (c : t) : nat := length (cache c).

End WithScenes.
End SceneCache.

(** ** Object names: [MetadataManager] and [ObjectPicker] *)

(** The two rewritings of an object name that both classes try.
    [strip_suffix] is [name.replace(/\.\d+$/, '')]: the match starts
    at the first dot that is followed by digits only, at least one,
    up to the end of the name.  [dotless] is [name.slice(0, -3)].
    Names are texts of 8-bit characters here, as the ASCII names of
    the scenes are. *)
Module Names.
Import String Ascii.

Definition is_digit (c : Ascii.ascii) : bool :=
  ((48 <=? Ascii.nat_of_ascii c) && (Ascii.nat_of_ascii c <=? 57))%nat.

Fixpoint all_digits (s : string) : bool :=
  match s with
  | EmptyString => true
  | String c rest => is_digit c && all_digits rest
  end.

Definition digits (s : string) : bool :=
  match s with
  | EmptyString => false
  | String _ _ => all_digits s
  end.

Fixpoint strip_suffix (s : string) : string :=
  match s with
  | EmptyString => EmptyString
  | String c rest =>
      if Ascii.eqb c "."%char && digits rest then EmptyString
      else String c (strip_suffix rest)
  end.

Definition dotless (s : string) : string :=
  substring 0 (length s - 3) s.

(** [name.length > 3]. *)
Definition long (s : string) : bool := (3 <? length s)%nat.

End Names.

Module MetadataManager.
Import String.
Section WithObjects.

(** An entry of the [objects] array of the metadata file, with its
    [object_id] ([None] when the entry has none, or an empty one). *)
Variable Obj : Type.
Variable object_id : Obj -> option string.

Definition ObjectMap := JSMap.t string Obj.

Local Abbreviation map_get := (JSMap.get string Obj String.eqb).
Local Abbreviation map_has := (JSMap.has string Obj String.eqb).
Local Abbreviation map_set := (JSMap.set string Obj String.eqb).

(** The body of the loop of [_buildObjectMap]. *)
Definition enter (objectMap : ObjectMap) (obj : Obj) : ObjectMap :=
  match object_id obj with
  | Some id => map_set objectMap id obj
  | None => objectMap
  end.

(** [_buildObjectMap()], from the [objects] of the metadata ([None]
    when there is no metadata, or none with objects). *)
Definition _buildObjectMap (objects : option (list Obj)) : ObjectMap :=
  match objects with
  | None => []
  | Some objs => fold_left enter objs []
  end.

(** Whether an entry of [objects] carries the id. *)
Definition has_id (id : string) (obj : Obj) : bool :=
  match object_id obj with
  | Some id' => String.eqb id' id
  | None => false
  end.

(** [getObjectMetadata(objectId)]; [None] is [null]. *)
Definition getObjectMetadata (objectMap : ObjectMap) (objectId : string)
    : option Obj :=
  match map_get objectMap objectId with
  | Some meta => Some meta
  | None =>
      let stripped := Names.strip_suffix objectId in
      if negb (String.eqb stripped objectId) then map_get objectMap stripped
      else if Names.long objectId
           then map_get objectMap (Names.dotless objectId)
           else None
  end.

(** [getObjectIds()], in the order of the map. *)
Definition getObjectIds (objectMap : ObjectMap) : list string :=
  JSMap.keys string Obj objectMap.

(** [_resolveObjectId(objectId)]. *)
Definition _resolveObjectId (objectMap : ObjectMap) (objectId : string)
    : string :=
  if map_has objectMap objectId then objectId
  else
    let stripped := Names.strip_suffix objectId in
    if negb (String.eqb stripped objectId) && map_has objectMap stripped
    then stripped
    else if Names.long objectId && map_has objectMap (Names.dotless objectId)
         then Names.dotless objectId
         else objectId.

(** [getCollisionPath(objectId)]. *)
Definition getCollisionPath (basePath : string)
    (currentScenePath : option string) (objectMap : ObjectMap)
    (objectId : string) : option string :=
  match currentScenePath with
  | None => None
  | Some scenePath =>
      Some (basePath ++ scenePath ++ "/collision/"
              ++ _resolveObjectId objectMap objectId ++ ".glb")%string
  end.

End WithObjects.
End MetadataManager.

Module ObjectPicker.
Import String.

(** What the picker reads of an [Object3D]. *)
Record Object3D := mkObject3D
  { name : string;
    is_scene : bool;          (* [type === 'Scene'] *)
    visible : bool;
    notPickable : bool;       (* [userData.notPickable] *)
    selectable : bool }.      (* [userData.selectable] *)

(** An object together with its ancestors, the parent first: all the
    picker follows of the scene graph is the [parent] link. *)
Definition Chain := (Object3D * list Object3D)%type.

(** [setKnownObjectIds(idSet)]: an empty set counts as none. *)
Definition setKnownObjectIds (idSet : option (list string))
    : option (list string) :=
  match idSet with
  | Some (id :: ids) => Some (id :: ids)
  | _ => None
  end.

Definition set_has (ids : list string) (s : string) : bool :=
  existsb (String.eqb s) ids.

(** The three tests of the first loop of [getSelectableRoot] on the
    name of [current]. *)
Definition known (ids : list string) (name : string) : bool :=
  negb (String.eqb name "") &&
  (set_has ids name
   || (negb (String.eqb (Names.strip_suffix name) name)
       && set_has ids (Names.strip_suffix name))
   || (Names.long name && set_has ids (Names.dotless name))).

(** The first loop: up from [current] until a known name is met, or
    the parent is missing or is the scene. *)
Fixpoint known_root (ids : list string) (current : Object3D)
    (ancestors : list Object3D) : option Object3D :=
  if known ids (name current) then Some current
  else match ancestors with
       | [] => None
       | parent :: above =>
           if is_scene parent then None else known_root ids parent above
       end.

(** [getDepthFromRoot(object)], from the ancestors of [object]. *)
Fixpoint getDepthFromRoot (ancestors : list Object3D) : Z :=
  match ancestors with
  | [] => 0
  | parent :: above =>
      if is_scene parent then 1 else 1 + getDepthFromRoot above
  end.

(** The ancestors below the scene: those before the first that is a
    scene. *)
Fixpoint below_scene (ancestors : list Object3D) : list Object3D :=
  match ancestors with
  | [] => []
  | parent :: above =>
      if is_scene parent then [] else parent :: below_scene above
  end.

Section WithLowerCase.

(** [String.prototype.toLowerCase]. *)
Variable toLowerCase : string -> string.

Definition skipNames : list string := ["scene"; "root"; "gltf"; "model"; ""]%string.

Definition skipped (lowerName : string) : bool :=
  existsb (fun skip => String.eqb lowerName skip || prefix "scene" lowerName)
          skipNames.

(** The second loop; [is_object] tells whether [current] is still the
    object that was hit. *)
Fixpoint heuristic_root (object : Object3D) (is_object : bool)
    (current : Object3D) (ancestors : list Object3D) : Object3D :=
  match ancestors with
  | [] => object
  | parent :: above =>
      if is_scene parent then current
      else if negb is_object && negb (String.eqb (name current) "")
              && negb (skipped (toLowerCase (name current)))
      then current
      else if selectable current then current
      else if (getDepthFromRoot ancestors <=? 2)%Z then current
      else heuristic_root object false parent above
  end.

(** [getSelectableRoot(object)]. *)
Definition getSelectableRoot (knownObjectIds : option (list string))
    (object : Chain) : Object3D :=
  match match knownObjectIds with
        | Some ids => known_root ids (fst object) (snd object)
        | None => None
        end with
  | Some current => current
  | None => heuristic_root (fst object) true (fst object) (snd object)
  end.

(** An intersection of the ray: the object hit, with its ancestors. *)
Record Intersection (Point : Type) := mkIntersection
  { hit : Chain; point : Point; instanceId : option Z }.

Record Picked (Point : Type) := mkPicked
  { picked_object : Object3D;
    picked_point : Point;
    picked_instanceId : option Z;
    rawObject : Object3D }.

(** [pick(event, scene)], from the intersections that the raycaster
    found, the nearest first. *)
Fixpoint pick {Point} (knownObjectIds : option (list string))
    (intersects : list (Intersection Point)) : option (Picked Point) :=
  match intersects with
  | [] => None
  | intersect :: rest =>
      let object := fst (hit Point intersect) in
      if negb (visible object) then pick knownObjectIds rest
      else if notPickable object then pick knownObjectIds rest
      else
        let selectableObject :=
          getSelectableRoot knownObjectIds (hit Point intersect) in
        if negb (visible selectableObject) then pick knownObjectIds rest
        else Some (mkPicked Point selectableObject (point Point intersect)
                     (instanceId Point intersect) object)
  end.

(** The three conditions under which [pick] does not skip an
    intersection. *)
Definition pickable {Point} (knownObjectIds : option (list string))
    (intersect : Intersection Point) : bool :=
  visible (fst (hit Point intersect))
  && negb (notPickable (fst (hit Point intersect)))
  && visible (getSelectableRoot knownObjectIds (hit Point intersect)).

End WithLowerCase.

(** [updatePointer(event)]: the pointer for an event at
    [(clientX, clientY)] over an element with the bounding rectangle
    [left], [top], [width], [height]. *)
Definition updatePointer (left top width height clientX clientY : Q)
    : Q * Q :=
  (((clientX - left) / width) * 2 - 1,
   - ((clientY - top) / height) * 2 + 1).

End ObjectPicker.

(** A small scene for the examples: a mesh under the group of a
    duplicated toilet, whose name lost the dot of its suffix, and the
    same mesh under a hidden group. *)
Module NameExamples.
Import String.

Definition mesh := ObjectPicker.mkObject3D "Mesh_12" false true false false.
Definition group :=
  ObjectPicker.mkObject3D "toilet_0001" false true false false.
Definition hidden_group :=
  ObjectPicker.mkObject3D "sink_2" false false false false.
Definition model := ObjectPicker.mkObject3D "root" false true false false.
Definition scene := ObjectPicker.mkObject3D "" true true false false.

Definition objectMap : JSMap.t string nat :=
  [("toilet_0"%string, 1%nat); ("sink_2"%string, 2%nat)].

End NameExamples.

(** ** [SelectionEffect]: highlighting by emissive glow

    Materials are shared objects: they live in a store, and a mesh
    holds the places of its materials in it. *)
Module SelectionEffect.

(** What the effect reads and writes of a material: its [emissive]
    colour ([None] where the material has none) and its
    [emissiveIntensity] ([None] where that is undefined). *)
Record Material := mkMaterial
  { emissive : option Three.Color;
    emissiveIntensity : option Q }.

(** A mesh with its [uuid] and its materials (one, or an array). *)
Record Mesh := mkMesh { uuid : nat; material : list nat }.

(** An object, as [traverse] sees it: the meshes below it that have a
    material, in the order of the visit. *)
Definition Object := list Mesh.

(** The key [`${child.uuid}_${index}`] of a material slot. *)
Definition Key := (nat * nat)%type.
Definition key_eqb (a b : Key) : bool :=
  Nat.eqb (fst a) (fst b) && Nat.eqb (snd a) (snd b).

Record Data := mkData
  { mesh : Mesh;
    index : nat;
    data_emissive : option Three.Color;
    data_emissiveIntensity : Q }.

Record t := mkEffect
  { color : Three.Color;
    glowIntensity : Q;
    selectedObject : option Object;
    originalMaterials : JSMap.t Key Data;
    boxHelper : option nat }.

(** The material store, and the helpers that are children of the
    scene. *)
Record World := mkWorld
  { materials : nat -> Material;
    scene : list nat }.

(** [x || 0] of a number, or of [undefined]. *)
Definition or_zero (x : option Q) : Q :=
  match x with Some v => v | None => 0 end.

(** The material slots of an object in the order of the two nested
    loops: the mesh, the index and the material. *)
Definition slots (object : Object) : list (Mesh * nat * nat) :=
  flat_map (fun child =>
              map (fun im => (child, fst im, snd im))
                  (combine (seq 0 (length (material child)))
                           (material child)))
           object.

(** The body of the inner loop of [setSelection]. *)
Definition highlight (c : Three.Color) (glow : Q)
    (st : JSMap.t Key Data * (nat -> Material)) (slot : Mesh * nat * nat)
    : JSMap.t Key Data * (nat -> Material) :=
  let '(child, index, mat) := slot in
  let '(originalMaterials, materials) := st in
  (JSMap.set Key Data key_eqb originalMaterials (uuid child, index)
     (mkData child index (emissive (materials mat))
        (or_zero (emissiveIntensity (materials mat)))),
   match emissive (materials mat) with
   | Some _ => Three.upd materials mat (mkMaterial (Some c) (Some glow))
   | None => materials
   end).

(** The body of the loop of [clearSelection]; [None] is the
    [TypeError] of [mat.emissive.copy] on a material that has no
    emissive colour. *)
Definition restore (materials : option (nat -> Material))
    (entry : Key * Data) : option (nat -> Material) :=
  match materials with
  | None => None
  | Some materials =>
      let data := snd entry in
      match nth_error (material (mesh data)) (index data),
            data_emissive data with
      | Some mat, Some emissive0 =>
          match emissive (materials mat) with
          | Some _ =>
              Some (Three.upd materials mat
                      (mkMaterial (Some emissive0)
                         (Some (data_emissiveIntensity data))))
          | None => None
          end
      | _, _ => Some materials
      end
  end.

(** [clearSelection()]. *)
Definition clearSelection (s : t) (w : World) : option (t * World) :=
  match fold_left restore (originalMaterials s) (Some (materials w)) with
  | None => None
  | Some materials' =>
      Some (mkEffect (color s) (glowIntensity s) None [] None,
            mkWorld materials'
              (match boxHelper s with
               | Some helper =>
                   filter (fun child => negb (Nat.eqb child helper)) (scene w)
               | None => scene w
               end))
  end.

(** [setSelection(object)]; [helper] is the [BoxHelper] it creates. *)
Definition setSelection (s : t) (w : World) (object : option Object)
    (helper : nat) : option (t * World) :=
  match clearSelection s w with
  | None => None
  | Some (s, w) =>
      match object with
      | None => Some (s, w)
      | Some object =>
          let '(originalMaterials', materials') :=
            fold_left (highlight (color s) (glowIntensity s)) (slots object)
                      (originalMaterials s, materials w) in
          Some (mkEffect (color s) (glowIntensity s) (Some object)
                  originalMaterials' (Some helper),
                mkWorld materials' (scene w ++ [helper]))
      end
  end.

(** The body of the inner loop of [setColor]. *)
Definition recolor (c : Three.Color) (size : nat)
    (materials : nat -> Material) (slot : Mesh * nat * nat)
    : nat -> Material :=
  let mat := snd slot in
  match emissive (materials mat) with
  | Some _ =>
      if (0 <? size)%nat
      then Three.upd materials mat
             (mkMaterial (Some c) (emissiveIntensity (materials mat)))
      else materials
  | None => materials
  end.

(** [setColor(color)]. *)
Definition setColor (s : t) (w : World) (c : Three.Color) : t * World :=
  (mkEffect c (glowIntensity s) (selectedObject s) (originalMaterials s)
     (boxHelper s),
   match selectedObject s with
   | Some object =>
       mkWorld (fold_left (recolor c (length (originalMaterials s)))
                          (slots object) (materials w))
               (scene w)
   | None => w
   end).

End SelectionEffect.

(** A chair of two meshes over three materials, one of them without
    an emissive colour, one with an undefined intensity. *)
Module SelectionExamples.

Definition pink : Three.Color := Three.mkColor 0.9 0.1 0.4.
Definition teal : Three.Color := Three.mkColor 0 0.5 0.5.
Definition black : Three.Color := Three.mkColor 0 0 0.

Definition store (mat : nat) : SelectionEffect.Material :=
  match mat with
  | O => SelectionEffect.mkMaterial (Some black) (Some 1)
  | S O => SelectionEffect.mkMaterial None None
  | _ => SelectionEffect.mkMaterial (Some black) None
  end.

Definition effect : SelectionEffect.t :=
  SelectionEffect.mkEffect pink 0.3 None [] None.

Definition world : SelectionEffect.World :=
  SelectionEffect.mkWorld store [].

Definition chair : SelectionEffect.Object :=
  [SelectionEffect.mkMesh 1 [0; 1]%nat; SelectionEffect.mkMesh 2 [2%nat]].

End SelectionExamples.

(** ** [SceneSmithViewer]: selecting, hiding and showing objects

    The part of the viewer that [selectObject], [clearSelection],
    [hideSelected] and [showAll] read and write: the selected object,
    the set of hidden objects, the [visible] flag of the objects of
    the scene, and the calls of the option callbacks (taken to be
    installed).  The outline and the isolated viewer, which these
    methods also update, work on layers and on a copy of the object
    and leave the flags alone. *)
Module SceneSmithViewer.

Inductive Event :=
| onSelect (object : nat)
| onClearSelection
| onHide (count : nat)
| onShowAll.

Record t := mkViewer
  { selectedObject : option nat;
    hiddenObjects : list nat;       (* a [Set], in insertion order *)
    visible : nat -> bool;
    events : list Event }.



(** [clearSelection()]. *)
Definition clearSelection (v : t) : t :=
  mkViewer None (hiddenObjects v) (visible v)
    (events v ++ [onClearSelection]).




(** The calls a user of the viewer can make, and a run of them. *)
Inductive Call :=
| call_selectObject (object : nat)
| call_clearSelection
| call_hideSelected
| call_showAll.



End SceneSmithViewer.

(** ** [IsolatedViewer]: moving the joints of the object on show

    The arithmetic of [Vector3] is written out; the operations of
    three.js on quaternions and the normalisation of a vector (a
    square root) are parameters. *)
Module IsolatedViewer.
Import String.

Definition v_add (a b : Three.Vector3) : Three.Vector3 :=
  Three.mkVector3 (Three.vx a + Three.vx b) (Three.vy a + Three.vy b)
                  (Three.vz a + Three.vz b).
Definition v_sub (a b : Three.Vector3) : Three.Vector3 :=
  Three.mkVector3 (Three.vx a - Three.vx b) (Three.vy a - Three.vy b)
                  (Three.vz a - Three.vz b).

Section WithQuaternions.

Variable Quaternion : Type.
(** [Vector3.normalize], [Quaternion.setFromEuler] of an [Euler] in
    the order ['XYZ'], [Quaternion.setFromAxisAngle],
    [Vector3.applyQuaternion] and [Quaternion.premultiply]. *)
Variable normalize : Three.Vector3 -> Three.Vector3.
Variable setFromEuler : Q -> Q -> Q -> Quaternion.
Variable setFromAxisAngle : Three.Vector3 -> Q -> Quaternion.
Variable applyQuaternion : Three.Vector3 -> Quaternion -> Three.Vector3.
Variable premultiply : Quaternion -> Quaternion -> Quaternion.

Record Transform := mkTransform
  { position : Three.Vector3; quaternion : Quaternion }.

Inductive JointType := revolute | prismatic | other_joint.

(** The metadata of a joint; [pose] has three entries, or six and
    more, of which the fourth to sixth are roll, pitch and yaw. *)
Record JointData := mkJointData
  { type : JointType;
    child_link : string;
    axis : Q * Q * Q;
    pose : (Q * Q * Q) * option (Q * Q * Q) }.

(** The viewer: the name of the current object with the nodes below
    it in the order of [traverse], the two caches, and the names and
    transforms of the nodes. *)
Record t := mkIsolated
  { currentObject : option (string * list nat);
    originalTransforms : JSMap.t string Transform;
    _nodeCache : JSMap.t string (option (list nat));
    names : nat -> string;
    nodes : nat -> Transform }.

(** The test of [_findChildNodes] on the name of a node. *)
Definition matches (sanitizedPrefix childName name : string) : bool :=
  if String.eqb name sanitizedPrefix || String.eqb name childName then true
  else (length sanitizedPrefix <? length name)%nat
       && prefix sanitizedPrefix name
       && Names.digits (substring (length sanitizedPrefix)
                          (length name - length sanitizedPrefix) name).

(** [_findChildNodes(childName)]; [None] is [null]. *)
Definition _findChildNodes (s : t) (childName : string)
    : option (list nat) * t :=
  match JSMap.get string (option (list nat)) String.eqb
          (_nodeCache s) childName with
  | Some cached => (cached, s)
  | None =>
      match currentObject s with
      | None => (None, s)
      | Some (objectId, below) =>
          let sanitizedPrefix := (objectId ++ childName)%string in
          let matched :=
            filter (fun node =>
                      matches sanitizedPrefix childName (names s node))
                   below in
          let result :=
            match matched with [] => None | _ :: _ => Some matched end in
          (result,
           mkIsolated (currentObject s) (originalTransforms s)
             (JSMap.set string (option (list nat)) String.eqb
                (_nodeCache s) childName result)
             (names s) (nodes s))
      end
  end.

(** The axis of the joint in the frame of the viewer. *)
Definition joint_axis (jointData : JointData) : Three.Vector3 :=
  let '(a0, a1, a2) := axis jointData in
  let axis := normalize (Three.mkVector3 a0 a2 (- a1)) in
  match snd (pose jointData) with
  | Some (roll, pitch, yaw) =>
      if negb (Qeq_bool roll 0) || negb (Qeq_bool pitch 0)
         || negb (Qeq_bool yaw 0)
      then normalize (applyQuaternion axis (setFromEuler roll yaw (- pitch)))
      else axis
  | None => axis
  end.

Definition joint_pivot (jointData : JointData) : Three.Vector3 :=
  let '(p0, p1, p2) := fst (pose jointData) in
  Three.mkVector3 p0 p2 (- p1).

(** Where a node goes whose original transform is [original]; a joint
    of another type leaves it where it is, at [current]. *)
Definition moved (jointData : JointData) (value : Q)
    (original current : Transform) : Transform :=
  match type jointData with
  | revolute =>
      let rotQuat := setFromAxisAngle (joint_axis jointData) value in
      let offset :=
        applyQuaternion (v_sub (position original) (joint_pivot jointData))
                        rotQuat in
      mkTransform (v_add (joint_pivot jointData) offset)
                  (premultiply (quaternion original) rotQuat)
  | prismatic =>
      let translation := Three.multiplyScalar (joint_axis jointData) value in
      mkTransform (v_add (position original) translation)
                  (quaternion original)
  | other_joint => current
  end.

(** The body of the loop of [applyJointTransform]. *)
Definition move_node (jointData : JointData) (value : Q) (names : nat -> string)
    (st : JSMap.t string Transform * (nat -> Transform)) (childNode : nat)
    : JSMap.t string Transform * (nat -> Transform) :=
  let '(originalTransforms, nodes) := st in
  let cacheKey := names childNode in
  let originalTransforms :=
    if JSMap.has string Transform String.eqb originalTransforms cacheKey
    then originalTransforms
    else JSMap.set string Transform String.eqb originalTransforms cacheKey
           (nodes childNode) in
  match JSMap.get string Transform String.eqb originalTransforms cacheKey with
  | Some original =>
      (originalTransforms,
       Three.upd nodes childNode
         (moved jointData value original (nodes childNode)))
  | None => (originalTransforms, nodes)
  end.

(** [applyJointTransform(jointData, value)]. *)
Definition applyJointTransform (s : t) (jointData : JointData) (value : Q)
    : t :=
  match currentObject s with
  | None => s
  | Some _ =>
      match _findChildNodes s (child_link jointData) with
      | (None, s) => s
      | (Some childNodes, s) =>
          let '(originalTransforms', nodes') :=
            fold_left (move_node jointData value (names s)) childNodes
                      (originalTransforms s, nodes s) in
          mkIsolated (currentObject s) originalTransforms' (_nodeCache s)
            (names s) nodes'
      end
  end.

End WithQuaternions.
End IsolatedViewer.

(** A cabinet whose door is made of two nodes, with a sliding joint. *)
Module JointExamples.
Import String.

Definition node_names (node : nat) : string :=
  match node with
  | O => "cabinet_1E_door_1"
  | S O => "cabinet_1E_door_1001"
  | _ => "cabinet_1E_body"
  end.

Definition cabinet_id : string := "cabinet_1".

Definition cabinet : IsolatedViewer.t unit :=
  IsolatedViewer.mkIsolated unit (Some (cabinet_id, [0; 1; 2]%nat))
    [] [] node_names
    (fun _ => IsolatedViewer.mkTransform unit (Three.mkVector3 0 0 0) tt).

Definition slide : IsolatedViewer.JointData :=
  IsolatedViewer.mkJointData IsolatedViewer.prismatic "E_door_1"
    (1, 0, 0) ((0, 0, 0), None).

End JointExamples.

(** * Properties *)

(** ** Arithmetic of the shader builtins *)

Lemma Qltb_lt (x y : Q) : Qltb x y = true <-> x < y.
Proof.
  unfold Qltb. rewrite negb_true_iff. split.
  - intros H. apply Qnot_le_lt. intros Hle.
    apply Qle_bool_iff in Hle. congruence.
  - intros H. destruct (Qle_bool y x) eqn:E; [| reflexivity].
    apply Qle_bool_iff in E. exfalso. apply (Qlt_not_le _ _ H E).
Qed.

Lemma Qltb_ge (x y : Q) : Qltb x y = false <-> y <= x.
Proof.
  unfold Qltb. rewrite negb_false_iff. apply Qle_bool_iff.
Qed.

Lemma Qneqb_neq (x y : Q) : Qneqb x y = true <-> ~ x == y.
Proof.
  unfold Qneqb. rewrite negb_true_iff. split.
  - intros H E. apply Qeq_bool_iff in E. congruence.
  - intros H. destruct (Qeq_bool x y) eqn:E; [| reflexivity].
    apply Qeq_bool_iff in E. contradiction.
Qed.

Lemma Qneqb_eq (x y : Q) : Qneqb x y = false <-> x == y.
Proof.
  unfold Qneqb. rewrite negb_false_iff. apply Qeq_bool_iff.
Qed.

Lemma clamp_range (x : Q) : 0 <= clamp x 0 1 <= 1.
Proof.
  unfold clamp. split.
  - apply Q.min_glb; [apply Q.le_max_r | lra].
  - apply Q.le_min_r.
Qed.

Lemma clamp_id (x : Q) : 0 <= x <= 1 -> clamp x 0 1 == x.
Proof.
  intros [H0 H1]. unfold clamp.
  rewrite (Q.max_l x 0) by exact H0. apply Q.min_l. exact H1.
Qed.

Lemma clamp_low (x : Q) : x <= 0 -> clamp x 0 1 == 0.
Proof.
  intros H. unfold clamp. rewrite (Q.max_r x 0) by exact H.
  apply Q.min_l. lra.
Qed.

Lemma clamp_high (x : Q) : 1 <= x -> clamp x 0 1 == 1.
Proof.
  intros H. unfold clamp. rewrite (Q.max_l x 0) by lra.
  apply Q.min_r. exact H.
Qed.

Lemma hermite_range (t : Q) : 0 <= t <= 1 -> 0 <= t * t * (3 - 2 * t) <= 1.
Proof.
  intros [H0 H1]. split.
  - apply Qmult_le_0_compat; [apply Qmult_le_0_compat; assumption | lra].
  - assert (E : 1 - t * t * (3 - 2 * t) == (1 - t) * (1 - t) * (1 + 2 * t))
      by ring.
    assert (H : 0 <= (1 - t) * (1 - t) * (1 + 2 * t)).
    { apply Qmult_le_0_compat; [apply Qmult_le_0_compat |]; lra. }
    rewrite <- E in H. lra.
Qed.

Lemma smoothstep_range (e0 e1 x : Q) : 0 <= smoothstep e0 e1 x <= 1.
Proof.
  unfold smoothstep. apply hermite_range. apply clamp_range.
Qed.

#[global] Instance clamp_Proper :
  Proper (Qeq ==> Qeq ==> Qeq ==> Qeq) clamp.
Proof.
  intros x x' Hx lo lo' Hlo hi hi' Hhi. unfold clamp.
  rewrite Hx, Hlo, Hhi. reflexivity.
Qed.

#[global] Instance smoothstep_Proper :
  Proper (Qeq ==> Qeq ==> Qeq ==> Qeq) smoothstep.
Proof.
  intros a1 a2 Ha b1 b2 Hb c1 c2 Hc. unfold smoothstep.
  rewrite Ha, Hb, Hc. reflexivity.
Qed.

(** The ramp that falls from 1 to 0 across [[hi - 1, hi]] ... *)
Lemma smoothstep_falling (hi x : Q) :
  (x <= hi - 1 -> smoothstep hi (hi - 1) x == 1) /\
  (hi <= x -> smoothstep hi (hi - 1) x == 0).
Proof.
  assert (D : (x - hi) / (hi - 1 - hi) == hi - x) by (field; lra).
  unfold smoothstep. rewrite D. split; intros H.
  - rewrite clamp_high by lra. ring.
  - rewrite clamp_low by lra. ring.
Qed.

(** ... and the ramp that rises from 0 to 1 across [[lo, lo + 1]]. *)
Lemma smoothstep_rising (lo x : Q) :
  (lo + 1 <= x -> smoothstep lo (lo + 1) x == 1) /\
  (x <= lo -> smoothstep lo (lo + 1) x == 0).
Proof.
  assert (D : (x - lo) / (lo + 1 - lo) == x - lo) by (field; lra).
  unfold smoothstep. rewrite D. split; intros H.
  - rewrite clamp_high by lra. ring.
  - rewrite clamp_low by lra. ring.
Qed.

Lemma outline_val_range (thickness dist : Q) :
  0 <= EffectMaterial.outline_val thickness dist <= 1.
Proof.
  unfold EffectMaterial.outline_val.
  pose proof (smoothstep_range (thickness + 0.5) (thickness - 0.5) dist).
  pose proof (smoothstep_range (- 0.5 - 1.0) (0.5 - 1.0) dist).
  split.
  - apply Qmult_le_0_compat; tauto.
  - setoid_replace 1 with (1 * 1) by ring.
    apply Qmult_le_compat_nonneg; tauto.
Qed.

(** ** The compositor's opacity (EffectMaterial) *)

(** C7, counterexample: with thickness 5 the opacity at signed distance 5
    is one half, not close to 1. *)
Lemma effect_opacity_at_thickness_is_half :
  EffectMaterial.outline_val 5 5 == 1 # 2 /\
  ~ Qabs (EffectMaterial.outline_val 5 5 - 1) <= 1 # 10.
Proof.
  split.
  - vm_compute. reflexivity.
  - intros H. vm_compute in H. apply H. reflexivity.
Qed.

(** C7, as amended: the alpha the compositor writes is the product
    [smoothstep(thickness + 0.5, thickness - 0.5, dist) *
     smoothstep(-1.5, -0.5, dist)] of the signed distance
    [dist = marker * inside] (a fragment is discarded exactly when the
    marker is zero or the product is zero); with thickness 5 the opacity
    at distance 5 is exactly 1/2, it is 1 for every distance between -0.5
    and 4.5, and it is exactly 0 at distance 20. *)
Theorem effect_opacity_ring :
  (forall map thickness inside color vUv,
     let size := textureSize map in
     let s := rgb (texelFetch map
                (to_int (fst vUv * inject_Z (fst size)),
                 to_int (snd vUv * inject_Z (snd size)))) in
     let dist := v3z s * inject_Z inside in
     let product := smoothstep (thickness + 0.5) (thickness - 0.5) dist *
                    smoothstep (-1.5) (-0.5) dist in
     match EffectMaterial.fragmentShader map thickness inside color vUv with
     | Some c => a c == product /\ ~ v3z s == 0 /\ 0 < product
     | None => v3z s == 0 \/ product == 0
     end) /\
  EffectMaterial.outline_val 5 5 == 1 # 2 /\
  EffectMaterial.outline_val 5 20 == 0 /\
  (forall dist, -0.5 <= dist -> dist <= 4.5 ->
     EffectMaterial.outline_val 5 dist == 1).
Proof.
  split; [| split; [| split]].
  - intros map thickness inside color vUv size s dist product.
    unfold EffectMaterial.fragmentShader. fold size. fold s. fold dist.
    assert (Hval : EffectMaterial.outline_val thickness dist == product).
    { unfold EffectMaterial.outline_val, product.
      setoid_replace (- 0.5 - 1.0) with (-1.5) by ring.
      setoid_replace (0.5 - 1.0) with (-0.5) by ring. reflexivity. }
    pose proof (outline_val_range thickness dist) as Hr.
    destruct (Qeq_bool (v3z s) 0) eqn:Ez.
    + left. apply Qeq_bool_iff. exact Ez.
    + assert (Hc : clamp (EffectMaterial.outline_val thickness dist) 0.0 1.0
                   == product).
      { setoid_replace 0.0 with 0 by ring. setoid_replace 1.0 with 1 by ring.
        rewrite clamp_id by exact Hr. exact Hval. }
      destruct (Qle_bool _ 0) eqn:El.
      * right. apply Qle_bool_iff in El. rewrite Hc in El.
        rewrite <- Hval in *. lra.
      * simpl. split; [exact Hc | split].
        -- intros E. apply Qeq_bool_iff in E.
           exact (eq_true_false_abs _ E Ez).
        -- apply Qnot_le_lt. intros Hle.
           assert (Hb : Qle_bool
                     (clamp (EffectMaterial.outline_val thickness dist)
                            0.0 1.0) 0 = true)
             by (apply Qle_bool_iff; rewrite Hc; exact Hle).
           exact (eq_true_false_abs _ Hb El).
  - vm_compute. reflexivity.
  - vm_compute. reflexivity.
  - intros dist Hlo Hhi. unfold EffectMaterial.outline_val.
    setoid_replace (5 - 0.5) with (5 + 0.5 - 1) by ring.
    setoid_replace (0.5 - 1.0) with (- 0.5 - 1.0 + 1) by ring.
    destruct (smoothstep_falling (5 + 0.5) dist) as [F _].
    destruct (smoothstep_rising (- 0.5 - 1.0) dist) as [R _].
    rewrite F by lra. rewrite R by lra. ring.
Qed.

Lemma effect_opacity_ring_witness :
  EffectMaterial.outline_val 5 2 == 1.
Proof.
  apply effect_opacity_ring; vm_compute; discriminate.
Defined.

(** ** The mask-expansion pass (ExpandMaskMaterial) *)

Section Expand.
Import Passes.

Lemma expand_pass_size (s t : sampler2D) :
  tex_width (expand_pass s t) = tex_width t /\
  tex_height (expand_pass s t) = tex_height t.
Proof. split; reflexivity. Qed.

Lemma in_bounds_same_size (m m' : sampler2D) (c : ivec2) :
  tex_width m = tex_width m' -> tex_height m = tex_height m' ->
  in_bounds m c = in_bounds m' c.
Proof. intros Hw Hh. unfold in_bounds. rewrite Hw, Hh. reflexivity. Qed.

(** What one invocation writes: 1 when one of the 8 neighbours of the
    texel, the texel itself excluded, is covered in the source, else 0. *)
Lemma expand_fragment (s : sampler2D) (x y : Z) :
  ExpandMaskMaterial.fragmentShader s x y =
    Some (if existsb (fun o => is_set s (x + fst o) (y + snd o))
                     ExpandMaskMaterial.offsets
          then vec4_splat 1 else vec4_splat 0).
Proof.
  unfold ExpandMaskMaterial.fragmentShader. cbn [fst snd].
  assert (E : forall l,
             existsb (fun o : Z * Z =>
               Qneqb (r (texelFetch s (x + fst o, y + snd o)%Z)) 0) l =
             existsb (fun o => is_set s (x + fst o) (y + snd o)) l).
  { induction l as [| o l IH]; [reflexivity |]. cbn [existsb]. rewrite IH.
    f_equal. unfold texelFetch, is_set.
    destruct (in_bounds s _); reflexivity. }
  rewrite E. destruct (existsb _ _); reflexivity.
Qed.

Lemma expand_pass_texel (s t : sampler2D) (x y : Z) :
  in_bounds t (x, y) = true ->
  texel (expand_pass s t) x y =
    if existsb (fun o => is_set s (x + fst o) (y + snd o))
               ExpandMaskMaterial.offsets
    then vec4_splat 1 else vec4_splat 0.
Proof.
  intros Hb. unfold expand_pass, GL.draw. cbn [texel]. rewrite Hb.
  rewrite expand_fragment. reflexivity.
Qed.

Lemma expand_pass_is_set (s t : sampler2D) (x y : Z) :
  is_set (expand_pass s t) x y =
    in_bounds t (x, y) &&
    existsb (fun o => is_set s (x + fst o) (y + snd o))
            ExpandMaskMaterial.offsets.
Proof.
  unfold is_set at 1.
  rewrite (in_bounds_same_size (expand_pass s t) t) by reflexivity.
  destruct (in_bounds t (x, y)) eqn:Hb; [| reflexivity].
  rewrite expand_pass_texel by exact Hb.
  destruct (existsb _ _); reflexivity.
Qed.

Lemma offsets_opposite (o : ivec2) :
  In o ExpandMaskMaterial.offsets ->
  In (- fst o, - snd o)%Z ExpandMaskMaterial.offsets.
Proof.
  cbn. intros H.
  repeat (destruct H as [<- | H]; [cbn; tauto |]). contradiction.
Qed.

Lemma is_set_in_bounds (m : sampler2D) (x y : Z) :
  is_set m x y = true -> in_bounds m (x, y) = true.
Proof. unfold is_set. intros H. apply andb_true_iff in H. tauto. Qed.

(** Without isolated texels, an invocation keeps every covered texel ... *)
Lemma expand_pass_superset (s t : sampler2D) :
  tex_width s = tex_width t -> tex_height s = tex_height t ->
  no_isolated_texel s ->
  forall x y, is_set s x y = true -> is_set (expand_pass s t) x y = true.
Proof.
  intros Hw Hh Hs x y Hxy. rewrite expand_pass_is_set.
  rewrite <- (in_bounds_same_size s t) by assumption.
  rewrite (is_set_in_bounds _ _ _ Hxy). cbn [andb].
  apply existsb_exists. destruct (Hs x y Hxy) as [o [Ho Hset]].
  exists o. tauto.
Qed.

(** ... and its output has no isolated texel either. *)
Lemma expand_pass_no_isolated (s t : sampler2D) :
  tex_width s = tex_width t -> tex_height s = tex_height t ->
  no_isolated_texel s -> no_isolated_texel (expand_pass s t).
Proof.
  intros Hw Hh Hs x y Hxy. rewrite expand_pass_is_set in Hxy.
  apply andb_true_iff in Hxy. destruct Hxy as [Hb Hex].
  apply existsb_exists in Hex. destruct Hex as [o [Ho Hn]].
  exists o. split; [exact Ho |].
  apply expand_pass_superset; assumption.
Qed.

End Expand.

(** C5, counterexample: a single covered texel is not covered after one
    invocation, so the mask after one pass is not a superset of the mask
    before it, and the pass does not output 1 for a texel that is itself
    1. *)
Lemma expand_drops_isolated_texel :
  Passes.is_set Examples.dot_mask 1 1 = true /\
  Passes.is_set
    (Passes.expand_n 1 Examples.dot_mask Examples.blank3) 1 1 = false /\
  ExpandMaskMaterial.fragmentShader Examples.dot_mask 1 1
    = Some (vec4_splat 0).
Proof. repeat split; vm_compute; reflexivity. Qed.

(** C5, as amended: each invocation outputs 1 for a texel exactly when one
    of its 8 neighbours, the texel itself excluded, is covered; and on a
    mask in which every covered texel has a covered neighbour, the covered
    set after [k + 1] invocations contains the covered set after [k]. *)
Theorem expand_monotone_without_isolated_texels :
  forall front back : sampler2D,
    tex_width front = tex_width back ->
    tex_height front = tex_height back ->
    (forall x y,
       ExpandMaskMaterial.fragmentShader front x y =
         Some (if existsb (fun o =>
                     Passes.is_set front (x + fst o) (y + snd o))
                   ExpandMaskMaterial.offsets
               then vec4_splat 1 else vec4_splat 0)) /\
    (Passes.no_isolated_texel front ->
     forall (k : nat) (x y : Z),
       Passes.is_set (Passes.expand_n k front back) x y = true ->
       Passes.is_set (Passes.expand_n (S k) front back) x y = true).
Proof.
  intros front back Hw Hh. split.
  - intros x y. apply expand_fragment.
  - intros Hiso k. revert front back Hw Hh Hiso.
    induction k as [| k IH]; intros front back Hw Hh Hiso x y Hxy.
    + cbn in *. apply expand_pass_superset; assumption.
    + change (Passes.expand_n (S (S k)) front back)
        with (Passes.expand_n (S k) (Passes.expand_pass front back) front).
      change (Passes.expand_n (S k) front back)
        with (Passes.expand_n k (Passes.expand_pass front back) front) in Hxy.
      apply IH; try assumption.
      * cbn. symmetry. exact Hw.
      * cbn. symmetry. exact Hh.
      * apply expand_pass_no_isolated; assumption.
Qed.

Lemma expand_monotone_witness :
  Passes.is_set
    (Passes.expand_n 1 Examples.pair_mask Examples.blank3) 1 1 = true.
Proof.
  apply (proj2 (expand_monotone_without_isolated_texels
                  Examples.pair_mask Examples.blank3 eq_refl eq_refl)).
  - intros x y H.
    assert (Hb : in_bounds Examples.pair_mask (x, y) = true)
      by (apply is_set_in_bounds; exact H).
    unfold in_bounds in Hb. cbn in Hb.
    assert (Hx : (x = 0 \/ x = 1 \/ x = 2)%Z) by lia.
    assert (Hy : (y = 0 \/ y = 1 \/ y = 2)%Z) by lia.
    destruct Hx as [-> | [-> | ->]]; destruct Hy as [-> | [-> | ->]];
      try (vm_compute in H; discriminate H).
    + exists (1, 0)%Z. split; [cbn; tauto | vm_compute; reflexivity].
    + exists (-1, 0)%Z. split; [cbn; tauto | vm_compute; reflexivity].
  - vm_compute. reflexivity.
Defined.

(** ** The flood pass (JFAMaterial) *)

Section Flood.

Variable length : Z -> Z -> Q.
Hypothesis length_nonneg : forall dx dy, 0 <= length dx dy.

Lemma loop_offsets_neighbors (o : ivec2) :
  In o JFAMaterial.loop_offsets <-> FloodRule.is_neighbor_offset o.
Proof.
  unfold FloodRule.is_neighbor_offset. split.
  - cbn. intros H.
    repeat (destruct H as [<- | H];
            [cbn; repeat split; try lia; discriminate |]).
    contradiction.
  - destruct o as [ox oy]. cbn [fst snd]. intros [Hx [Hy Hne]].
    assert (Ex : (ox = -1 \/ ox = 0 \/ ox = 1)%Z) by lia.
    assert (Ey : (oy = -1 \/ oy = 0 \/ oy = 1)%Z) by lia.
    destruct Ex as [-> | [-> | ->]]; destruct Ey as [-> | [-> | ->]];
      cbn; try tauto.
Qed.

Lemma sign_cases (x : Q) : sign x = 1 \/ sign x = 0 \/ sign x = -1.
Proof.
  unfold sign. destruct (Qnum x); cbn; auto.
Qed.

(** One unrolled block is an update by the neighbour's proposal. *)
Lemma sample_neighbor_candidate (source : sampler2D) (p : ivec2) (step : Z)
    (result : vec3) (o : ivec2) :
  let s := sign (b (texelFetch source p)) in
  JFAMaterial.sample_neighbor length source (textureSize source) p step s
                              result o =
  match FloodRule.candidate length source p step o with
  | Some (sx, sy, d) =>
      if Qltb d (v3z result * s) then mkVec3 sx sy (d * s) else result
  | None => result
  end.
Proof.
  intros s. unfold JFAMaterial.sample_neighbor, FloodRule.candidate.
  unfold in_bounds. cbn [fst snd textureSize]. fold s.
  destruct (fst p + fst o * step <? tex_width source)%Z,
           (0 <=? fst p + fst o * step)%Z,
           (snd p + snd o * step <? tex_height source)%Z,
           (0 <=? snd p + snd o * step)%Z; cbn [andb negb];
    try reflexivity.
  cbn [rgb v3x v3y v3z]. unfold Qneqb at 1.
  destruct (Qeq_bool _ 0); cbn [negb]; [reflexivity |].
  destruct (Qneqb s _); [reflexivity |].
  destruct ((_ =? _)%Z && (_ =? _)%Z); reflexivity.
Qed.

(** Folding the updates over a list of offsets keeps a nearest proposal. *)
Lemma fold_keeps_nearest (source : sampler2D) (p : ivec2) (step : Z) :
  let s := sign (b (texelFetch source p)) in
  forall (l : list ivec2) (start : vec3),
    let res := fold_left
                 (JFAMaterial.sample_neighbor length source
                    (textureSize source) p step s) l start in
    (res = start \/
     exists o sx sy d,
       In o l /\ FloodRule.candidate length source p step o = Some (sx, sy, d)
       /\ res = mkVec3 sx sy (d * s) /\ d < FloodRule.magnitude s start) /\
    (forall o sx sy d,
       In o l -> FloodRule.candidate length source p step o = Some (sx, sy, d)
       -> FloodRule.magnitude s res <= d) /\
    FloodRule.magnitude s res <= FloodRule.magnitude s start.
Proof.
  intros s l. induction l as [| o l IH]; intros start res.
  - subst res. cbn. split; [left; reflexivity | split].
    + intros o sx sy d [].
    + apply Qle_refl.
  - subst res. cbn [fold_left].
    set (next := JFAMaterial.sample_neighbor length source
                   (textureSize source) p step s start o).
    destruct (IH next) as [Hsel [Hmin Hle]].
    assert (Hnext :
      (next = start /\
       forall sx sy d,
         FloodRule.candidate length source p step o = Some (sx, sy, d) ->
         FloodRule.magnitude s start <= d) \/
      (exists sx sy d,
         FloodRule.candidate length source p step o = Some (sx, sy, d) /\
         next = mkVec3 sx sy (d * s) /\ d < FloodRule.magnitude s start /\
         FloodRule.magnitude s next == d)).
    { unfold next. rewrite sample_neighbor_candidate. fold s.
      destruct (FloodRule.candidate length source p step o)
        as [[[sx sy] d] |] eqn:Ec.
      - fold (FloodRule.magnitude s start).
        destruct (Qltb d (FloodRule.magnitude s start)) eqn:El.
        + right. exists sx, sy, d. apply Qltb_lt in El.
          split; [reflexivity | split; [reflexivity | split; [exact El |]]].
          unfold FloodRule.magnitude in *. cbn [v3z].
          assert (Hd : 0 <= d).
          { unfold FloodRule.candidate in Ec.
            repeat match type of Ec with
                   | (if ?c then _ else _) = _ => destruct c
                   end; try discriminate; inversion Ec; subst;
              apply length_nonneg. }
          destruct (sign_cases (b (texelFetch source p))) as [E | [E | E]];
            fold s in E; rewrite E in *; try ring.
          exfalso. lra.
        + left. split; [reflexivity |]. intros sx' sy' d' E.
          inversion E; subst. apply Qltb_ge. exact El.
      - left. split; [reflexivity |]. intros sx sy d E. discriminate E. }
    split; [| split].
    + destruct Hsel as [Hsame | [o' [sx [sy [d [Hin [Hc [Hr Hd]]]]]]]].
      * rewrite Hsame.
        destruct Hnext as [[Hn _] | [sx [sy [d [Hc [Hn [Hd _]]]]]]].
        -- left. exact Hn.
        -- right. exists o, sx, sy, d.
           split; [left; reflexivity | tauto].
      * right. exists o', sx, sy, d.
        split; [right; exact Hin | split; [exact Hc | split; [exact Hr |]]].
        destruct Hnext as [[Hn _] | [sx' [sy' [d' [_ [_ [Hd' Hm]]]]]]].
        -- rewrite Hn in Hd. exact Hd.
        -- rewrite Hm in Hd. eapply Qlt_trans; eassumption.
    + intros o' sx sy d [<- | Hin] Hc.
      * destruct Hnext as [[Hn Hall] | [sx' [sy' [d' [Hc' [_ [_ Hm]]]]]]].
        -- eapply Qle_trans; [exact Hle |]. rewrite Hn.
           eapply Hall. exact Hc.
        -- rewrite Hc in Hc'. inversion Hc'; subst.
           eapply Qle_trans; [exact Hle |]. rewrite Hm. apply Qle_refl.
      * eapply Hmin; eassumption.
    + eapply Qle_trans; [exact Hle |].
      destruct Hnext as [[Hn _] | [sx' [sy' [d' [_ [_ [Hd' Hm]]]]]]].
      * rewrite Hn. apply Qle_refl.
      * rewrite Hm. apply Qlt_le_weak. exact Hd'.
Qed.

End Flood.

(** C2: in a flood pass, a pixel inside the coverage mask is written, and
    the record written is obtained from the 8 neighbours at offsets of
    [-step], 0 or [+step] per axis (zero offset skipped): each neighbour
    inside the buffer with a nonzero marker proposes its own raster
    coordinate when its sign differs from the pixel's, or the seed it
    relays when the sign is the same; the output is the pixel's record or
    a proposal strictly nearer than it, signed by the pixel's sign, and no
    proposal is strictly nearer than the output. *)
Theorem jfa_pass_keeps_nearest_candidate :
  forall (length : Z -> Z -> Q),
    (forall dx dy, 0 <= length dx dy) ->
    forall (source mask : sampler2D) (step : Z) (vUv : Q * Q) (x y : Z),
      Qltb (r (texture2D mask vUv)) 0.5 = false ->
      let original := rgb (texelFetch source (x, y)) in
      let s := sign (v3z original) in
      exists result : vec3,
        JFAMaterial.fragmentShader length source mask step vUv x y
          = Some (vec4_of result 1.0) /\
        (forall o, In o JFAMaterial.loop_offsets <->
                   FloodRule.is_neighbor_offset o) /\
        (result = original \/
         exists o sx sy d,
           FloodRule.is_neighbor_offset o /\
           FloodRule.candidate length source (x, y) step o
             = Some (sx, sy, d) /\
           result = mkVec3 sx sy (d * s) /\
           d < FloodRule.magnitude s original) /\
        (forall o sx sy d,
           FloodRule.is_neighbor_offset o ->
           FloodRule.candidate length source (x, y) step o
             = Some (sx, sy, d) ->
           FloodRule.magnitude s result <= d) /\
        FloodRule.magnitude s result <= FloodRule.magnitude s original.
Proof.
  intros length Hlen source mask step vUv x y Hmask original s.
  pose proof (fold_keeps_nearest length Hlen source (x, y) step
                JFAMaterial.loop_offsets original) as H.
  cbv zeta in H. fold original in H. change (b (texelFetch source (x, y)))
    with (v3z original) in H. fold s in H.
  destruct H as [Hsel [Hmin Hle]].
  eexists. split; [| split; [| split; [| split]]].
  - unfold JFAMaterial.fragmentShader, JFAMaterial.main.
    rewrite Hmask. fold original. fold s. reflexivity.
  - apply loop_offsets_neighbors.
  - destruct Hsel as [E | [o [sx [sy [d [Hin [Hc [Hr Hd]]]]]]]].
    + left. exact E.
    + right. exists o, sx, sy, d.
      split; [apply loop_offsets_neighbors; exact Hin | tauto].
  - intros o sx sy d Ho Hc. eapply Hmin; [| exact Hc].
    apply loop_offsets_neighbors. exact Ho.
  - exact Hle.
Qed.

Lemma example_length_nonneg (dx dy : Z) : 0 <= Examples.length dx dy.
Proof.
  unfold Examples.length. rewrite Qred_correct.
  set (n := (dx * dx + dy * dy)%Z).
  assert (Hn : (0 <= n)%Z) by (unfold n; nia).
  pose proof (Z.sqrt_spec n Hn) as [Hlo _].
  pose proof (Z.sqrt_nonneg n) as Hk.
  apply Qle_trans with (inject_Z (Z.sqrt n)).
  - change 0 with (inject_Z 0). rewrite <- Zle_Qle. exact Hk.
  - rewrite <- (Qplus_0_r (inject_Z (Z.sqrt n))) at 1.
    apply Qplus_le_r. apply Qle_shift_div_l.
    + change 0 with (inject_Z 0). rewrite <- Zlt_Qlt. lia.
    + rewrite Qmult_0_l. change 0 with (inject_Z 0).
      rewrite <- Zle_Qle. lia.
Qed.

Lemma jfa_pass_keeps_nearest_candidate_witness :
  exists result : vec3,
    JFAMaterial.fragmentShader Examples.length Examples.seeds3
      Examples.full_mask 1 (quad_uv 3 3 0 1) 0 1
      = Some (vec4_of result 1.0) /\
    FloodRule.magnitude 1 result <= 1e4.
Proof.
  destruct (jfa_pass_keeps_nearest_candidate
              Examples.length example_length_nonneg Examples.seeds3
              Examples.full_mask 1 (quad_uv 3 3 0 1) 0 1 eq_refl)
    as [result [Hw [_ [_ [_ Hle]]]]].
  exists result. split; [exact Hw |].
  eapply Qle_trans; [exact Hle |]. vm_compute. discriminate.
Defined.

(** The pixel left of the only interior seed resolves to that seed, at
    distance 1 on its own side. *)
Example jfa_pass_beside_a_seed :
  JFAMaterial.fragmentShader Examples.length Examples.seeds3
    Examples.full_mask 1 (quad_uv 3 3 0 1) 0 1
  = Some (mkVec4 1 1 1 1.0).
Proof. vm_compute. reflexivity. Qed.

(** ** Running the control flow *)

Section Runs.
Import Visibility.
Context {E : Type}.

Lemma with_objects_objects (w : World) : with_objects (objects w) w = w.
Proof. destruct w; reflexivity. Qed.

Lemma with_objects_twice (o1 o2 : nat -> Object3D) (w : World) :
  with_objects o1 (with_objects o2 w) = with_objects o1 w.
Proof. destruct w; reflexivity. Qed.

Lemma bind_returned {A B} (c : M E A) (k : A -> M E B) s v s' :
  c s = (Returned v, s') -> bind c k s = k v s'.
Proof. intros H. unfold bind. rewrite H. reflexivity. Qed.

Lemma show_all_run (trav : list nat) (w : World) (e : E) :
  show_all trav (w, e) =
    (Returned tt, (with_objects (show_objs trav (objects w)) w, e)).
Proof.
  revert w. induction trav as [| o rest IH]; intros w; cbn [show_all show_objs].
  - rewrite with_objects_objects. reflexivity.
  - unfold bind at 1, get_world at 1. cbn [fst snd].
    destruct (isDrawable (objects w o)).
    + unfold bind, setVisible, modify_world. cbn [fst snd].
      rewrite IH. rewrite with_objects_twice. destruct w; reflexivity.
    + apply IH.
Qed.



Lemma restore_all_run (saved : list (nat * bool)) (w : World) (e : E) :
  restore_all saved (w, e) =
    (Returned tt, (with_objects (restore_objs saved (objects w)) w, e)).
Proof.
  revert w. induction saved as [| [o v] rest IH]; intros w;
    cbn [restore_all restore_objs].
  - rewrite with_objects_objects. reflexivity.
  - unfold bind, setVisible, modify_world. cbn [fst snd].
    rewrite IH. rewrite with_objects_twice. destruct w; reflexivity.
Qed.

Lemma hide_all_run (trav : list nat) (saved : list (nat * bool))
    (w : World) (e : E) :
  hide_all trav saved (w, e) =
    (Returned (snd (hide_objs trav (objects w) saved)),
     (with_objects (fst (hide_objs trav (objects w) saved)) w, e)).
Proof.
  revert w saved. induction trav as [| o rest IH]; intros w saved;
    cbn [hide_all hide_objs].
  - cbn [fst snd]. rewrite with_objects_objects. reflexivity.
  - unfold bind at 1, get_world at 1. cbn [fst snd].
    destruct (isDrawable (objects w o)).
    + unfold bind, setVisible, modify_world. cbn [fst snd].
      rewrite IH. rewrite with_objects_twice. destruct w; reflexivity.
    + apply IH.
Qed.

End Runs.

Lemma upd_same {A} (f : nat -> A) (k : nat) (v : A) : upd f k v k = v.
Proof. unfold upd. rewrite Nat.eqb_refl. reflexivity. Qed.

Lemma upd_other {A} (f : nat -> A) (k i : nat) (v : A) :
  i <> k -> upd f k v i = f i.
Proof.
  intros H. unfold upd. destruct (Nat.eqb_spec i k); [contradiction |].
  reflexivity.
Qed.



(** Resolves reads of an updated table, using the disequalities at
    hand. *)
Ltac upd_simpl :=
  repeat first
    [ rewrite upd_same
    | rewrite upd_other by
        first [assumption | apply not_eq_sym; assumption] ].

(** Unfolds the straight-line part of a method body on an explicit state. *)
Ltac frame_step :=
  cbv beta iota zeta delta
    [bind ret get_this get_world modify_this modify_world modify_renderer
     setRenderTarget setClearColor setAutoClear setScissorTest setScissor
     setOverrideMaterial target_resize submit submit_draw clear render_scene
     store_target current_target fst snd tl
     with_renderer with_targets_heap with_screen with_objects
     with_overrideMaterial with_background with_environment with_layersMask
     with_faults with_calls
     rd_autoClear rd_clearColor rd_scissorTest rd_scissor rd_renderTarget
     renderer targets_heap screen objects overrideMaterial background
     environment layersMask faults calls
     autoClear clearColor clearAlpha scissorTest scissor renderTarget
     pixelRatio size].

(** ** The seed stage of [JumpFloodEffect.render] *)




(** ** The flood loop of [JumpFloodEffect.render] *)

Section FloodLoop.
Import FloodSchedule.
Variable P : Platform.

Lemma jfa_loop_unfold (step : Q) :
  JumpFloodEffect.jfa_loop P step =
    if Qle_bool step 1 then JumpFloodEffect.jfa_iteration P step
    else bind (JumpFloodEffect.jfa_iteration P step)
              (fun _ => JumpFloodEffect.jfa_loop P
                          (JumpFloodEffect.next_step step)).
Proof.
  rewrite JumpFloodEffect.jfa_loop_equation_1.
  unfold JumpFloodEffect.jfa_loop_unfold_clause_1, inspect.
  destruct (Qle_bool step 1); reflexivity.
Qed.

(** One turn of the loop when no call fails. *)
Lemma jfa_iteration_run (step : Q) (w : World) (e : JumpFloodEffect.t) :
  faults w = [] ->
  let t0 := JumpFloodEffect.at_index (JumpFloodEffect.targets e) 0 in
  let t1 := JumpFloodEffect.at_index (JumpFloodEffect.targets e) 1 in
  let m1 := JumpFloodEffect.at_index (JumpFloodEffect.masks e) 1 in
  exists w' e',
    JumpFloodEffect.jfa_iteration P step (w, e) = (Returned tt, (w', e')) /\
    faults w' = [] /\
    calls w' = calls w ++ [mkCall (Some t1) (JFAPass (Some t0) (Some m1) step)]
    /\ objects w' = objects w /\
    renderer w' = rd_renderTarget None (renderer w) /\
    targets_heap w' =
      upd (targets_heap w) t1
        (mkTarget (width (targets_heap w t1)) (height (targets_heap w t1))
           (Passes.jfa_output P (renderer w) (texture (targets_heap w t0))
              (texture (targets_heap w m1)) step
              (texture (targets_heap w t1)))) /\
    JumpFloodEffect.targets e' = rev (JumpFloodEffect.targets e) /\
    JumpFloodEffect.masks e' = JumpFloodEffect.masks e /\
    JumpFloodEffect.seedQuad_negative e'
      = JumpFloodEffect.seedQuad_negative e.
Proof.
  intros Hf t0 t1 m1.
  destruct w as [rd heap scr objs om bg env lm fl cs]. cbn in Hf. subst fl.
  destruct rd as [ac cc ca st sc rt pr sz].
  unfold JumpFloodEffect.jfa_iteration, JumpFloodEffect.jfaQuad_render.
  frame_step. eexists. eexists. split; [reflexivity |].
  cbn. repeat split; reflexivity.
Qed.

Lemma next_step_smaller (step : Q) :
  1 < step ->
  (1 <= Qceiling (step * 0.5) < Qceiling step)%Z.
Proof.
  intros Hs.
  pose proof (Qle_ceiling step) as Hc.
  assert (H2 : (2 <= Qceiling step)%Z).
  { assert (Hlt : inject_Z 1 < inject_Z (Qceiling step))
      by (eapply Qlt_le_trans; [exact Hs | exact Hc]).
    rewrite <- Zlt_Qlt in Hlt. lia. }
  split.
  - assert (Hlt : inject_Z 0 < inject_Z (Qceiling (step * 0.5))).
    { eapply Qlt_le_trans; [| apply Qle_ceiling].
      change (inject_Z 0) with 0. lra. }
    rewrite <- Zlt_Qlt in Hlt. lia.
  - assert (Hle : (Qceiling (step * 0.5) <= Qceiling step - 1)%Z).
    { rewrite <- (Qceiling_Z (Qceiling step - 1)).
      apply Qceiling_resp_le.
      assert (Hi : inject_Z 2 <= inject_Z (Qceiling step))
        by (rewrite <- Zle_Qle; exact H2).
      unfold Z.sub. rewrite inject_Z_plus, inject_Z_opp.
      change (inject_Z 2) with 2 in Hi. change (inject_Z 1) with 1. lra. }
    lia.
Qed.

Lemma next_step_halves (step : Q) :
  JumpFloodEffect.next_step step = inject_Z (Qceiling (step / 2)).
Proof.
  unfold JumpFloodEffect.next_step. f_equal. apply Qceiling_comp.
  field.
Qed.

Lemma jfa_steps_app (l1 l2 : list Call) :
  jfa_steps (l1 ++ l2) = jfa_steps l1 ++ jfa_steps l2.
Proof. unfold jfa_steps. apply flat_map_app. Qed.

(** The loop returns when no call fails, and the steps of its passes
    follow the halving schedule. *)
Lemma jfa_loop_run (step : Q) (w : World) (e : JumpFloodEffect.t) :
  faults w = [] ->
  exists w' e' ran,
    JumpFloodEffect.jfa_loop P step (w, e) = (Returned tt, (w', e')) /\
    faults w' = [] /\
    schedule step ran /\
    jfa_steps (calls w') = jfa_steps (calls w) ++ ran /\
    objects w' = objects w /\
    renderer w' = rd_renderTarget None (renderer w) /\
    JumpFloodEffect.masks e' = JumpFloodEffect.masks e /\
    JumpFloodEffect.seedQuad_negative e'
      = JumpFloodEffect.seedQuad_negative e.
Proof.
  remember (Z.to_nat (Qceiling step)) as n eqn:Hn.
  revert step w e Hn.
  induction n as [n IH] using lt_wf_ind. intros step w e Hn Hf.
  rewrite jfa_loop_unfold.
  destruct (jfa_iteration_run step w e Hf)
    as [w1 [e1 [Hrun [Hf1 [Hc1 [Ho1 [Hr1 [_ [_ [Hm1 Hs1]]]]]]]]]].
  destruct (Qle_bool step 1) eqn:Hle.
  - exists w1, e1, [step]. rewrite Hrun.
    split; [reflexivity | split; [exact Hf1 | split]].
    + apply schedule_last. apply Qle_bool_iff. exact Hle.
    + rewrite Hc1, jfa_steps_app. cbn. tauto.
  - assert (Hgt : 1 < step).
    { apply Qnot_le_lt. intros H. apply Qle_bool_iff in H. congruence. }
    pose proof (next_step_smaller step Hgt) as Hdec.
    destruct (IH (Z.to_nat (Qceiling (JumpFloodEffect.next_step step))))
      with (step := JumpFloodEffect.next_step step) (w := w1) (e := e1)
      as [w2 [e2 [ran [Hrun2 [Hf2 [Hsch [Hc2 [Ho2 [Hr2 [Hm2 Hs2]]]]]]]]]].
    { subst n. unfold JumpFloodEffect.next_step. rewrite Qceiling_Z. lia. }
    { reflexivity. }
    { exact Hf1. }
    exists w2, e2, (step :: ran).
    rewrite (bind_returned _ _ _ _ _ Hrun). rewrite Hrun2.
    split; [reflexivity | split; [exact Hf2 | split; [| split]]].
    + apply schedule_more; [exact Hgt |].
      rewrite <- next_step_halves. exact Hsch.
    + rewrite Hc2, Hc1, jfa_steps_app. cbn. rewrite <- app_assoc.
      reflexivity.
    + rewrite Ho2, Hr2, Hm2, Hs2, Hr1. repeat split; assumption.
Qed.

End FloodLoop.

(** *** The arithmetic of the schedule *)

Section Schedule.
Import FloodSchedule.

Lemma pow2_0 : pow2 0 = 1.
Proof. reflexivity. Qed.

Lemma pow2_S (k : nat) : pow2 (S k) == 2 * pow2 k.
Proof.
  unfold pow2. rewrite Nat2Z.inj_succ, Z.pow_succ_r by lia.
  rewrite inject_Z_mult. reflexivity.
Qed.

Lemma schedule_nonempty (step : Q) (ran : list Q) :
  schedule step ran -> ran <> [].
Proof. intros H. destruct H; discriminate. Qed.

(** A schedule that starts at 1 or more ends with the pass of step 1 and
    has one pass more than the binary logarithm of its start, rounded
    up. *)
Lemma schedule_shape (step : Q) (ran : list Q) :
  schedule step ran -> 1 <= step ->
  last ran 0 == 1 /\
  exists k : nat, is_ceil_log2 step k /\ length ran = S k.
Proof.
  intros H. induction H as [step Hle | step rest Hgt Hrest IH]; intros H1.
  - split.
    + cbn. apply Qle_antisym; assumption.
    + exists 0%nat. split; [| reflexivity]. split.
      * rewrite pow2_0. exact Hle.
      * intros j Hj. lia.
  - set (ns := Qceiling (step / 2)) in *.
    assert (Hns : 1 <= inject_Z ns).
    { change 1 with (inject_Z 1). rewrite <- Zle_Qle.
      assert (Hlt : inject_Z 0 < inject_Z ns).
      { eapply Qlt_le_trans; [| apply Qle_ceiling].
        change (inject_Z 0) with 0.
        apply Qlt_shift_div_l; [reflexivity | lra]. }
      rewrite <- Zlt_Qlt in Hlt. lia. }
    destruct (IH Hns) as [Hlast [k [[Hup Hlow] Hlen]]].
    split.
    + destruct rest as [| x rest'];
        [exfalso; exact (schedule_nonempty _ _ Hrest eq_refl) |].
      exact Hlast.
    + exists (S k). split; [split |].
      * rewrite pow2_S.
        assert (Hhalf : step / 2 <= pow2 k)
          by (eapply Qle_trans; [apply Qle_ceiling | exact Hup]).
        assert (Hs : step == step / 2 * 2) by (field; lra).
        rewrite Hs. lra.
      * intros [| j] Hj.
        -- rewrite pow2_0. exact Hgt.
        -- assert (Hjk : (j < k)%nat) by lia.
           specialize (Hlow j Hjk).
           apply Qnot_le_lt. intros Hle.
           rewrite pow2_S in Hle.
           assert (Hhalf : step / 2 <= pow2 j)
             by (apply Qle_shift_div_r; [reflexivity |];
                 rewrite Qmult_comm; exact Hle).
           apply Qceiling_resp_le in Hhalf. unfold pow2 in Hhalf at 1.
           rewrite Qceiling_Z in Hhalf. fold ns in Hhalf.
           unfold pow2 in Hlow. rewrite <- Zlt_Qlt in Hlow. lia.
      * cbn. rewrite Hlen. reflexivity.
Qed.

End Schedule.

(** C3: the flood loop starts at [min(max(width, height), thickness)] of
    [targets[0]]; each pass is followed by the pass of the step halved and
    rounded up, until the pass whose step is at most 1; and when the
    starting step is at least 1 and no call fails, the loop returns after
    a last pass of step 1, having run [k + 1] passes, [k] being the
    binary logarithm of the starting step rounded up. *)
Theorem flood_stage_schedule :
  forall (P : Platform) (thickness : Q) (w : World)
         (e : JumpFloodEffect.t),
    faults w = [] ->
    let t0 :=
      targets_heap w
        (JumpFloodEffect.at_index (JumpFloodEffect.targets e) 0) in
    let step0 := Qmin (Qmax (width t0) (height t0)) thickness in
    1 <= step0 ->
    exists (w' : World) (e' : JumpFloodEffect.t) (ran : list Q) (k : nat),
      JumpFloodEffect.flood_stage P thickness (w, e)
        = (Returned tt, (w', e')) /\
      FloodSchedule.jfa_steps (calls w')
        = FloodSchedule.jfa_steps (calls w) ++ ran /\
      FloodSchedule.schedule step0 ran /\
      hd 0 ran = step0 /\
      last ran 0 == 1 /\
      FloodSchedule.is_ceil_log2 step0 k /\
      length ran = S k.
Proof.
  intros P thickness w e Hf t0 step0 H1.
  destruct (jfa_loop_run P step0 w e Hf)
    as [w' [e' [ran [Hrun [_ [Hsch [Hcalls _]]]]]]].
  destruct (schedule_shape step0 ran Hsch H1) as [Hlast [k [Hk Hlen]]].
  exists w', e', ran, k.
  split; [| split; [exact Hcalls | split; [exact Hsch | split;
    [destruct Hsch; reflexivity | tauto]]]].
  unfold JumpFloodEffect.flood_stage. unfold bind, get_this, get_world.
  cbn [fst snd]. exact Hrun.
Qed.

Lemma flood_stage_schedule_witness :
  exists (w' : World) (e' : JumpFloodEffect.t) (ran : list Q) (k : nat),
    JumpFloodEffect.flood_stage Examples.platform 2
      (Examples.world0, Examples.jfe0) = (Returned tt, (w', e')) /\
    last ran 0 == 1 /\ length ran = S k.
Proof.
  destruct (flood_stage_schedule Examples.platform 2 Examples.world0
              Examples.jfe0 eq_refl)
    as [w' [e' [ran [k [Hrun [_ [_ [_ [Hlast [_ Hlen]]]]]]]]]].
  - vm_compute. discriminate.
  - exists w', e', ran, k. tauto.
Defined.

(** The example frame floods with the steps 2 and 1. *)
Example flood_steps_in_example :
  match JumpFloodEffect.render Examples.platform Examples.scene
          Examples.camera (Examples.world0, Examples.jfe0) with
  | (Returned _, (w, _)) => FloodSchedule.jfa_steps (calls w) = [2; 1]
  | (Thrown, _) => False
  end.
Proof. vm_compute. reflexivity. Qed.

(** ** The scissor region of [JumpFloodEffect.render] *)

Lemma scissor_region_delta (camera : Camera) (center : Vector3)
    (radius tw th dpr thickness : Q) :
  snd (JumpFloodEffect.scissor_region camera center radius tw th dpr
         thickness)
  = Region.half_extent camera center radius (tw / dpr) (th / dpr) thickness.
Proof. reflexivity. Qed.

Lemma scissor_region_center (camera : Camera) (center : Vector3)
    (radius tw th dpr thickness : Q) :
  let c := fst (JumpFloodEffect.scissor_region camera center radius tw th
                  dpr thickness) in
  vx c = fst (Region.center_on_screen camera center) * (tw / dpr) /\
  vy c = snd (Region.center_on_screen camera center) * (th / dpr).
Proof. split; reflexivity. Qed.

Lemma half_extent_compat (camera : Camera) (center : Vector3)
    (radius w1 h1 w2 h2 thickness : Q) :
  w1 == w2 -> h1 == h2 ->
  Region.half_extent camera center radius w1 h1 thickness ==
  Region.half_extent camera center radius w2 h2 thickness.
Proof.
  intros Hw Hh. unfold Region.half_extent. cbv zeta.
  apply Qplus_comp; [| reflexivity].
  apply Q.max_compat; [rewrite Hw | rewrite Hh]; reflexivity.
Qed.

(** [setSize(W, H)] gives [targets[0]] the physical size the scissor
    computation divides by the pixel ratio. *)
Lemma setSize_sizes_target (W H : Q) (w : World) (e : JumpFloodEffect.t) :
  JumpFloodEffect.at_index (JumpFloodEffect.targets e) 0
    <> JumpFloodEffect.at_index (JumpFloodEffect.targets e) 1 ->
  exists w',
    JumpFloodEffect.setSize W H (w, e) = (Returned tt, (w', e)) /\
    pixelRatio (renderer w') = pixelRatio (renderer w) /\
    let t0 :=
      targets_heap w'
        (JumpFloodEffect.at_index (JumpFloodEffect.targets e) 0) in
    width t0 = W * pixelRatio (renderer w) /\
    height t0 = H * pixelRatio (renderer w).
Proof.
  intros Hne.
  destruct w as [rd heap scr objs om bg env lm fl cs].
  destruct rd as [ac cc ca st sc rt pr sz].
  unfold JumpFloodEffect.setSize. frame_step.
  eexists. split; [reflexivity |]. cbn [renderer pixelRatio targets_heap].
  split; [reflexivity |]. upd_simpl. split; reflexivity.
Qed.

(** C8: the scissor stage turns the scissor test on and sets a square box
    centred on the projected bounding-sphere centre, whose half-extent is
    [max(|center.x - offset.x| * width, |center.y - offset.y| * height)
     + thickness], with [center] and [offset] the projections of the
    sphere centre and of the centre displaced by the radius along the
    camera's X and Y, and [width], [height] the logical size of the
    output, the render targets having the physical size
    [width * pixelRatio] by [height * pixelRatio]. *)
Theorem scissor_stage_half_extent :
  forall (camera : Camera) (selected : Selection) (thickness : Q)
         (w : World) (e : JumpFloodEffect.t) (W H : Q),
    let t0 :=
      targets_heap w
        (JumpFloodEffect.at_index (JumpFloodEffect.targets e) 0) in
    let dpr := pixelRatio (renderer w) in
    ~ dpr == 0 ->
    width t0 == W * dpr ->
    height t0 == H * dpr ->
    let delta :=
      Region.half_extent camera (sel_center selected) (sel_radius selected)
                         W H thickness in
    let c := Region.center_on_screen camera (sel_center selected) in
    exists (w' : World) (e' : JumpFloodEffect.t) (x y sw sh : Q),
      JumpFloodEffect.scissor_stage camera selected thickness (w, e)
        = (Returned tt, (w', e')) /\
      scissorTest (renderer w') = true /\
      scissor (renderer w') = (x, y, sw, sh) /\
      sw == 2 * delta /\ sh == 2 * delta /\
      x == fst c * W - delta /\ y == snd c * H - delta.
Proof.
  intros camera selected thickness w e W H t0 dpr Hdpr Hw Hh delta c.
  destruct w as [rd heap scr objs om bg env lm fl cs].
  destruct rd as [ac cc ca st sc rt pr sz].
  cbn in t0, dpr. subst dpr.
  unfold JumpFloodEffect.scissor_stage.
  cbv beta iota zeta delta [bind get_this get_world fst snd].
  cbv beta iota zeta delta [renderer targets_heap pixelRatio].
  fold t0.
  destruct (JumpFloodEffect.scissor_region camera (sel_center selected)
              (sel_radius selected) (width t0) (height t0) pr thickness)
    as [center d] eqn:Hreg.
  frame_step.
  do 6 eexists. split; [reflexivity |].
  split; [reflexivity |]. split; [reflexivity |].
  assert (Hd : d == delta).
  { change d with (snd (center, d)). rewrite <- Hreg.
    rewrite scissor_region_delta. apply half_extent_compat.
    - rewrite Hw. field. exact Hdpr.
    - rewrite Hh. field. exact Hdpr. }
  pose proof (scissor_region_center camera (sel_center selected)
                (sel_radius selected) (width t0) (height t0) pr thickness)
    as Hc.
  rewrite Hreg in Hc. cbn [fst] in Hc. destruct Hc as [Hx Hy].
  rewrite Hx, Hy, Hd. fold c.
  assert (Ew : width t0 / pr == W) by (rewrite Hw; field; exact Hdpr).
  assert (Eh : height t0 / pr == H) by (rewrite Hh; field; exact Hdpr).
  rewrite Ew, Eh. repeat split; ring.
Qed.

Lemma scissor_stage_half_extent_witness :
  exists (w' : World) (e' : JumpFloodEffect.t) (x y sw sh : Q),
    JumpFloodEffect.scissor_stage Examples.camera Examples.selection 2
      (Examples.world0, Examples.jfe0) = (Returned tt, (w', e')) /\
    scissor (renderer w') = (x, y, sw, sh) /\
    sw == 2 * 3.
Proof.
  destruct (scissor_stage_half_extent Examples.camera Examples.selection 2
              Examples.world0 Examples.jfe0 4 4)
    as [w' [e' [x [y [sw [sh [Hrun [_ [Hsc [Hsw _]]]]]]]]]].
  - vm_compute. discriminate.
  - vm_compute. reflexivity.
  - vm_compute. reflexivity.
  - exists w', e', x, y, sw, sh. split; [exact Hrun |].
    split; [exact Hsc |]. rewrite Hsw. vm_compute. reflexivity.
Defined.

(** ** Pixels outside the coverage mask in a flood pass *)

(** Outside the mask the shader assigns the prior record to
    [gl_FragColor] and then discards the fragment. *)
Lemma jfa_main_outside_mask (length : Z -> Z -> Q) (source mask : sampler2D)
    (step : Z) (vUv : Q * Q) (x y : Z) :
  Qltb (r (texture2D mask vUv)) 0.5 = true ->
  JFAMaterial.main length source mask step vUv x y
    = (vec4_of (rgb (texelFetch source (x, y))) 1, true) /\
  JFAMaterial.fragmentShader length source mask step vUv x y = None.
Proof.
  intros H. unfold JFAMaterial.fragmentShader, JFAMaterial.main.
  rewrite H. split; reflexivity.
Qed.

(** So the output buffer does not receive the record: the pixel holds the
    clear value when the renderer clears automatically, and what the
    output buffer held before otherwise. *)
Lemma jfa_output_outside_mask (P : Platform) (rd : WebGLRenderer)
    (source mask : sampler2D) (step : Q) (target : sampler2D) (x y : Z) :
  Qltb (r (texture2D mask
             (quad_uv (tex_width target) (tex_height target) x y))) 0.5
    = true ->
  texel (Passes.jfa_output P rd source mask step target) x y =
    if in_bounds target (x, y) && active P rd x y && autoClear rd
    then clearTexel rd
    else texel target x y.
Proof.
  intros H. unfold Passes.jfa_output, GL.draw. cbn [texel].
  destruct (jfa_main_outside_mask (glsl_length P) source mask (to_int step)
              (quad_uv (tex_width target) (tex_height target) x y) x y H)
    as [_ Hd].
  rewrite Hd.
  destruct (in_bounds target (x, y) && active P rd x y), (autoClear rd);
    reflexivity.
Qed.

(** C6, evaluated on a frame: [render] runs a single flood pass from
    render target 0 into render target 1.  The pixel (0, 5) is inside the
    scissor box and outside the expanded mask; its seed record in target 0
    is [(0.5, 5.5, 1e4)], and the output buffer holds zero there, marker
    included: the record was not passed through. *)
Theorem jfa_pass_drops_record_outside_mask :
  match JumpFloodEffect.render Examples.platform Examples.scene
          Examples.camera (Examples.world12, Examples.jfe12) with
  | (Returned _, (w, e)) =>
      FloodSchedule.jfa_steps (calls w) = [1] /\
      In (mkCall (Some 1%nat) (JFAPass (Some 0%nat) (Some 2%nat) 1))
         (calls w) /\
      Qltb (r (texture2D (texture (targets_heap w 2%nat))
                 (quad_uv 12 12 0 5))) 0.5 = true /\
      texel (texture (targets_heap w 0%nat)) 0 5 = mkVec4 0.5 5.5 1e4 1 /\
      texel (texture (targets_heap w 1%nat)) 0 5 = vec4_splat 0
  | (Thrown, _) => False
  end.
Proof.
  vm_compute. split; [reflexivity | split; [| repeat split]].
  do 8 right. left. reflexivity.
Qed.

(** ** The dilation and compositing materials of [OutlineEffect] *)

Section DilateShader.
Import Dilation.

Lemma Qfloor_half (n : Z) (q : Q) : q == inject_Z n + (1 # 2) -> Qfloor q = n.
Proof.
  intros Hq. rewrite (Qfloor_comp _ _ Hq).
  set (m := Qfloor (inject_Z n + (1 # 2))).
  pose proof (Qfloor_le (inject_Z n + (1 # 2))) as Hlo.
  pose proof (Qlt_floor (inject_Z n + (1 # 2))) as Hhi.
  fold m in Hlo, Hhi.
  assert (H1 : inject_Z m < inject_Z (n + 1))
    by (rewrite inject_Z_plus; change (inject_Z 1) with 1; lra).
  assert (H2 : inject_Z n < inject_Z (m + 1)) by lra.
  rewrite <- Zlt_Qlt in H1, H2. lia.
Qed.

Lemma clampZ_id (x hi : Z) : (0 <= x <= hi)%Z -> clampZ x 0 hi = x.
Proof. unfold clampZ. lia. Qed.

(** Sampling at the centre of texel [(x + dx, y + dy)], reached from the
    [uv] of pixel [(x, y)], reads that texel, clamped to the edges. *)
Lemma texture2D_at_offset (s : sampler2D) (x y dx dy : Z) (u v : Q) :
  (0 < tex_width s)%Z -> (0 < tex_height s)%Z ->
  u * inject_Z (tex_width s) == inject_Z (x + dx) + (1 # 2) ->
  v * inject_Z (tex_height s) == inject_Z (y + dy) + (1 # 2) ->
  texture2D s (u, v) =
    texel s (clampZ (x + dx) 0 (tex_width s - 1))
            (clampZ (y + dy) 0 (tex_height s - 1)).
Proof.
  intros Hw Hh Hu Hv. unfold texture2D. cbn [fst snd].
  rewrite (Qfloor_half _ _ Hu), (Qfloor_half _ _ Hv). reflexivity.
Qed.

(** On a source of the size of the viewport, with [texelSize] the
    reciprocal of that size, the dilation shader is the 4-neighbour
    maximum filter. *)
Lemma dilate_fragment (s : sampler2D) (tx ty : Q) (x y : Z) :
  (0 < tex_width s)%Z -> (0 < tex_height s)%Z ->
  tx * inject_Z (tex_width s) == 1 ->
  ty * inject_Z (tex_height s) == 1 ->
  in_bounds s (x, y) = true ->
  DilateMaterial.fragmentShader s (tx, ty)
    (quad_uv (tex_width s) (tex_height s) x y)
  = Some (mkVec4 (max4 (tex_width s) (tex_height s) (mask_values s) x y)
                 0.0 0.0 1.0).
Proof.
  intros Hw Hh Htx Hty Hb.
  assert (Hx : (0 <= x <= tex_width s - 1)%Z /\
               (0 <= y <= tex_height s - 1)%Z).
  { unfold in_bounds in Hb. cbn [fst snd] in Hb. lia. }
  assert (HW : ~ inject_Z (tex_width s) == 0).
  { change 0 with (inject_Z 0). rewrite inject_Z_injective. lia. }
  assert (HH : ~ inject_Z (tex_height s) == 0).
  { change 0 with (inject_Z 0). rewrite inject_Z_injective. lia. }
  assert (Cx : (inject_Z x + 0.5) / inject_Z (tex_width s)
               * inject_Z (tex_width s) == inject_Z x + (1 # 2))
    by (field; exact HW).
  assert (Cy : (inject_Z y + 0.5) / inject_Z (tex_height s)
               * inject_Z (tex_height s) == inject_Z y + (1 # 2))
    by (field; exact HH).
  unfold DilateMaterial.fragmentShader, quad_uv. cbn [fst snd].
  rewrite (texture2D_at_offset s x y 0 0);
    [| assumption | assumption
     | rewrite Z.add_0_r; exact Cx | rewrite Z.add_0_r; exact Cy].
  rewrite (texture2D_at_offset s x y 1 0);
    [| assumption | assumption
     | rewrite inject_Z_plus, Qmult_plus_distr_l, Cx, Htx;
       change (inject_Z 1) with 1; ring
     | rewrite Z.add_0_r, Qmult_plus_distr_l, Cy; ring].
  rewrite (texture2D_at_offset s x y (-1) 0);
    [| assumption | assumption
     | unfold Qminus; rewrite inject_Z_plus, Qmult_plus_distr_l, Cx;
       setoid_replace (- tx * inject_Z (tex_width s))
         with (- (tx * inject_Z (tex_width s))) by ring;
       rewrite Htx; change (inject_Z (-1)) with (-1); ring
     | unfold Qminus; rewrite Z.add_0_r, Qmult_plus_distr_l, Cy; ring].
  rewrite (texture2D_at_offset s x y 0 1);
    [| assumption | assumption
     | rewrite Z.add_0_r, Qmult_plus_distr_l, Cx; ring
     | rewrite inject_Z_plus, Qmult_plus_distr_l, Cy, Hty;
       change (inject_Z 1) with 1; ring].
  rewrite (texture2D_at_offset s x y 0 (-1));
    [| assumption | assumption
     | unfold Qminus; rewrite Z.add_0_r, Qmult_plus_distr_l, Cx; ring
     | unfold Qminus; rewrite inject_Z_plus, Qmult_plus_distr_l, Cy;
       setoid_replace (- ty * inject_Z (tex_height s))
         with (- (ty * inject_Z (tex_height s))) by ring;
       rewrite Hty; change (inject_Z (-1)) with (-1); ring].
  rewrite !Z.add_0_r.
  rewrite (clampZ_id x) by lia. rewrite (clampZ_id y) by lia.
  reflexivity.
Qed.

(** On texels inside the raster the filter only reads texels inside it. *)
Lemma max4_ext (w h : Z) (f g : Z -> Z -> Q) :
  (0 < w)%Z -> (0 < h)%Z ->
  (forall x y, (0 <= x < w)%Z -> (0 <= y < h)%Z -> f x y = g x y) ->
  forall x y, (0 <= x < w)%Z -> (0 <= y < h)%Z ->
    max4 w h f x y = max4 w h g x y.
Proof.
  intros Hw Hh Heq x y Hx Hy. unfold max4.
  rewrite !Heq; try assumption; unfold clampZ; try lia.
  reflexivity.
Qed.

(** The compositing factor is 1 where the dilated mask is set and the
    original is not, and 0 elsewhere. *)
Lemma composite_outline (d o : Q) :
  CompositeOutlineMaterial.outline d o =
    if dilated_and_not_original d o then 1 * (1.0 - 0) else
    if Qle_bool 0.5 d then 1 * (1.0 - 1) else 0 * (1.0 - glsl_step 0.5 o).
Proof.
  unfold CompositeOutlineMaterial.outline, dilated_and_not_original,
    glsl_step, Qltb.
  destruct (Qle_bool 0.5 d), (Qle_bool 0.5 o); reflexivity.
Qed.

Lemma composite_outline_value (d o : Q) :
  CompositeOutlineMaterial.outline d o ==
    if dilated_and_not_original d o then 1 else 0.
Proof.
  rewrite composite_outline.
  destruct (dilated_and_not_original d o); [ring |].
  destruct (Qle_bool 0.5 d); ring.
Qed.

(** The filter never lowers a value, and is monotone. *)
Lemma max4_ge (w h : Z) (f : Z -> Z -> Q) (x y : Z) :
  f x y <= max4 w h f x y.
Proof. unfold max4. apply Q.le_max_l. Qed.




End DilateShader.

(** ** Running [OutlineEffect.render] *)

Section OutlineRuns.
Import Dilation.
Variable P : Platform.






End OutlineRuns.



(** Even a thickness whose physical size rounds to zero gets one pass. *)
Example thin_outline_one_pass :
  OutlineEffect.physicalThickness (1 # 10) 1 = 1%Z /\
  OutlineEffect.Math_round ((1 # 10) * 1) = 0%Z.
Proof. split; reflexivity. Qed.

(** ** The images of [OutlineEffect.render] *)

Section OutlineImages.
Import Dilation.
Variable P : Platform.

Lemma in_bounds_range (s : sampler2D) (x y : Z) :
  in_bounds s (x, y) = true <->
  (0 <= x < tex_width s)%Z /\ (0 <= y < tex_height s)%Z.
Proof. unfold in_bounds. cbn [fst snd]. lia. Qed.




End OutlineImages.



(** ** Restoring the renderer and the scene *)

Section Keeps.
Import Frame.
Context {E : Type}.
Variable J : World -> Prop.

Lemma keeps_ret {A} (v : A) : keeps J (@ret E A v).
Proof. intros s H. exact H. Qed.

Lemma keeps_bind {A B} (c : M E A) (k : A -> M E B) :
  keeps J c -> (forall v, keeps J (k v)) -> keeps J (bind c k).
Proof.
  intros Hc Hk s H. unfold bind. specialize (Hc s H).
  destruct (c s) as [[v |] s1]; cbn [fst snd] in *.
  - apply Hk. exact Hc.
  - exact Hc.
Qed.

Lemma keeps_try_finally {A} (body : M E A) (handler : M E unit) :
  keeps J body -> keeps J handler -> keeps J (try_finally body handler).
Proof.
  intros Hb Hh s H. unfold try_finally. specialize (Hb s H).
  destruct (body s) as [o s1]. cbn [fst snd] in Hb.
  specialize (Hh s1 Hb). destruct (handler s1) as [[[] |] s2]; exact Hh.
Qed.

Lemma keeps_get_this : keeps J (@get_this E).
Proof. intros s H. exact H. Qed.

Lemma keeps_get_world : keeps J (@get_world E).
Proof. intros s H. exact H. Qed.

Lemma keeps_modify_this (f : E -> E) : keeps J (modify_this f).
Proof. intros s H. exact H. Qed.

Lemma keeps_modify_world (f : World -> World) :
  (forall w, J w -> J (f w)) -> keeps J (@modify_world E f).
Proof. intros Hf s H. apply Hf. exact H. Qed.

End Keeps.

Section KeepsScissorAndObjects.
Import Frame.
Variable P : Platform.
Variable st0 : bool.
Variable objs0 : nat -> Object3D.

(** The scissor test and the objects are what the outline effect never
    writes. *)
Let J (w : World) : Prop :=
  scissorTest (renderer w) = st0 /\ objects w = objs0.

Ltac stable :=
  let H := fresh in
  intros [[? ? ? ? ? ? ? ?] ? ? ? ? ? ? ? ? ?] H; exact H.

Lemma keeps_submit {E} (pass : Pass) (f : sampler2D -> sampler2D) :
  keeps J (@submit E pass f).
Proof.
  intros [[[? ? ? ? ? rt ? ?] ? ? ? ? ? ? ? fl ?] e] H.
  unfold submit. cbn [fst snd faults].
  destruct fl as [| [|] rest]; cbn [fst snd]; try exact H;
    destruct rt; exact H.
Qed.

Lemma keeps_submit_draw {E} (pass : Pass) combine frag :
  keeps J (@submit_draw P E pass combine frag).
Proof. intros s H. unfold submit_draw. apply keeps_submit. exact H. Qed.

Lemma keeps_clear {E} : keeps J (@clear P E).
Proof. intros s H. unfold clear. apply keeps_submit. exact H. Qed.

Lemma keeps_render_scene {E} scene camera shade :
  keeps J (@render_scene P E scene camera shade).
Proof.
  intros s H. unfold render_scene. apply keeps_submit_draw. exact H.
Qed.

Lemma keeps_setRenderTarget {E} tg : keeps J (@setRenderTarget E tg).
Proof. apply keeps_modify_world. stable. Qed.

Lemma keeps_setClearColor {E} c al : keeps J (@setClearColor E c al).
Proof. apply keeps_modify_world. stable. Qed.

Lemma keeps_setAutoClear {E} v : keeps J (@setAutoClear E v).
Proof. apply keeps_modify_world. stable. Qed.

Lemma keeps_setOverrideMaterial {E} m : keeps J (@setOverrideMaterial E m).
Proof. apply keeps_modify_world. stable. Qed.

Lemma keeps_target_resize {E} tg w h : keeps J (@target_resize E tg w h).
Proof. apply keeps_modify_world. stable. Qed.

Lemma keeps_with_layersMask {E} v :
  keeps J (@modify_world E (with_layersMask v)).
Proof. apply keeps_modify_world. stable. Qed.

Lemma keeps_with_background {E} v :
  keeps J (@modify_world E (with_background v)).
Proof. apply keeps_modify_world. stable. Qed.

Lemma keeps_with_environment {E} v :
  keeps J (@modify_world E (with_environment v)).
Proof. apply keeps_modify_world. stable. Qed.

Lemma keeps_for_loop_with {S} (body : nat -> S -> M OutlineEffect.t S) :
  (forall i st, keeps J (body i st)) ->
  forall n i st, keeps J (OutlineEffect.for_loop_with i n body st).
Proof.
  intros Hb n. induction n as [| n IH]; intros i st;
    cbn [OutlineEffect.for_loop_with].
  - apply keeps_ret.
  - apply keeps_bind; [apply Hb | intros v; apply IH].
Qed.

(** Solves a goal [keeps J c] for a body made of the operations above. *)
Ltac keeps_body :=
  repeat lazymatch goal with
  | |- keeps _ (bind _ _) => apply keeps_bind; [| intros ?]
  | |- keeps _ (ret _) => apply keeps_ret
  | |- keeps _ get_this => apply keeps_get_this
  | |- keeps _ get_world => apply keeps_get_world
  | |- keeps _ (modify_this _) => apply keeps_modify_this
  | |- keeps _ (submit_draw _ _ _ _) => apply keeps_submit_draw
  | |- keeps _ (clear _) => apply keeps_clear
  | |- keeps _ (render_scene _ _ _ _) => apply keeps_render_scene
  | |- keeps _ (setRenderTarget _) => apply keeps_setRenderTarget
  | |- keeps _ (setClearColor _ _) => apply keeps_setClearColor
  | |- keeps _ (setAutoClear _) => apply keeps_setAutoClear
  | |- keeps _ (setOverrideMaterial _) => apply keeps_setOverrideMaterial
  | |- keeps _ (target_resize _ _ _) => apply keeps_target_resize
  | |- keeps _ (modify_world (with_layersMask _)) =>
      apply keeps_with_layersMask
  | |- keeps _ (modify_world (with_background _)) =>
      apply keeps_with_background
  | |- keeps _ (modify_world (with_environment _)) =>
      apply keeps_with_environment
  | |- keeps _ _ => progress cbv beta zeta
  end.

Lemma keeps_dilate_iteration (i : nat) (rw : nat * nat) :
  keeps J (OutlineEffect.dilate_iteration P i rw).
Proof.
  destruct rw as [rd wr]. unfold OutlineEffect.dilate_iteration,
    OutlineEffect.dilateQuad_render.
  keeps_body. destruct (Nat.eqb i 0); apply keeps_ret.
Qed.

Lemma keeps_outline_body scene camera lm bg env N tx ty :
  keeps J
    (bind (OutlineEffect.mask_step P scene camera lm bg env)
       (fun _ => bind (OutlineEffect.dilate_step P N tx ty)
                      (fun readTarget =>
                         OutlineEffect.composite_step P readTarget))).
Proof.
  unfold OutlineEffect.mask_step, OutlineEffect.dilate_step,
    OutlineEffect.composite_step, OutlineEffect.compositeQuad_render.
  keeps_body.
  apply keeps_for_loop_with. intros i st. apply keeps_dilate_iteration.
Qed.


End KeepsScissorAndObjects.

Lemma updateSize_keeps_globals (w : World) (e : OutlineEffect.t) :
  exists w1 e1,
    OutlineEffect._updateSize (w, e) = (Returned tt, (w1, e1)) /\
    renderer w1 = renderer w /\ objects w1 = objects w /\
    layersMask w1 = layersMask w /\ background w1 = background w /\
    environment w1 = environment w.
Proof.
  destruct w as [rd heap scr objs om bg env lm fl cs].
  destruct rd as [ac cc ca st sc rt pr sz].
  unfold OutlineEffect._updateSize.
  cbv beta iota zeta delta [bind get_this get_world fst snd].
  match goal with |- context [if ?c then _ else _] => destruct c end;
    frame_step; eexists; eexists; (split; [reflexivity |]);
    cbn; repeat split.
Qed.

(** The [try] block of [OutlineEffect.render] followed by its [finally]
    block, whatever the [try] block does. *)
Lemma outline_try_finally_restores (P : Platform) (scene : Scene)
    (camera : Camera) (w1 : World) (e1 : OutlineEffect.t) (N : Z)
    (tx ty : Q) :
  Frame.same_global_state w1
    (fst (snd
       (try_finally
          (bind (OutlineEffect.mask_step P scene camera (layersMask w1)
                   (background w1) (environment w1))
             (fun _ => bind (OutlineEffect.dilate_step P N tx ty)
                (fun readTarget =>
                   OutlineEffect.composite_step P readTarget)))
          (OutlineEffect.restore_state (autoClear (renderer w1))
             (clearColor (renderer w1)) (clearAlpha (renderer w1))
             (layersMask w1) (background w1) (environment w1))
          (w1, e1)))).
Proof.
  unfold try_finally.
  pose proof (keeps_outline_body P (scissorTest (renderer w1)) (objects w1)
                scene camera (layersMask w1) (background w1)
                (environment w1) N tx ty (w1, e1) (conj eq_refl eq_refl))
    as Hkeep.
  destruct (bind _ _ (w1, e1)) as [o [wb eb]].
  cbn [fst snd] in Hkeep. destruct Hkeep as [Hst Hobj].
  destruct wb as [rdb heapb scrb objsb omb bgb envb lmb flb csb].
  destruct rdb as [acb ccb cab stb scb rtb prb szb].
  unfold OutlineEffect.restore_state. frame_step.
  cbn [renderer objects scissorTest] in Hst, Hobj.
  unfold Frame.same_global_state.
  cbn [renderer objects autoClear clearColor clearAlpha scissorTest].
  rewrite Hst, Hobj. repeat split.
Qed.

(** [OutlineEffect.render] leaves the clear colour and alpha, the
    auto-clear flag, the scissor test and the visibility of every object
    as it found them, on every path: also when a call it makes throws. *)
Lemma outline_render_restores_state (P : Platform) (scene : Scene)
    (camera : Camera) (w : World) (e : OutlineEffect.t) :
  Frame.same_global_state w
    (fst (snd (OutlineEffect.render P scene camera (w, e)))).
Proof.
  assert (Hrefl : Frame.same_global_state w w)
    by (unfold Frame.same_global_state; repeat split).
  unfold OutlineEffect.render.
  rewrite (bind_returned get_this _ (w, e) e (w, e) eq_refl).
  rewrite (bind_returned get_world _ (w, e) w (w, e) eq_refl).
  destruct (OutlineEffect.selectedObject e) as [selected |];
    [| exact Hrefl].
  destruct (negb (visible (objects w (sel_root selected))));
    [exact Hrefl |].
  destruct (updateSize_keeps_globals w e)
    as [w1 [e1 [Hupd [Er [Eo _]]]]].
  rewrite (bind_returned _ _ _ _ _ Hupd).
  rewrite (bind_returned get_this _ (w1, e1) e1 (w1, e1) eq_refl).
  rewrite (bind_returned get_world _ (w1, e1) w1 (w1, e1) eq_refl).
  pose proof (outline_try_finally_restores P scene camera w1 e1
                (OutlineEffect.physicalThickness
                   (OutlineEffect.thickness e1) (pixelRatio (renderer w1)))
                (1.0 / OutlineEffect._width e1)
                (1.0 / OutlineEffect._height e1)) as H.
  unfold Frame.same_global_state in *. rewrite <- Er, <- Eo. exact H.
Qed.

(** ** [JumpFloodEffect.render] and the state it finds *)

(** C4, evaluated on two frames.  When the second call to reach the GPU
    (the draw of the mask) throws, [render] exits with the clear colour
    and alpha overwritten and with a mesh of the scene left invisible.
    When no call throws but the scissor test was on at the start, [render]
    returns with the scissor test off. *)
Theorem jfe_render_leaks_state :
  (let before := Examples.world0_failing in
   match JumpFloodEffect.render Examples.platform Examples.scene
           Examples.camera (before, Examples.jfe0) with
   | (Thrown, (after, _)) =>
       clearColor (renderer before) = mkColor 1 1 1 /\
       clearColor (renderer after) = mkColor 0 0 0 /\
       clearAlpha (renderer before) = 1 /\
       clearAlpha (renderer after) = 0 /\
       visible (objects before 2%nat) = true /\
       visible (objects after 2%nat) = false
   | (Returned _, _) => False
   end) /\
  (let before := Examples.world0_scissored in
   match JumpFloodEffect.render Examples.platform Examples.scene
           Examples.camera (before, Examples.jfe0) with
   | (Returned _, (after, _)) =>
       scissorTest (renderer before) = true /\
       scissorTest (renderer after) = false
   | (Thrown, _) => False
   end).
Proof. split; vm_compute; repeat split. Qed.

(** The sibling effect restores the same state on the same two frames. *)
Example outline_render_restores_in_examples :
  Frame.same_global_state Examples.world0_failing
    (fst (snd (OutlineEffect.render Examples.platform Examples.scene
                 Examples.camera
                 (Examples.world0_failing, Examples.outline0)))) /\
  fst (OutlineEffect.render Examples.platform Examples.scene
         Examples.camera (Examples.world0_failing, Examples.outline0))
    = Thrown.
Proof.
  split; [apply outline_render_restores_state | vm_compute; reflexivity].
Qed.

(** ** Hiding, showing and restoring objects *)

Section VisibilityFacts.
Import Visibility.

Lemma set_visible_own (x : Object3D) : set_visible (visible x) x = x.
Proof. destruct x; reflexivity. Qed.

Lemma same_kinds_refl (f : nat -> Object3D) : same_kinds f f.
Proof. intros o. repeat split. Qed.

Lemma same_kinds_trans (f g h : nat -> Object3D) :
  same_kinds f g -> same_kinds g h -> same_kinds f h.
Proof.
  intros H1 H2 o. destruct (H1 o) as [A [B C]]. destruct (H2 o) as [A' [B' C']].
  repeat split; congruence.
Qed.

Lemma same_kinds_upd (f : nat -> Object3D) (k : nat) (v : bool) :
  same_kinds (upd f k (set_visible v (f k))) f.
Proof.
  intros o. unfold upd. destruct (Nat.eqb_spec o k) as [-> |];
    repeat split.
Qed.

Lemma same_kinds_drawable (f g : nat -> Object3D) (o : nat) :
  same_kinds f g -> isDrawable (f o) = isDrawable (g o).
Proof.
  intros H. destruct (H o) as [A [B C]]. unfold isDrawable.
  rewrite A, B, C. reflexivity.
Qed.

(** Showing touches drawable objects of the traversal only. *)
Lemma show_objs_spec (trav : list nat) (f : nat -> Object3D) :
  same_kinds (show_objs trav f) f /\
  forall o, show_objs trav f o = f o \/
            (In o trav /\ isDrawable (f o) = true).
Proof.
  revert f. induction trav as [| a rest IH]; intros f; cbn [show_objs].
  - split; [apply same_kinds_refl | intros o; left; reflexivity].
  - destruct (isDrawable (f a)) eqn:Ed.
    + destruct (IH (upd f a (set_visible true (f a)))) as [Hk Hp].
      split.
      * eapply same_kinds_trans; [exact Hk | apply same_kinds_upd].
      * intros o. destruct (Hp o) as [E | [Hin Hd]].
        -- rewrite E. unfold upd. destruct (Nat.eqb_spec o a) as [-> |].
           ++ right. split; [left; reflexivity | exact Ed].
           ++ left. reflexivity.
        -- right. split; [right; exact Hin |].
           rewrite <- Hd. symmetry.
           apply same_kinds_drawable, same_kinds_upd.
    + destruct (IH f) as [Hk Hp]. split; [exact Hk |].
      intros o. destruct (Hp o) as [E | [Hin Hd]]; [left; exact E |].
      right. split; [right; exact Hin | exact Hd].
Qed.

Lemma saved_of_ext (trav : list nat) (f g : nat -> Object3D) :
  (forall o, In o trav -> f o = g o) -> saved_of trav f = saved_of trav g.
Proof.
  induction trav as [| a rest IH]; intros H; [reflexivity |].
  cbn [saved_of flat_map]. rewrite (H a) by (left; reflexivity).
  f_equal. apply IH. intros o Ho. apply H. right. exact Ho.
Qed.

(** Hiding touches drawable objects of the traversal only, and saves the
    visibility each of them had. *)
Lemma hide_objs_spec (trav : list nat) (f : nat -> Object3D)
    (saved : list (nat * bool)) :
  NoDup trav ->
  same_kinds (fst (hide_objs trav f saved)) f /\
  (forall o, fst (hide_objs trav f saved) o = f o \/
             (In o trav /\ isDrawable (f o) = true)) /\
  snd (hide_objs trav f saved) = saved ++ saved_of trav f.
Proof.
  revert f saved. induction trav as [| a rest IH]; intros f saved Hnd;
    cbn [hide_objs].
  - cbn. rewrite app_nil_r.
    split; [apply same_kinds_refl | split; [left |]; reflexivity].
  - inversion Hnd as [| ? ? Hnotin Hnd']; subst.
    cbn [saved_of flat_map]. destruct (isDrawable (f a)) eqn:Ed.
    + destruct (IH (upd f a (set_visible false (f a)))
                   (saved ++ [(a, visible (f a))]) Hnd')
        as [Hk [Hp Hs]].
      split; [| split].
      * eapply same_kinds_trans; [exact Hk | apply same_kinds_upd].
      * intros o. destruct (Hp o) as [E | [Hin Hd]].
        -- rewrite E. unfold upd. destruct (Nat.eqb_spec o a) as [-> |].
           ++ right. split; [left; reflexivity | exact Ed].
           ++ left. reflexivity.
        -- right. split; [right; exact Hin |].
           rewrite <- Hd. symmetry.
           apply same_kinds_drawable, same_kinds_upd.
      * rewrite Hs, <- app_assoc. cbn [app]. do 2 f_equal.
        apply saved_of_ext. intros o Ho. apply upd_other.
        intros ->. contradiction.
    + destruct (IH f saved Hnd') as [Hk [Hp Hs]].
      split; [exact Hk | split; [| exact Hs]].
      intros o. destruct (Hp o) as [E | [Hin Hd]]; [left; exact E |].
      right. split; [right; exact Hin | exact Hd].
Qed.

Lemma saved_of_in (trav : list nat) (f : nat -> Object3D) (o : nat)
    (v : bool) :
  In (o, v) (saved_of trav f) <->
  In o trav /\ isDrawable (f o) = true /\ v = visible (f o).
Proof.
  unfold saved_of. rewrite in_flat_map. split.
  - intros [a [Ha Hin]]. destruct (isDrawable (f a)) eqn:Ed.
    + destruct Hin as [E | []]. inversion E; subst. tauto.
    + destruct Hin.
  - intros [Hin [Hd ->]]. exists o. split; [exact Hin |].
    rewrite Hd. left. reflexivity.
Qed.

(** Restoring what was saved from [f], on a table that differs from [f]
    at most in the visibility of the objects saved, gives [f] back. *)
Lemma restore_objs_saved (trav : list nat) (f g : nat -> Object3D) :
  same_kinds g f ->
  (forall o, g o = f o \/ (In o trav /\ isDrawable (f o) = true)) ->
  forall o, restore_objs (saved_of trav f) g o = f o.
Proof.
  revert g. induction trav as [| a rest IH]; intros g Hk Hp o.
  - cbn. destruct (Hp o) as [E | [[] _]]. exact E.
  - cbn [saved_of flat_map]. destruct (isDrawable (f a)) eqn:Ed.
    + cbn [app restore_objs]. fold (saved_of rest f). apply IH.
      * eapply same_kinds_trans; [apply same_kinds_upd | exact Hk].
      * intros p. unfold upd. destruct (Nat.eqb_spec p a) as [-> |].
        -- left. destruct (Hk a) as [A [B C]].
           destruct (g a), (f a); cbn in *; subst; reflexivity.
        -- destruct (Hp p) as [E | [[-> | Hin] Hd]];
             [left; exact E | contradiction | right; tauto].
    + apply IH; [exact Hk |].
      intros p. destruct (Hp p) as [E | [[-> | Hin] Hd]];
        [left; exact E | congruence | right; tauto].
Qed.

End VisibilityFacts.

(** ** Further properties of [OutlineEffect] *)

(** The [try] block of [OutlineEffect.render] followed by its [finally]
    block: what the [finally] block leaves, whatever the [try] block
    did. *)
Lemma outline_try_finally_leaves (P : Platform) (scene : Scene)
    (camera : Camera) (w1 : World) (e1 : OutlineEffect.t) (N : Z)
    (tx ty : Q) :
  let w' :=
    fst (snd
       (try_finally
          (bind (OutlineEffect.mask_step P scene camera (layersMask w1)
                   (background w1) (environment w1))
             (fun _ => bind (OutlineEffect.dilate_step P N tx ty)
                (fun readTarget =>
                   OutlineEffect.composite_step P readTarget)))
          (OutlineEffect.restore_state (autoClear (renderer w1))
             (clearColor (renderer w1)) (clearAlpha (renderer w1))
             (layersMask w1) (background w1) (environment w1))
          (w1, e1))) in
  layersMask w' = layersMask w1 /\ background w' = background w1 /\
  environment w' = environment w1 /\ overrideMaterial w' = None /\
  renderTarget (renderer w') = None /\ objects w' = objects w1.
Proof.
  unfold try_finally.
  pose proof (keeps_outline_body P (scissorTest (renderer w1)) (objects w1)
                scene camera (layersMask w1) (background w1)
                (environment w1) N tx ty (w1, e1) (conj eq_refl eq_refl))
    as Hkeep.
  destruct (bind _ _ (w1, e1)) as [o [wb eb]].
  cbn [fst snd] in Hkeep. destruct Hkeep as [_ Hobj].
  destruct wb as [rdb heapb scrb objsb omb bgb envb lmb flb csb].
  destruct rdb as [acb ccb cab stb scb rtb prb szb].
  unfold OutlineEffect.restore_state. frame_step.
  cbn [objects] in Hobj. cbn. repeat split. exact Hobj.
Qed.

(** X1.  [OutlineEffect.render] leaves the renderer, the camera and the
    scene as it found them on every path, also when a call it makes
    throws: the auto-clear flag, the clear colour and alpha, the scissor
    test, the camera's layer mask, the scene's background and environment
    and every object are as at the start; and once past its opening test
    it always ends with [scene.overrideMaterial] and the render target
    reset to [null]. *)
Theorem outline_render_restores_scene_and_camera :
  forall (P : Platform) (scene : Scene) (camera : Camera) (w : World)
         (e : OutlineEffect.t),
    let w' := fst (snd (OutlineEffect.render P scene camera (w, e))) in
    autoClear (renderer w') = autoClear (renderer w) /\
    clearColor (renderer w') = clearColor (renderer w) /\
    clearAlpha (renderer w') = clearAlpha (renderer w) /\
    scissorTest (renderer w') = scissorTest (renderer w) /\
    layersMask w' = layersMask w /\
    background w' = background w /\
    environment w' = environment w /\
    (forall o, objects w' o = objects w o) /\
    (Guard.nothing_to_outline w (OutlineEffect.selectedObject e) = false ->
     overrideMaterial w' = None /\ renderTarget (renderer w') = None).
Proof.
  intros P scene camera w e.
  unfold OutlineEffect.render, Guard.nothing_to_outline.
  rewrite (bind_returned get_this _ (w, e) e (w, e) eq_refl).
  rewrite (bind_returned get_world _ (w, e) w (w, e) eq_refl).
  destruct (OutlineEffect.selectedObject e) as [selected |];
    [| cbn; repeat split; discriminate].
  destruct (negb (visible (objects w (sel_root selected))));
    [cbn; repeat split; discriminate |].
  destruct (updateSize_keeps_globals w e)
    as [w1 [e1 [Hupd [Er [Eo [El [Eb Ee]]]]]]].
  rewrite (bind_returned _ _ _ _ _ Hupd).
  rewrite (bind_returned get_this _ (w1, e1) e1 (w1, e1) eq_refl).
  rewrite (bind_returned get_world _ (w1, e1) w1 (w1, e1) eq_refl).
  pose proof (outline_try_finally_restores P scene camera w1 e1
                (OutlineEffect.physicalThickness
                   (OutlineEffect.thickness e1) (pixelRatio (renderer w1)))
                (1.0 / OutlineEffect._width e1)
                (1.0 / OutlineEffect._height e1)) as [Ha [Hc [Hal [Hs _]]]].
  pose proof (outline_try_finally_leaves P scene camera w1 e1
                (OutlineEffect.physicalThickness
                   (OutlineEffect.thickness e1) (pixelRatio (renderer w1)))
                (1.0 / OutlineEffect._width e1)
                (1.0 / OutlineEffect._height e1))
    as [Hl [Hb [He [Ho [Hr Hobj]]]]].
  cbv zeta.
  rewrite <- Er, <- Eo, <- El, <- Eb, <- Ee.
  repeat split; try assumption.
  intros o. rewrite Hobj. reflexivity.
Qed.

Lemma outline_render_restores_scene_and_camera_witness :
  let w' := fst (snd (OutlineEffect.render Examples.platform Examples.scene
                        Examples.camera
                        (Examples.world0_failing, Examples.outline0))) in
  clearColor (renderer w') = mkColor 1 1 1 /\
  overrideMaterial w' = None /\ renderTarget (renderer w') = None.
Proof.
  destruct (outline_render_restores_scene_and_camera Examples.platform
              Examples.scene Examples.camera Examples.world0_failing
              Examples.outline0)
    as [_ [Hc [_ [_ [_ [_ [_ [_ Hn]]]]]]]].
  split; [exact Hc | exact (Hn eq_refl)].
Defined.

(** X2.  [OutlineEffect._updateSize] is idempotent: a second call in a
    row finds the cached size up to date and changes nothing (no render
    target is resized again). *)
Theorem updateSize_idempotent :
  forall (w : World) (e : OutlineEffect.t),
  exists (w1 : World) (e1 : OutlineEffect.t),
    OutlineEffect._updateSize (w, e) = (Returned tt, (w1, e1)) /\
    OutlineEffect._updateSize (w1, e1) = (Returned tt, (w1, e1)).
Proof.
  intros w e.
  destruct w as [rd heap scr objs om bg env lm fl cs].
  destruct rd as [ac cc ca st sc rt pr sz].
  set (Wp := inject_Z (Qfloor (fst sz * pr))).
  set (Hp := inject_Z (Qfloor (snd sz * pr))).
  assert (Hw : Qeq_bool Wp Wp = true) by (apply Qeq_bool_iff; reflexivity).
  assert (Hh : Qeq_bool Hp Hp = true) by (apply Qeq_bool_iff; reflexivity).
  destruct (negb (Qeq_bool Wp (OutlineEffect._width e))
            || negb (Qeq_bool Hp (OutlineEffect._height e))) eqn:Hc.
  - eexists. eexists. split.
    + unfold OutlineEffect._updateSize.
      rewrite (bind_returned get_world _ _ _ _ eq_refl).
      rewrite (bind_returned get_this _ _ _ _ eq_refl).
      cbn [renderer size pixelRatio fst snd]. fold Wp Hp. rewrite Hc.
      frame_step. reflexivity.
    + unfold OutlineEffect._updateSize.
      rewrite (bind_returned get_world _ _ _ _ eq_refl).
      rewrite (bind_returned get_this _ _ _ _ eq_refl).
      cbn [renderer size pixelRatio fst snd OutlineEffect._width
           OutlineEffect._height OutlineEffect.with_size].
      fold Wp Hp. rewrite Hw, Hh. reflexivity.
  - exists (mkWorld (mkRenderer ac cc ca st sc rt pr sz) heap scr objs om bg
                    env lm fl cs), e.
    assert (Hrun : OutlineEffect._updateSize
                     (mkWorld (mkRenderer ac cc ca st sc rt pr sz) heap scr
                        objs om bg env lm fl cs, e)
                   = (Returned tt,
                      (mkWorld (mkRenderer ac cc ca st sc rt pr sz) heap scr
                         objs om bg env lm fl cs, e))).
    { unfold OutlineEffect._updateSize.
      rewrite (bind_returned get_world _ _ _ _ eq_refl).
      rewrite (bind_returned get_this _ _ _ _ eq_refl).
      cbn [renderer size pixelRatio fst snd]. fold Wp Hp. rewrite Hc.
      reflexivity. }
    split; exact Hrun.
Qed.

(** X3.  Both [render] methods return at once, changing nothing and
    issuing no call, when no object is selected or the selected object
    is not visible; this holds whatever calls would have failed. *)
Theorem render_without_visible_selection :
  forall (P : Platform) (scene : Scene) (camera : Camera) (w : World),
    (forall e : JumpFloodEffect.t,
       Guard.nothing_to_outline w (JumpFloodEffect.selectedObject e) = true ->
       JumpFloodEffect.render P scene camera (w, e) = (Returned tt, (w, e)))
    /\
    (forall e : OutlineEffect.t,
       Guard.nothing_to_outline w (OutlineEffect.selectedObject e) = true ->
       OutlineEffect.render P scene camera (w, e) = (Returned tt, (w, e))).
Proof.
  intros P scene camera w. unfold Guard.nothing_to_outline. split; intros e H.
  - unfold JumpFloodEffect.render.
    rewrite (bind_returned get_this _ (w, e) e (w, e) eq_refl).
    rewrite (bind_returned get_world _ (w, e) w (w, e) eq_refl).
    destruct (JumpFloodEffect.selectedObject e); [rewrite H |]; reflexivity.
  - unfold OutlineEffect.render.
    rewrite (bind_returned get_this _ (w, e) e (w, e) eq_refl).
    rewrite (bind_returned get_world _ (w, e) w (w, e) eq_refl).
    destruct (OutlineEffect.selectedObject e); [rewrite H |]; reflexivity.
Qed.

Lemma render_without_visible_selection_witness :
  JumpFloodEffect.render Examples.platform Examples.scene Examples.camera
    (Examples.world0_failing,
     JumpFloodEffect.with_selectedObject None Examples.jfe0)
  = (Returned tt,
     (Examples.world0_failing,
      JumpFloodEffect.with_selectedObject None Examples.jfe0)) /\
  OutlineEffect.render Examples.platform Examples.scene Examples.camera
    (Examples.world0_failing,
     OutlineEffect.with_selectedObject None Examples.outline0)
  = (Returned tt,
     (Examples.world0_failing,
      OutlineEffect.with_selectedObject None Examples.outline0)).
Proof.
  destruct (render_without_visible_selection Examples.platform
              Examples.scene Examples.camera Examples.world0_failing)
    as [Hj Ho].
  split; [apply Hj | apply Ho]; reflexivity.
Defined.

(** *** The reach of the dilation *)

Section Reach.
Import Dilation Morphology.

Lemma Qmax_cases (x y : Q) : Qmax x y = x \/ Qmax x y = y.
Proof.
  unfold Qmax, GenericMinMax.gmax. destruct (x ?= y); auto.
Qed.

(** The filter takes its value from the texel or from one of its
    neighbours inside the raster. *)
Lemma max4_attained (W H : Z) (f : Z -> Z -> Q) (x y : Z) :
  (0 <= x < W)%Z -> (0 <= y < H)%Z ->
  exists x' y',
    (0 <= x' < W)%Z /\ (0 <= y' < H)%Z /\
    (manhattan x y x' y' <= 1)%Z /\ max4 W H f x y = f x' y'.
Proof.
  intros Hx Hy. unfold max4, manhattan, clampZ.
  destruct (Qmax_cases (f x y)
              (Qmax (f (Z.min (Z.max (x + 1) 0) (W - 1)) y)
                 (Qmax (f (Z.min (Z.max (x - 1) 0) (W - 1)) y)
                    (Qmax (f x (Z.min (Z.max (y + 1) 0) (H - 1)))
                          (f x (Z.min (Z.max (y - 1) 0) (H - 1)))))))
    as [E | E]; rewrite E; clear E; [exists x, y; repeat split; lia |].
  destruct (Qmax_cases (f (Z.min (Z.max (x + 1) 0) (W - 1)) y)
              (Qmax (f (Z.min (Z.max (x - 1) 0) (W - 1)) y)
                 (Qmax (f x (Z.min (Z.max (y + 1) 0) (H - 1)))
                       (f x (Z.min (Z.max (y - 1) 0) (H - 1))))))
    as [E | E]; rewrite E; clear E;
    [exists (Z.min (Z.max (x + 1) 0) (W - 1)), y; repeat split; lia |].
  destruct (Qmax_cases (f (Z.min (Z.max (x - 1) 0) (W - 1)) y)
              (Qmax (f x (Z.min (Z.max (y + 1) 0) (H - 1)))
                    (f x (Z.min (Z.max (y - 1) 0) (H - 1)))))
    as [E | E]; rewrite E; clear E;
    [exists (Z.min (Z.max (x - 1) 0) (W - 1)), y; repeat split; lia |].
  destruct (Qmax_cases (f x (Z.min (Z.max (y + 1) 0) (H - 1)))
                       (f x (Z.min (Z.max (y - 1) 0) (H - 1))))
    as [E | E]; rewrite E; clear E.
  - exists x, (Z.min (Z.max (y + 1) 0) (H - 1)); repeat split; lia.
  - exists x, (Z.min (Z.max (y - 1) 0) (H - 1)); repeat split; lia.
Qed.

(** The filter dominates the four neighbours inside the raster. *)
Lemma max4_neighbors (W H : Z) (f : Z -> Z -> Q) (x y : Z) :
  (0 <= x < W)%Z -> (0 <= y < H)%Z ->
  ((x + 1 < W)%Z -> f (x + 1)%Z y <= max4 W H f x y) /\
  ((0 <= x - 1)%Z -> f (x - 1)%Z y <= max4 W H f x y) /\
  ((y + 1 < H)%Z -> f x (y + 1)%Z <= max4 W H f x y) /\
  ((0 <= y - 1)%Z -> f x (y - 1)%Z <= max4 W H f x y).
Proof.
  intros Hx Hy. unfold max4.
  repeat split; intros Hin.
  - rewrite (clampZ_id (x + 1) (W - 1)) by lia.
    eapply Qle_trans; [| apply Q.le_max_r]. apply Q.le_max_l.
  - rewrite (clampZ_id (x - 1) (W - 1)) by lia.
    eapply Qle_trans; [| apply Q.le_max_r].
    eapply Qle_trans; [| apply Q.le_max_r]. apply Q.le_max_l.
  - rewrite (clampZ_id (y + 1) (H - 1)) by lia.
    eapply Qle_trans; [| apply Q.le_max_r].
    eapply Qle_trans; [| apply Q.le_max_r].
    eapply Qle_trans; [| apply Q.le_max_r]. apply Q.le_max_l.
  - rewrite (clampZ_id (y - 1) (H - 1)) by lia.
    eapply Qle_trans; [| apply Q.le_max_r].
    eapply Qle_trans; [| apply Q.le_max_r].
    eapply Qle_trans; [| apply Q.le_max_r]. apply Q.le_max_r.
Qed.

Lemma iter_max4_attained (W H : Z) (f : Z -> Z -> Q) (n : nat) :
  forall x y, (0 <= x < W)%Z -> (0 <= y < H)%Z ->
  exists x' y',
    (0 <= x' < W)%Z /\ (0 <= y' < H)%Z /\
    (manhattan x y x' y' <= Z.of_nat n)%Z /\
    Nat.iter n (max4 W H) f x y = f x' y'.
Proof.
  induction n as [| n IH]; intros x y Hx Hy.
  - exists x, y. unfold manhattan. cbn. repeat split; lia.
  - change (Nat.iter (S n) (max4 W H) f)
      with (max4 W H (Nat.iter n (max4 W H) f)).
    destruct (max4_attained W H (Nat.iter n (max4 W H) f) x y Hx Hy)
      as [x1 [y1 [Hx1 [Hy1 [Hd1 E1]]]]].
    destruct (IH x1 y1 Hx1 Hy1) as [x2 [y2 [Hx2 [Hy2 [Hd2 E2]]]]].
    exists x2, y2. rewrite E1, E2. unfold manhattan in *.
    repeat split; lia.
Qed.

Lemma iter_max4_reaches (W H : Z) (f : Z -> Z -> Q) (n : nat) :
  forall x y x' y',
    (0 <= x < W)%Z -> (0 <= y < H)%Z ->
    (0 <= x' < W)%Z -> (0 <= y' < H)%Z ->
    (manhattan x y x' y' <= Z.of_nat n)%Z ->
    f x' y' <= Nat.iter n (max4 W H) f x y.
Proof.
  induction n as [| n IH]; intros x y x' y' Hx Hy Hx' Hy' Hd.
  - unfold manhattan in Hd. assert (x' = x) by lia. assert (y' = y) by lia.
    subst. cbn. apply Qle_refl.
  - change (Nat.iter (S n) (max4 W H) f)
      with (max4 W H (Nat.iter n (max4 W H) f)).
    destruct (max4_neighbors W H (Nat.iter n (max4 W H) f) x y Hx Hy)
      as [Hr [Hl [Hu Hdn]]].
    unfold manhattan in *.
    destruct (Z.lt_total x x') as [Hlt | [Heq | Hgt]].
    + eapply Qle_trans; [| apply Hr; lia].
      apply IH; unfold manhattan; lia.
    + destruct (Z.lt_total y y') as [Hlt | [Heq' | Hgt]].
      * eapply Qle_trans; [| apply Hu; lia].
        apply IH; unfold manhattan; lia.
      * subst. eapply Qle_trans; [| apply max4_ge].
        apply IH; unfold manhattan; lia.
      * eapply Qle_trans; [| apply Hdn; lia].
        apply IH; unfold manhattan; lia.
    + eapply Qle_trans; [| apply Hl; lia].
      apply IH; unfold manhattan; lia.
Qed.

Lemma dilate_pass_size (s : sampler2D) (n : nat) :
  tex_width (Nat.iter n dilate_pass s) = tex_width s /\
  tex_height (Nat.iter n dilate_pass s) = tex_height s.
Proof.
  induction n as [| n [IHw IHh]]; [split; reflexivity |].
  change (Nat.iter (S n) dilate_pass s)
    with (dilate_pass (Nat.iter n dilate_pass s)).
  split; [exact IHw | exact IHh].
Qed.

Lemma dilate_pass_texel (s : sampler2D) (x y : Z) :
  (0 <= x < tex_width s)%Z -> (0 <= y < tex_height s)%Z ->
  r (texel (dilate_pass s) x y)
  = max4 (tex_width s) (tex_height s) (mask_values s) x y.
Proof.
  intros Hx Hy. unfold dilate_pass, GL.draw. cbn [texel].
  assert (Hin : in_bounds s (x, y) = true) by (apply in_bounds_range; lia).
  rewrite Hin. cbn [andb GL.everywhere].
  rewrite dilate_fragment; try lia; try exact Hin.
  - reflexivity.
  - assert (Hw : inject_Z 0 < inject_Z (tex_width s))
      by (rewrite <- Zlt_Qlt; lia).
    change (inject_Z 0) with 0 in Hw. field. lra.
  - assert (Hh : inject_Z 0 < inject_Z (tex_height s))
      by (rewrite <- Zlt_Qlt; lia).
    change (inject_Z 0) with 0 in Hh. field. lra.
Qed.

Lemma iter_dilate_pass_values (s : sampler2D) (n : nat) :
  forall x y, (0 <= x < tex_width s)%Z -> (0 <= y < tex_height s)%Z ->
    r (texel (Nat.iter n dilate_pass s) x y)
    = Nat.iter n (max4 (tex_width s) (tex_height s)) (mask_values s) x y.
Proof.
  induction n as [| n IH]; intros x y Hx Hy; [reflexivity |].
  change (Nat.iter (S n) dilate_pass s)
    with (dilate_pass (Nat.iter n dilate_pass s)).
  change (Nat.iter (S n) (max4 (tex_width s) (tex_height s)) (mask_values s))
    with (max4 (tex_width s) (tex_height s)
            (Nat.iter n (max4 (tex_width s) (tex_height s)) (mask_values s))).
  destruct (dilate_pass_size s n) as [Ew Eh].
  rewrite dilate_pass_texel by (rewrite ?Ew, ?Eh; assumption).
  rewrite Ew, Eh.
  apply max4_ext; try lia.
  intros x1 y1 Hx1 Hy1. unfold mask_values at 1. apply IH; assumption.
Qed.

End Reach.

(** X4.  The dilation of [OutlineEffect] grows the mask by one texel per
    pass in the city-block metric: after [n] passes a texel holds the
    largest value that the original mask has within city-block distance
    [n] of it inside the raster.  It is at least every such value, and
    it is one of them. *)
Theorem dilation_reaches_manhattan_ball :
  forall (s : sampler2D) (n : nat) (x y : Z),
    in_bounds s (x, y) = true ->
    (forall x' y',
       in_bounds s (x', y') = true ->
       (Morphology.manhattan x y x' y' <= Z.of_nat n)%Z ->
       r (texel s x' y')
       <= r (texel (Nat.iter n Morphology.dilate_pass s) x y)) /\
    (exists x' y',
       in_bounds s (x', y') = true /\
       (Morphology.manhattan x y x' y' <= Z.of_nat n)%Z /\
       r (texel (Nat.iter n Morphology.dilate_pass s) x y)
       = r (texel s x' y')).
Proof.
  intros s n x y Hin. apply in_bounds_range in Hin. destruct Hin as [Hx Hy].
  rewrite (iter_dilate_pass_values s n x y Hx Hy). split.
  - intros x' y' Hin' Hd. apply in_bounds_range in Hin'.
    destruct Hin' as [Hx' Hy'].
    exact (iter_max4_reaches (tex_width s) (tex_height s)
             (Dilation.mask_values s) n x y x' y' Hx Hy Hx' Hy' Hd).
  - destruct (iter_max4_attained (tex_width s) (tex_height s)
                (Dilation.mask_values s) n x y Hx Hy)
      as [x' [y' [Hx' [Hy' [Hd E]]]]].
    exists x', y'. split; [apply in_bounds_range; split; assumption |].
    split; [exact Hd | exact E].
Qed.

Lemma dilation_reaches_manhattan_ball_witness :
  r (texel Examples.dot_mask 1 1)
  <= r (texel (Nat.iter 1 Morphology.dilate_pass Examples.dot_mask) 1 0).
Proof.
  destruct (dilation_reaches_manhattan_ball Examples.dot_mask 1 1 0 eq_refl)
    as [Hle _].
  apply (Hle 1%Z 1%Z); [reflexivity | vm_compute; discriminate].
Defined.

(** X5.  What the composite pass of [OutlineEffect] does to a pixel: the
    fragment is never discarded; blended over the pixel (the material is
    transparent with normal blending), it replaces the pixel by the
    outline colour with alpha 1 where the dilated mask is set and the
    original mask is not, and leaves the pixel as it is everywhere
    else. *)
Theorem composite_pass_paints_ring_only :
  forall (dilated original : sampler2D) (color : vec3) (vUv : Q * Q)
         (dst : vec4),
    let d := r (texture2D dilated vUv) in
    let o := r (texture2D original vUv) in
    exists c : vec4,
      CompositeOutlineMaterial.fragmentShader dilated original color vUv
        = Some c /\
      let out := GL.normal_blend c dst in
      if Dilation.dilated_and_not_original d o
      then r out == v3x color /\ g out == v3y color /\
           b out == v3z color /\ a out == 1
      else r out == r dst /\ g out == g dst /\
           b out == b dst /\ a out == a dst.
Proof.
  intros dilated original color vUv dst d o.
  eexists. split; [reflexivity |].
  cbv zeta. unfold GL.normal_blend. cbn [r g b a].
  fold d o.
  pose proof (composite_outline_value d o) as Hv.
  destruct (Dilation.dilated_and_not_original d o);
    repeat split; rewrite Hv; ring.
Qed.

(** *** Marking the selection on the outline layer *)

Section LayerBits.
Import Layers OutlineSelection.

Lemma int32_bits (x i : Z) :
  (0 <= i < 32)%Z -> Z.testbit (int32 x) i = Z.testbit x i.
Proof.
  intros Hi.
  rewrite <- (Z.mod_pow2_bits_low (int32 x) 32 i) by lia.
  rewrite <- (Z.mod_pow2_bits_low x 32 i) by lia.
  f_equal. unfold int32.
  rewrite Zminus_mod, Zmod_mod, <- Zminus_mod.
  f_equal. ring.
Qed.

Lemma outline_bit : channel_bit OutlineEffect.OUTLINE_LAYER = 2%Z.
Proof. reflexivity. Qed.

Lemma enable_bits (m i : Z) :
  (0 <= i < 32)%Z ->
  Z.testbit (enable m OutlineEffect.OUTLINE_LAYER) i
  = if (i =? 1)%Z then true else Z.testbit m i.
Proof.
  intros Hi. unfold enable. rewrite int32_bits by exact Hi.
  rewrite outline_bit, Z.lor_spec.
  change 2%Z with (2 ^ 1)%Z. rewrite Z.pow2_bits_eqb by lia.
  rewrite (Z.eqb_sym 1 i). destruct (i =? 1)%Z.
  - apply orb_true_r.
  - apply orb_false_r.
Qed.

Lemma disable_bits (m i : Z) :
  (0 <= i < 32)%Z ->
  Z.testbit (disable m OutlineEffect.OUTLINE_LAYER) i
  = if (i =? 1)%Z then false else Z.testbit m i.
Proof.
  intros Hi. unfold disable. rewrite int32_bits by exact Hi.
  rewrite outline_bit, Z.land_spec, Z.lnot_spec by lia.
  change 2%Z with (2 ^ 1)%Z. rewrite Z.pow2_bits_eqb by lia.
  rewrite (Z.eqb_sym 1 i). destruct (i =? 1)%Z.
  - apply andb_false_r.
  - apply andb_true_r.
Qed.

Lemma isEnabled_bit (m : Z) :
  isEnabled m OutlineEffect.OUTLINE_LAYER = Z.testbit m 1.
Proof.
  unfold isEnabled. rewrite outline_bit.
  destruct (Z.testbit m 1) eqn:Hb.
  - destruct (Z.eqb_spec (Z.land m 2) 0) as [E | _]; [| reflexivity].
    assert (Hbit : Z.testbit (Z.land m 2) 1 = true).
    { rewrite Z.land_spec, Hb. reflexivity. }
    rewrite E in Hbit. rewrite Z.bits_0 in Hbit. discriminate.
  - destruct (Z.eqb_spec (Z.land m 2) 0) as [_ | N]; [reflexivity |].
    exfalso. apply N. apply Z.bits_inj'. intros n Hn.
    rewrite Z.land_spec, Z.bits_0.
    change 2%Z with (2 ^ 1)%Z. rewrite Z.pow2_bits_eqb by lia.
    destruct (Z.eqb_spec 1 n) as [<- | _].
    + rewrite Hb. reflexivity.
    + apply andb_false_r.
Qed.

(** The bits of the masks after a traversal with an operation that sets
    bit 1 to [v] and keeps the others. *)
Lemma traverse_layers_bits (op : Z -> Z -> Z) (v : bool)
    (objs : nat -> Object3D) :
  (forall m i, (0 <= i < 32)%Z ->
     Z.testbit (op m OutlineEffect.OUTLINE_LAYER) i
     = if (i =? 1)%Z then v else Z.testbit m i) ->
  forall (trav : list nat) (layers : nat -> Z) (o : nat) (i : Z),
    (0 <= i < 32)%Z ->
    Z.testbit (traverse_layers op objs trav layers o) i
    = if existsb (Nat.eqb o) trav && isMesh (objs o) && (i =? 1)%Z
      then v else Z.testbit (layers o) i.
Proof.
  intros Hop trav. unfold traverse_layers.
  induction trav as [| child rest IH]; intros layers o i Hi;
    [reflexivity |].
  cbn [fold_left existsb]. rewrite IH by exact Hi.
  destruct (Nat.eqb_spec o child) as [-> | Hne].
  - cbn [orb]. destruct (isMesh (objs child)) eqn:Hm.
    + rewrite upd_same, Hop by exact Hi.
      rewrite andb_true_r. cbn [andb].
      destruct (i =? 1)%Z.
      * destruct (existsb (Nat.eqb child) rest); reflexivity.
      * rewrite !andb_false_r. reflexivity.
    + rewrite !andb_false_r. reflexivity.
  - cbn [orb]. destruct (isMesh (objs child)).
    + rewrite upd_other by exact Hne. reflexivity.
    + reflexivity.
Qed.

End LayerBits.

(** X6.  [OutlineEffect.setSelection] and [clearSelection] only ever
    touch the outline channel of the layer masks: after [setSelection]
    the object is recorded and each of its meshes has the channel
    enabled; after [clearSelection] nothing is recorded and each mesh of
    the former selection has it disabled; and every other channel of
    every object (its membership of the default layer included) is as
    before. *)
Theorem selection_marks_outline_layer_only :
  forall (objs : nat -> Object3D) (this : OutlineEffect.t)
         (layers : nat -> Z) (selected : Selection),
    let set := OutlineSelection.setSelection objs (Some selected)
                 (this, layers) in
    let cleared := OutlineSelection.clearSelection objs set in
    OutlineEffect.selectedObject (fst set) = Some selected /\
    OutlineEffect.selectedObject (fst cleared) = None /\
    (forall o,
       OutlineSelection.mesh_of objs selected o = true ->
       Layers.isEnabled (snd set o) OutlineEffect.OUTLINE_LAYER = true /\
       Layers.isEnabled (snd cleared o) OutlineEffect.OUTLINE_LAYER = false)
    /\
    (forall o i,
       (0 <= i < 32)%Z -> i <> OutlineEffect.OUTLINE_LAYER ->
       Z.testbit (snd set o) i = Z.testbit (layers o) i /\
       Z.testbit (snd cleared o) i = Z.testbit (layers o) i).
Proof.
  intros objs this layers selected.
  unfold OutlineSelection.setSelection, OutlineSelection.clearSelection.
  cbn [fst snd OutlineEffect.selectedObject
       OutlineEffect.with_selectedObject].
  set (l0 := match OutlineEffect.selectedObject this with
             | Some s0 =>
                 OutlineSelection.traverse_layers Layers.disable objs
                   (sel_traversal s0) layers
             | None => layers
             end).
  assert (H0 : forall o i, (0 <= i < 32)%Z -> i <> 1%Z ->
                 Z.testbit (l0 o) i = Z.testbit (layers o) i).
  { intros o i Hi Hne. unfold l0.
    destruct (OutlineEffect.selectedObject this) as [s0 |]; [| reflexivity].
    rewrite (traverse_layers_bits Layers.disable false objs disable_bits)
      by exact Hi.
    destruct (Z.eqb_spec i 1) as [E | _]; [contradiction |].
    rewrite andb_false_r. reflexivity. }
  split; [reflexivity |]. split; [reflexivity |]. split.
  - intros o Hm. unfold OutlineSelection.mesh_of in Hm.
    rewrite !isEnabled_bit.
    rewrite (traverse_layers_bits Layers.disable false objs disable_bits)
      by lia.
    rewrite (traverse_layers_bits Layers.enable true objs enable_bits)
      by lia.
    rewrite Hm. split; reflexivity.
  - intros o i Hi Hne. change OutlineEffect.OUTLINE_LAYER with 1%Z in Hne.
    rewrite (traverse_layers_bits Layers.disable false objs disable_bits)
      by exact Hi.
    rewrite (traverse_layers_bits Layers.enable true objs enable_bits)
      by exact Hi.
    destruct (Z.eqb_spec i 1) as [E | _]; [contradiction |].
    rewrite !andb_false_r. split; apply H0; assumption.
Qed.

Lemma selection_marks_outline_layer_only_witness :
  let set := OutlineSelection.setSelection Examples.objects0
               (Some Examples.selection)
               (Examples.outline0, fun _ => 1%Z) in
  Layers.isEnabled (snd set 1%nat) OutlineEffect.OUTLINE_LAYER = true /\
  Z.testbit (snd set 1%nat) 0 = true.
Proof.
  destruct (selection_marks_outline_layer_only Examples.objects0
              Examples.outline0 (fun _ => 1%Z) Examples.selection)
    as [_ [_ [Hm Hb]]].
  split.
  - exact (proj1 (Hm 1%nat eq_refl)).
  - rewrite (proj1 (Hb 1%nat 0%Z ltac:(lia) ltac:(discriminate))).
    reflexivity.
Defined.

(** ** Further properties of [JumpFloodEffect] *)

(** *** The stages of [render] when no call throws *)

Section Stages.
Import Visibility FrameLog.
Variable P : Platform.

Lemma bind_assoc {E A B C} (c : M E A) (k : A -> M E B) (k' : B -> M E C)
    (s : World * E) :
  bind (bind c k) k' s = bind c (fun v => bind (k v) k') s.
Proof. unfold bind. destruct (c s) as [[v |] s']; reflexivity. Qed.

Lemma mask_stage_run (scene : Scene) (camera : Camera)
    (selected : Selection) (thickness : Q) (w : World)
    (e : JumpFloodEffect.t) :
  faults w = [] ->
  let m0 := JumpFloodEffect.at_index (JumpFloodEffect.masks e) 0 in
  let m1 := JumpFloodEffect.at_index (JumpFloodEffect.masks e) 1 in
  let t0 := targets_heap w
              (JumpFloodEffect.at_index (JumpFloodEffect.targets e) 0) in
  let mw := Z.max (Qfloor (width t0 / thickness)) 3 in
  let mh := Z.max (Qfloor (height t0 / thickness)) 3 in
  let hidden := hide_objs (scene_traversal scene) (objects w) [] in
  exists w',
    JumpFloodEffect.mask_stage P scene camera selected thickness (w, e)
      = (Returned (snd hidden), (w', e)) /\
    faults w' = [] /\
    calls w' = calls w ++ [mkCall (Some m0) ClearPass;
                           mkCall (Some m0) (ScenePass (Some maskMaterial))]
    /\
    objects w' = restore_objs (snd hidden)
                   (show_objs (sel_traversal selected) (fst hidden)) /\
    renderer w' = rd_renderTarget (Some m0)
                    (rd_clearColor (mkColor 0 0 0) 0 (renderer w)) /\
    overrideMaterial w' = None /\
    (forall tg, tg = m0 \/ tg = m1 ->
       tex_width (texture (targets_heap w' tg)) = mw /\
       tex_height (texture (targets_heap w' tg)) = mh) /\
    (forall tg, tg <> m0 -> tg <> m1 ->
       targets_heap w' tg = targets_heap w tg).
Proof.
  intros Hf m0 m1 t0 mw mh hidden.
  destruct w as [rd heap scr objs om bg env lm fl cs]. cbn in Hf. subst fl.
  destruct rd as [ac cc ca st sc rt pr sz].
  unfold JumpFloodEffect.mask_stage. frame_step.
  rewrite hide_all_run. frame_step.
  rewrite show_all_run. frame_step.
  rewrite restore_all_run. frame_step.
  eexists. split; [reflexivity |].
  cbn [faults calls objects renderer overrideMaterial targets_heap].
  fold m0 m1.
  split; [reflexivity |].
  split; [rewrite <- app_assoc; reflexivity |].
  split; [reflexivity |]. split; [reflexivity |]. split; [reflexivity |].
  split.
  - intros tg Htg.
    assert (Hsz : forall tg', tg' = m0 \/ tg' = m1 ->
              tex_width (texture
                 (upd (upd heap m0
                         (target_setSize (inject_Z mw) (inject_Z mh)
                            (heap m0)))
                      m1
                      (target_setSize (inject_Z mw) (inject_Z mh)
                         (upd heap m0
                            (target_setSize (inject_Z mw) (inject_Z mh)
                               (heap m0)) m1)) tg')) = mw /\
              tex_height (texture
                 (upd (upd heap m0
                         (target_setSize (inject_Z mw) (inject_Z mh)
                            (heap m0)))
                      m1
                      (target_setSize (inject_Z mw) (inject_Z mh)
                         (upd heap m0
                            (target_setSize (inject_Z mw) (inject_Z mh)
                               (heap m0)) m1)) tg')) = mh).
    { intros tg' Htg'.
      destruct (Nat.eqb_spec tg' m1) as [-> | N1].
      - rewrite upd_same. unfold target_setSize.
        cbn [texture tex_width tex_height]. rewrite !Qfloor_Z.
        split; reflexivity.
      - destruct Htg' as [-> | ->]; [| contradiction].
        rewrite upd_other by exact N1. rewrite upd_same.
        unfold target_setSize.
        cbn [texture tex_width tex_height]. rewrite !Qfloor_Z.
        split; reflexivity. }
    destruct (Nat.eqb_spec tg m0) as [-> | N0].
    + rewrite !upd_same. cbn [texture tex_width tex_height GL.draw].
      apply Hsz. left. reflexivity.
    + rewrite !(upd_other _ m0 tg) by exact N0.
      apply Hsz. exact Htg.
  - intros tg N0 N1. rewrite !upd_other by assumption. reflexivity.
Qed.

Lemma expand_iteration_run (i : nat) (w : World) (e : JumpFloodEffect.t) :
  faults w = [] ->
  let m0 := JumpFloodEffect.at_index (JumpFloodEffect.masks e) 0 in
  let m1 := JumpFloodEffect.at_index (JumpFloodEffect.masks e) 1 in
  exists w',
    JumpFloodEffect.expand_iteration P i (w, e)
      = (Returned tt,
         (w', JumpFloodEffect.with_masks (rev (JumpFloodEffect.masks e))
                (JumpFloodEffect.with_expandQuad
                   (JumpFloodEffect.mkExpandU (Some m0)) e))) /\
    faults w' = [] /\
    calls w' = calls w ++ [mkCall (Some m1) (ExpandPass (Some m0))] /\
    objects w' = objects w /\
    renderer w' = rd_renderTarget (Some m1) (renderer w) /\
    overrideMaterial w' = overrideMaterial w /\
    screen w' = screen w /\
    targets_heap w' =
      upd (targets_heap w) m1
        (mkTarget (width (targets_heap w m1)) (height (targets_heap w m1))
           (GL.draw (autoClear (renderer w)) (clearTexel (renderer w))
              (active P (renderer w)) GL.overwrite
              (ExpandMaskMaterial.fragmentShader
                 (texture (targets_heap w m0)))
              (texture (targets_heap w m1)))).
Proof.
  intros Hf m0 m1.
  destruct w as [rd heap scr objs om bg env lm fl cs]. cbn in Hf. subst fl.
  destruct rd as [ac cc ca st sc rt pr sz].
  unfold JumpFloodEffect.expand_iteration, JumpFloodEffect.expandQuad_render.
  frame_step. eexists. split; [reflexivity |].
  cbn. repeat split; reflexivity.
Qed.

Lemma same_dims_refl (w : World) : same_dims w w.
Proof. intros tg. split; reflexivity. Qed.

Lemma same_dims_trans (w1 w2 w3 : World) :
  same_dims w1 w2 -> same_dims w2 w3 -> same_dims w1 w3.
Proof.
  intros H12 H23 tg. destruct (H12 tg) as [A B]. destruct (H23 tg) as [C D].
  split; congruence.
Qed.

(** A draw keeps the size of the target it lands on. *)
Lemma same_dims_store (w w' : World) (k : nat) (img : sampler2D) :
  targets_heap w' =
    upd (targets_heap w) k
      (mkTarget (width (targets_heap w k)) (height (targets_heap w k)) img) ->
  same_dims w w'.
Proof.
  intros H tg. rewrite H. unfold upd.
  destruct (Nat.eqb_spec tg k) as [-> | _]; split; reflexivity.
Qed.

Lemma expand_stage_run (w : World) (e : JumpFloodEffect.t) (m0 m1 : nat) :
  faults w = [] ->
  JumpFloodEffect.masks e = [m0; m1] ->
  exists w' e',
    JumpFloodEffect.expand_stage P (w, e) = (Returned tt, (w', e')) /\
    faults w' = [] /\
    calls w' = calls w ++ [mkCall (Some m1) (ExpandPass (Some m0));
                           mkCall (Some m0) (ExpandPass (Some m1));
                           mkCall (Some m1) (ExpandPass (Some m0));
                           mkCall (Some m0) (ExpandPass (Some m1))] /\
    objects w' = objects w /\
    renderer w' = rd_renderTarget (Some m0) (renderer w) /\
    overrideMaterial w' = overrideMaterial w /\
    same_dims w w' /\
    JumpFloodEffect.masks e' = [m1; m0] /\
    JumpFloodEffect.targets e' = JumpFloodEffect.targets e /\
    JumpFloodEffect.thickness e' = JumpFloodEffect.thickness e /\
    JumpFloodEffect.inside e' = JumpFloodEffect.inside e /\
    JumpFloodEffect.seedQuad_negative e'
      = JumpFloodEffect.seedQuad_negative e /\
    JumpFloodEffect.effectQuad e' = JumpFloodEffect.effectQuad e.
Proof.
  intros Hf Hm.
  unfold JumpFloodEffect.expand_stage.
  cbn [for_loop].
  rewrite !bind_assoc.
  destruct (expand_iteration_run 0 w e Hf)
    as [w1 [R1 [F1 [C1 [O1 [Rd1 [M1 [_ H1]]]]]]]].
  rewrite (bind_returned _ _ _ _ _ R1). cbv beta. rewrite ?bind_assoc.
  match type of R1 with _ = (_, (_, ?x)) => set (e1 := x) in * end.
  destruct (expand_iteration_run 1 w1 e1 F1)
    as [w2 [R2 [F2 [C2 [O2 [Rd2 [M2 [_ H2]]]]]]]].
  rewrite (bind_returned _ _ _ _ _ R2). cbv beta. rewrite ?bind_assoc.
  match type of R2 with _ = (_, (_, ?x)) => set (e2 := x) in * end.
  destruct (expand_iteration_run 2 w2 e2 F2)
    as [w3 [R3 [F3 [C3 [O3 [Rd3 [M3 [_ H3]]]]]]]].
  rewrite (bind_returned _ _ _ _ _ R3). cbv beta. rewrite ?bind_assoc.
  match type of R3 with _ = (_, (_, ?x)) => set (e3 := x) in * end.
  destruct (expand_iteration_run 3 w3 e3 F3)
    as [w4 [R4 [F4 [C4 [O4 [Rd4 [M4 [_ H4]]]]]]]].
  rewrite (bind_returned _ _ _ _ _ R4). cbv beta. rewrite ?bind_assoc.
  match type of R4 with _ = (_, (_, ?x)) => set (e4 := x) in * end.
  assert (E1 : JumpFloodEffect.masks e1 = [m1; m0])
    by (subst e1; cbn; rewrite Hm; reflexivity).
  assert (E2 : JumpFloodEffect.masks e2 = [m0; m1])
    by (subst e2; cbn [JumpFloodEffect.masks JumpFloodEffect.with_masks];
        rewrite E1; reflexivity).
  assert (E3 : JumpFloodEffect.masks e3 = [m1; m0])
    by (subst e3; cbn [JumpFloodEffect.masks JumpFloodEffect.with_masks];
        rewrite E2; reflexivity).
  assert (E4 : JumpFloodEffect.masks e4 = [m0; m1])
    by (subst e4; cbn [JumpFloodEffect.masks JumpFloodEffect.with_masks];
        rewrite E3; reflexivity).
  rewrite Hm in C1, Rd1, H1. rewrite E1 in C2, Rd2, H2.
  rewrite E2 in C3, Rd3, H3. rewrite E3 in C4, Rd4, H4.
  cbn [JumpFloodEffect.at_index nth] in C1, C2, C3, C4, Rd1, Rd2, Rd3, Rd4,
    H1, H2, H3, H4.
  eexists. eexists. split; [reflexivity |].
  cbn [fst snd JumpFloodEffect.masks JumpFloodEffect.with_masks
       JumpFloodEffect.targets JumpFloodEffect.thickness
       JumpFloodEffect.inside JumpFloodEffect.seedQuad_negative
       JumpFloodEffect.effectQuad].
  split; [exact F4 |].
  split; [rewrite C4, C3, C2, C1, <- !app_assoc; reflexivity |].
  split; [congruence |].
  split; [rewrite Rd4, Rd3, Rd2, Rd1; reflexivity |].
  split; [congruence |].
  split.
  { eapply same_dims_trans; [eapply same_dims_trans;
      [eapply same_dims_trans |] |];
      eapply same_dims_store; eassumption. }
  split; [rewrite E4; reflexivity |].
  subst e4 e3 e2 e1. cbn. repeat split; reflexivity.
Qed.

Lemma scissor_stage_run (camera : Camera) (selected : Selection)
    (thickness : Q) (w : World) (e : JumpFloodEffect.t) :
  exists w' e' box,
    JumpFloodEffect.scissor_stage camera selected thickness (w, e)
      = (Returned tt, (w', e')) /\
    faults w' = faults w /\ calls w' = calls w /\
    objects w' = objects w /\
    renderer w' = rd_scissor box (rd_scissorTest true (renderer w)) /\
    overrideMaterial w' = overrideMaterial w /\
    targets_heap w' = targets_heap w /\
    JumpFloodEffect.masks e' = JumpFloodEffect.masks e /\
    JumpFloodEffect.targets e' = JumpFloodEffect.targets e /\
    JumpFloodEffect.thickness e' = JumpFloodEffect.thickness e /\
    JumpFloodEffect.inside e' = JumpFloodEffect.inside e /\
    JumpFloodEffect.seedQuad_negative e'
      = JumpFloodEffect.seedQuad_negative e /\
    JumpFloodEffect.effectQuad e' = JumpFloodEffect.effectQuad e.
Proof.
  destruct w as [rd heap scr objs om bg env lm fl cs].
  destruct rd as [ac cc ca st sc rt pr sz].
  unfold JumpFloodEffect.scissor_stage.
  rewrite (bind_returned get_this _ _ _ _ eq_refl).
  rewrite (bind_returned get_world _ _ _ _ eq_refl).
  destruct (JumpFloodEffect.scissor_region _ _ _ _ _ _ _) as [center delta].
  frame_step. eexists. eexists. eexists. split; [reflexivity |].
  cbn. repeat split; reflexivity.
Qed.

Lemma seed_stage_run (scene : Scene) (camera : Camera)
    (selected : Selection) (saved : list (nat * bool)) (w : World)
    (e : JumpFloodEffect.t) :
  faults w = [] ->
  let t0 := JumpFloodEffect.at_index (JumpFloodEffect.targets e) 0 in
  exists w' e',
    JumpFloodEffect.seed_stage P scene camera selected saved (w, e)
      = (Returned tt, (w', e')) /\
    faults w' = [] /\
    calls w' = calls w ++
      [mkCall (Some t0) (SeedPass (JumpFloodEffect.seedQuad_negative e));
       mkCall (Some t0) (ScenePass (Some seedMaterial))] /\
    objects w' = restore_objs saved
                   (show_objs (sel_traversal selected) (objects w)) /\
    renderer w' = rd_renderTarget None (rd_autoClear true (renderer w)) /\
    overrideMaterial w' = None /\
    same_dims w w' /\
    JumpFloodEffect.masks e' = JumpFloodEffect.masks e /\
    JumpFloodEffect.targets e' = JumpFloodEffect.targets e /\
    JumpFloodEffect.thickness e' = JumpFloodEffect.thickness e /\
    JumpFloodEffect.inside e' = JumpFloodEffect.inside e /\
    JumpFloodEffect.effectQuad e' = JumpFloodEffect.effectQuad e.
Proof.
  intros Hf t0.
  destruct w as [rd heap scr objs om bg env lm fl cs]. cbn in Hf. subst fl.
  destruct rd as [ac cc ca st sc rt pr sz].
  unfold JumpFloodEffect.seed_stage, JumpFloodEffect.seedQuad_render.
  frame_step. rewrite show_all_run. frame_step.
  rewrite restore_all_run. frame_step.
  eexists. eexists. split; [reflexivity |].
  cbn [faults calls objects renderer overrideMaterial targets_heap
       JumpFloodEffect.masks JumpFloodEffect.targets
       JumpFloodEffect.thickness JumpFloodEffect.inside
       JumpFloodEffect.effectQuad
       JumpFloodEffect.with_seedMaterial_negative].
  fold t0.
  split; [reflexivity |].
  split; [rewrite <- app_assoc; reflexivity |].
  split; [reflexivity |]. split; [reflexivity |]. split; [reflexivity |].
  split.
  { intros tg. cbn [targets_heap].
    destruct (Nat.eqb_spec tg t0) as [-> | N].
    - rewrite !upd_same. cbn [width height]. split; reflexivity.
    - rewrite !upd_other by exact N. split; reflexivity. }
  repeat split; reflexivity.
Qed.

Lemma composite_stage_run (thickness : Q) (ac0 : bool) (cc0 : Color)
    (ca0 : Q) (w : World) (e : JumpFloodEffect.t) :
  faults w = [] ->
  let map := JumpFloodEffect.at_index (JumpFloodEffect.targets e) 0 in
  exists w' e',
    JumpFloodEffect.composite_stage P thickness ac0 cc0 ca0 (w, e)
      = (Returned tt, (w', e')) /\
    faults w' = [] /\
    calls w' = calls w ++
      [mkCall None
         (EffectPass (Some map) thickness
            (EffectMaterial.set_inside (JumpFloodEffect.inside e)))] /\
    objects w' = objects w /\
    renderer w' =
      rd_clearColor cc0 ca0
        (rd_scissorTest false
           (rd_autoClear ac0 (rd_renderTarget None (renderer w)))) /\
    overrideMaterial w' = overrideMaterial w.
Proof.
  intros Hf map.
  destruct w as [rd heap scr objs om bg env lm fl cs]. cbn in Hf. subst fl.
  destruct rd as [ac cc ca st sc rt pr sz].
  unfold JumpFloodEffect.composite_stage, JumpFloodEffect.effectQuad_render.
  frame_step. eexists. eexists. split; [reflexivity |].
  cbn. repeat split; reflexivity.
Qed.

Lemma jfa_iteration_step (step : Q) (w : World) (e : JumpFloodEffect.t) :
  faults w = [] ->
  let t0 := JumpFloodEffect.at_index (JumpFloodEffect.targets e) 0 in
  let t1 := JumpFloodEffect.at_index (JumpFloodEffect.targets e) 1 in
  let m1 := JumpFloodEffect.at_index (JumpFloodEffect.masks e) 1 in
  exists w',
    JumpFloodEffect.jfa_iteration P step (w, e)
      = (Returned tt,
         (w', JumpFloodEffect.with_targets (rev (JumpFloodEffect.targets e))
                (JumpFloodEffect.with_jfaQuad
                   (JumpFloodEffect.mkJFAU (Some t0) (Some m1) step) e))) /\
    faults w' = [] /\
    calls w' = calls w ++ [mkCall (Some t1) (JFAPass (Some t0) (Some m1) step)]
    /\ objects w' = objects w /\
    renderer w' = rd_renderTarget None (renderer w) /\
    overrideMaterial w' = overrideMaterial w /\
    same_dims w w'.
Proof.
  intros Hf t0 t1 m1.
  destruct w as [rd heap scr objs om bg env lm fl cs]. cbn in Hf. subst fl.
  destruct rd as [ac cc ca st sc rt pr sz].
  unfold JumpFloodEffect.jfa_iteration, JumpFloodEffect.jfaQuad_render.
  frame_step. eexists. split; [reflexivity |].
  cbn [faults calls objects renderer overrideMaterial]. fold t0 t1 m1.
  repeat split; try reflexivity.
  - cbn [targets_heap]. destruct (Nat.eqb_spec tg t1) as [-> | N].
    + rewrite upd_same. reflexivity.
    + rewrite upd_other by exact N. reflexivity.
  - cbn [targets_heap]. destruct (Nat.eqb_spec tg t1) as [-> | N].
    + rewrite upd_same. reflexivity.
    + rewrite upd_other by exact N. reflexivity.
Qed.

(** The flood loop ping-pongs between the two buffers. *)
Lemma jfa_loop_pingpong (step : Q) (w : World) (e : JumpFloodEffect.t)
    (t0 t1 : nat) :
  faults w = [] ->
  JumpFloodEffect.targets e = [t0; t1] ->
  exists w' e' ran,
    JumpFloodEffect.jfa_loop P step (w, e) = (Returned tt, (w', e')) /\
    faults w' = [] /\
    FloodSchedule.schedule step ran /\
    calls w' = calls w ++
      pingpong_calls (JumpFloodEffect.at_index (JumpFloodEffect.masks e) 1)
        t0 t1 ran /\
    objects w' = objects w /\
    renderer w' = rd_renderTarget None (renderer w) /\
    overrideMaterial w' = overrideMaterial w /\
    same_dims w w' /\
    JumpFloodEffect.targets e'
      = [pingpong_front t0 t1 ran; pingpong_front t1 t0 ran] /\
    JumpFloodEffect.masks e' = JumpFloodEffect.masks e /\
    JumpFloodEffect.thickness e' = JumpFloodEffect.thickness e /\
    JumpFloodEffect.inside e' = JumpFloodEffect.inside e /\
    JumpFloodEffect.effectQuad e' = JumpFloodEffect.effectQuad e.
Proof.
  remember (Z.to_nat (Qceiling step)) as n eqn:Hn.
  revert step w e t0 t1 Hn.
  induction n as [n IH] using lt_wf_ind. intros step w e t0 t1 Hn Hf Ht.
  rewrite jfa_loop_unfold.
  destruct (jfa_iteration_step step w e Hf)
    as [w1 [Hrun [Hf1 [Hc1 [Ho1 [Hr1 [Hom1 Hd1]]]]]]].
  match type of Hrun with _ = (_, (_, ?x)) => set (e1 := x) in * end.
  rewrite Ht in Hc1. cbn [JumpFloodEffect.at_index nth] in Hc1.
  assert (Ht1 : JumpFloodEffect.targets e1 = [t1; t0])
    by (subst e1; cbn; rewrite Ht; reflexivity).
  destruct (Qle_bool step 1) eqn:Hle.
  - exists w1, e1, [step]. rewrite Hrun.
    split; [reflexivity |]. split; [exact Hf1 |].
    split; [apply FloodSchedule.schedule_last; apply Qle_bool_iff; exact Hle |].
    split; [exact Hc1 |].
    split; [exact Ho1 |]. split; [exact Hr1 |]. split; [exact Hom1 |].
    split; [exact Hd1 |]. split; [exact Ht1 |].
    subst e1. cbn. repeat split; reflexivity.
  - assert (Hgt : 1 < step).
    { apply Qnot_le_lt. intros H. apply Qle_bool_iff in H. congruence. }
    pose proof (next_step_smaller step Hgt) as Hdec.
    destruct (IH (Z.to_nat (Qceiling (JumpFloodEffect.next_step step))))
      with (step := JumpFloodEffect.next_step step) (w := w1) (e := e1)
           (t0 := t1) (t1 := t0)
      as [w2 [e2 [ran [Hrun2 [Hf2 [Hsch [Hc2 [Ho2 [Hr2 [Hom2 [Hd2
            [Ht2 [Hm2 [Hth2 [Hi2 He2]]]]]]]]]]]]]]].
    { subst n. unfold JumpFloodEffect.next_step. rewrite Qceiling_Z. lia. }
    { reflexivity. }
    { exact Hf1. }
    { exact Ht1. }
    exists w2, e2, (step :: ran).
    rewrite (bind_returned _ _ _ _ _ Hrun). rewrite Hrun2.
    split; [reflexivity |]. split; [exact Hf2 |].
    split.
    { apply FloodSchedule.schedule_more; [exact Hgt |].
      rewrite <- next_step_halves. exact Hsch. }
    split.
    { rewrite Hc2, Hc1, <- app_assoc. reflexivity. }
    split; [congruence |].
    split; [rewrite Hr2, Hr1; reflexivity |].
    split; [congruence |].
    split; [eapply same_dims_trans; eassumption |].
    split; [exact Ht2 |].
    rewrite Hm2, Hth2, Hi2, He2. subst e1. cbn. repeat split; reflexivity.
Qed.

(** A whole frame when no call throws. *)
Lemma jfe_render_run (scene : Scene) (camera : Camera) (w : World)
    (e : JumpFloodEffect.t) (selected : Selection) (m0 m1 t0 t1 : nat) :
  faults w = [] ->
  JumpFloodEffect.selectedObject e = Some selected ->
  visible (objects w (sel_root selected)) = true ->
  JumpFloodEffect.masks e = [m0; m1] ->
  JumpFloodEffect.targets e = [t0; t1] ->
  t0 <> m0 -> t0 <> m1 ->
  let hidden := hide_objs (scene_traversal scene) (objects w) [] in
  let step0 :=
    JumpFloodEffect.initial_step (width (targets_heap w t0))
      (height (targets_heap w t0)) (JumpFloodEffect.thickness e) in
  exists w' e' ran,
    JumpFloodEffect.render P scene camera (w, e) = (Returned tt, (w', e')) /\
    faults w' = [] /\
    FloodSchedule.schedule step0 ran /\
    calls w' = calls w ++
      jfe_frame m0 m1 t0 t1 (JumpFloodEffect.seedQuad_negative e) ran
        (JumpFloodEffect.thickness e)
        (EffectMaterial.set_inside (JumpFloodEffect.inside e)) /\
    objects w' =
      restore_objs (snd hidden)
        (show_objs (sel_traversal selected)
           (restore_objs (snd hidden)
              (show_objs (sel_traversal selected) (fst hidden)))) /\
    autoClear (renderer w') = autoClear (renderer w) /\
    clearColor (renderer w') = clearColor (renderer w) /\
    clearAlpha (renderer w') = clearAlpha (renderer w) /\
    scissorTest (renderer w') = false /\
    renderTarget (renderer w') = None /\
    overrideMaterial w' = None.
Proof.
  intros Hf Hsel Hvis Hm Ht N0 N1 hidden step0.
  unfold JumpFloodEffect.render.
  rewrite (bind_returned get_this _ _ _ _ eq_refl).
  rewrite (bind_returned get_world _ _ _ _ eq_refl).
  cbn [fst snd]. rewrite Hsel, Hvis. cbn [negb].
  destruct (mask_stage_run scene camera selected
              (JumpFloodEffect.thickness e) w e Hf)
    as [w1 [R1 [F1 [C1 [O1 [Rd1 [Om1 [_ Hh1]]]]]]]].
  rewrite (bind_returned _ _ _ _ _ R1). cbv beta.
  destruct (expand_stage_run w1 e m0 m1 F1 Hm)
    as [w2 [e2 [R2 [F2 [C2 [O2 [Rd2 [Om2 [D2 [Hm2 [Ht2 [Hth2 [Hi2
          [Hs2 He2]]]]]]]]]]]]]].
  rewrite (bind_returned _ _ _ _ _ R2). cbv beta.
  destruct (scissor_stage_run camera selected
              (JumpFloodEffect.thickness e) w2 e2)
    as [w3 [e3 [box [R3 [F3 [C3 [O3 [Rd3 [Om3 [H3 [Hm3 [Ht3 [Hth3 [Hi3
          [Hs3 He3]]]]]]]]]]]]]]].
  rewrite (bind_returned _ _ _ _ _ R3). cbv beta.
  assert (F3' : faults w3 = []) by congruence.
  destruct (seed_stage_run scene camera selected (snd hidden) w3 e3 F3')
    as [w4 [e4 [R4 [F4 [C4 [O4 [Rd4 [Om4 [D4 [Hm4 [Ht4 [Hth4
          [Hi4 He4]]]]]]]]]]]]].
  rewrite (bind_returned _ _ _ _ _ R4). cbv beta.
  assert (Ht4' : JumpFloodEffect.targets e4 = [t0; t1]) by congruence.
  unfold JumpFloodEffect.flood_stage. rewrite bind_assoc.
  rewrite (bind_returned get_this _ _ _ _ eq_refl). rewrite bind_assoc.
  rewrite (bind_returned get_world _ _ _ _ eq_refl).
  cbn [fst snd].
  destruct (jfa_loop_pingpong
              (JumpFloodEffect.initial_step
                 (width (targets_heap w4
                    (JumpFloodEffect.at_index (JumpFloodEffect.targets e4) 0)))
                 (height (targets_heap w4
                    (JumpFloodEffect.at_index (JumpFloodEffect.targets e4) 0)))
                 (JumpFloodEffect.thickness e))
              w4 e4 t0 t1 F4 Ht4')
    as [w5 [e5 [ran [R5 [F5 [Sch [C5 [O5 [Rd5 [Om5 [D5 [Ht5 [Hm5 [Hth5
          [Hi5 He5]]]]]]]]]]]]]]].
  rewrite (bind_returned _ _ _ _ _ R5). cbv beta.
  destruct (composite_stage_run (JumpFloodEffect.thickness e)
              (autoClear (renderer w)) (clearColor (renderer w))
              (clearAlpha (renderer w)) w5 e5 F5)
    as [w6 [e6 [R6 [F6 [C6 [O6 [Rd6 Om6]]]]]]].
  exists w6, e6, ran. split; [exact R6 |]. split; [exact F6 |].
  (* the size of the first buffer is as at the start *)
  assert (Hdim : width (targets_heap w4 t0) = width (targets_heap w t0) /\
                 height (targets_heap w4 t0) = height (targets_heap w t0)).
  { destruct (D4 t0) as [A4 B4]. rewrite H3 in A4, B4.
    destruct (D2 t0) as [A2 B2].
    rewrite Hm in Hh1. cbn [JumpFloodEffect.at_index nth] in Hh1.
    rewrite (Hh1 t0 N0 N1) in A2, B2. split; congruence. }
  rewrite Ht4' in Sch. cbn [JumpFloodEffect.at_index nth] in Sch.
  destruct Hdim as [Ew Eh]. rewrite Ew, Eh in Sch.
  split; [exact Sch |].
  split.
  { rewrite C6, C5, C4, C3, C2, C1. unfold jfe_frame.
    rewrite Hm4, Hm3, Hm2, Ht5, Hi5, Hi4, Hi3, Hi2, Ht3, Ht2, Ht, Hm, Hs3, Hs2.
    cbn [JumpFloodEffect.at_index nth].
    rewrite <- !app_assoc. reflexivity. }
  split.
  { rewrite O6, O5, O4, O3, O2, O1. reflexivity. }
  rewrite Rd6, Rd5, Rd4, Rd3, Rd2, Rd1, Om6, Om5, Om4.
  destruct (renderer w); cbn. repeat split; reflexivity.
Qed.

End Stages.

Lemma pingpong_calls_last (mask : nat) (steps : list Q) :
  forall front back d,
    steps <> [] ->
    call_target (last (FrameLog.pingpong_calls mask front back steps) d)
    = Some (FrameLog.pingpong_front front back steps).
Proof.
  induction steps as [| s rest IH]; intros front back d Hne;
    [contradiction |].
  destruct rest as [| s' rest'].
  - reflexivity.
  - change (FrameLog.pingpong_calls mask front back (s :: s' :: rest'))
      with (mkCall (Some back) (JFAPass (Some front) (Some mask) s)
            :: FrameLog.pingpong_calls mask back front (s' :: rest')).
    change (FrameLog.pingpong_front front back (s :: s' :: rest'))
      with (FrameLog.pingpong_front back front (s' :: rest')).
    rewrite <- (IH back front d) by discriminate.
    reflexivity.
Qed.

Lemma example_scene_nodup : NoDup (scene_traversal Examples.scene).
Proof.
  repeat constructor; cbn; intuition discriminate.
Qed.

Lemma example_selection_in_scene (o : nat) :
  In o (sel_traversal Examples.selection) ->
  isDrawable (objects Examples.world0 o) = true ->
  In o (scene_traversal Examples.scene).
Proof. cbn. intuition. Qed.

(** X7.  When no call throws, [JumpFloodEffect.render] returns with the
    auto-clear flag, the clear colour and alpha and every object of the
    scene (its visibility included) as it found them, with
    [scene.overrideMaterial] and the render target reset to [null], and
    with the scissor test off.  The objects are restored provided the
    drawable objects of the selection belong to the scene that is
    traversed. *)
Theorem jfe_render_restores_on_return :
  forall (P : Platform) (scene : Scene) (camera : Camera) (w : World)
         (e : JumpFloodEffect.t) (selected : Selection)
         (m0 m1 t0 t1 : nat),
    faults w = [] ->
    JumpFloodEffect.selectedObject e = Some selected ->
    visible (objects w (sel_root selected)) = true ->
    JumpFloodEffect.masks e = [m0; m1] ->
    JumpFloodEffect.targets e = [t0; t1] ->
    t0 <> m0 -> t0 <> m1 ->
    NoDup (scene_traversal scene) ->
    (forall o, In o (sel_traversal selected) ->
               isDrawable (objects w o) = true ->
               In o (scene_traversal scene)) ->
    exists (w' : World) (e' : JumpFloodEffect.t),
      JumpFloodEffect.render P scene camera (w, e)
        = (Returned tt, (w', e')) /\
      autoClear (renderer w') = autoClear (renderer w) /\
      clearColor (renderer w') = clearColor (renderer w) /\
      clearAlpha (renderer w') = clearAlpha (renderer w) /\
      (forall o, objects w' o = objects w o) /\
      scissorTest (renderer w') = false /\
      renderTarget (renderer w') = None /\
      overrideMaterial w' = None.
Proof.
  intros P scene camera w e selected m0 m1 t0 t1 Hf Hsel Hvis Hm Ht N0 N1
    Hnd Hsub.
  destruct (jfe_render_run P scene camera w e selected m0 m1 t0 t1
              Hf Hsel Hvis Hm Ht N0 N1)
    as [w' [e' [ran [Hrun [_ [_ [_ [Hobj [Ha [Hc [Hal [Hs [Hr Ho]]]]]]]]]]]]].
  exists w', e'. split; [exact Hrun |].
  repeat (split; [assumption |]).
  split; [| repeat split; assumption].
  intros o. rewrite Hobj. clear Hobj.
  set (objs := objects w) in *.
  set (T := sel_traversal selected) in *.
  destruct (Visibility.hide_objs (scene_traversal scene) objs [])
    as [hidden saved] eqn:Eh.
  pose proof (hide_objs_spec (scene_traversal scene) objs [] Hnd)
    as [Hk [Hp Hsv]].
  rewrite Eh in Hk, Hp, Hsv. cbn [fst snd app] in Hk, Hp, Hsv. subst saved.
  cbn [fst snd].
  set (S0 := Visibility.saved_of (scene_traversal scene) objs).
  (* after the mask stage the objects are back *)
  assert (H1 : forall p,
            Visibility.restore_objs S0 (Visibility.show_objs T hidden) p
            = objs p).
  { apply restore_objs_saved.
    - eapply same_kinds_trans; [apply show_objs_spec | exact Hk].
    - intros p. destruct (show_objs_spec T hidden) as [_ Hshow].
      destruct (Hshow p) as [E | [Hin Hd]].
      + rewrite E. apply Hp.
      + right. rewrite (same_kinds_drawable hidden objs p Hk) in Hd.
        split; [apply Hsub; assumption | exact Hd]. }
  (* and after the seed stage again *)
  set (objs1 := Visibility.restore_objs S0 (Visibility.show_objs T hidden))
    in *.
  assert (Hk1 : Visibility.same_kinds objs1 objs).
  { intros p. rewrite H1. repeat split. }
  apply restore_objs_saved.
  - eapply same_kinds_trans; [apply show_objs_spec | exact Hk1].
  - intros p. destruct (show_objs_spec T objs1) as [_ Hshow].
    destruct (Hshow p) as [E | [Hin Hd]].
    + left. rewrite E. apply H1.
    + right. rewrite (same_kinds_drawable objs1 objs p Hk1) in Hd.
      split; [apply Hsub; assumption | exact Hd].
Qed.

Lemma jfe_render_restores_on_return_witness :
  exists (w' : World) (e' : JumpFloodEffect.t),
    JumpFloodEffect.render Examples.platform Examples.scene Examples.camera
      (Examples.world0, Examples.jfe0) = (Returned tt, (w', e')) /\
    clearColor (renderer w') = mkColor 1 1 1 /\
    objects w' 2%nat = Examples.objects0 2%nat.
Proof.
  destruct (jfe_render_restores_on_return Examples.platform Examples.scene
              Examples.camera Examples.world0 Examples.jfe0
              Examples.selection 2 3 0 1 eq_refl eq_refl eq_refl eq_refl
              eq_refl ltac:(discriminate) ltac:(discriminate)
              example_scene_nodup example_selection_in_scene)
    as [w' [e' [Hrun [_ [Hc [_ [Hobj _]]]]]]].
  exists w', e'. split; [exact Hrun |].
  split; [exact Hc | exact (Hobj 2%nat)].
Defined.

(** X8.  The calls of a frame of [JumpFloodEffect.render] when none
    throws: a clear and the silhouette drawn into the first mask, four
    expansion passes ping-ponged between the two masks (the last one
    landing in the first mask), the full-screen seed pass and the scene
    drawn with the seed material into the first buffer, the flood passes
    ping-ponged between the two buffers on the halving schedule, each of
    them masked by the first mask and reading what the pass before it
    wrote, and a single effect pass to the screen that reads the buffer
    the last flood pass wrote. *)
Theorem jfe_render_call_sequence :
  forall (P : Platform) (scene : Scene) (camera : Camera) (w : World)
         (e : JumpFloodEffect.t) (selected : Selection)
         (m0 m1 t0 t1 : nat),
    faults w = [] ->
    JumpFloodEffect.selectedObject e = Some selected ->
    visible (objects w (sel_root selected)) = true ->
    JumpFloodEffect.masks e = [m0; m1] ->
    JumpFloodEffect.targets e = [t0; t1] ->
    t0 <> m0 -> t0 <> m1 ->
    let step0 :=
      JumpFloodEffect.initial_step (width (targets_heap w t0))
        (height (targets_heap w t0)) (JumpFloodEffect.thickness e) in
    exists (w' : World) (e' : JumpFloodEffect.t) (steps : list Q),
      JumpFloodEffect.render P scene camera (w, e)
        = (Returned tt, (w', e')) /\
      FloodSchedule.schedule step0 steps /\
      calls w' = calls w ++
        FrameLog.jfe_frame m0 m1 t0 t1 (JumpFloodEffect.seedQuad_negative e)
          steps (JumpFloodEffect.thickness e)
          (EffectMaterial.set_inside (JumpFloodEffect.inside e)) /\
      (forall d,
         call_target (last (FrameLog.pingpong_calls m0 t0 t1 steps) d)
         = Some (FrameLog.pingpong_front t0 t1 steps)).
Proof.
  intros P scene camera w e selected m0 m1 t0 t1 Hf Hsel Hvis Hm Ht N0 N1
    step0.
  destruct (jfe_render_run P scene camera w e selected m0 m1 t0 t1
              Hf Hsel Hvis Hm Ht N0 N1)
    as [w' [e' [ran [Hrun [_ [Hsch [Hc _]]]]]]].
  exists w', e', ran. split; [exact Hrun |]. split; [exact Hsch |].
  split; [exact Hc |].
  intros d. apply pingpong_calls_last.
  eapply schedule_nonempty. exact Hsch.
Qed.

Lemma jfe_render_call_sequence_witness :
  exists (w' : World) (e' : JumpFloodEffect.t) (steps : list Q),
    JumpFloodEffect.render Examples.platform Examples.scene Examples.camera
      (Examples.world0, Examples.jfe0) = (Returned tt, (w', e')) /\
    calls w' =
      FrameLog.jfe_frame 2 3 0 1 1 steps 2 1.
Proof.
  destruct (jfe_render_call_sequence Examples.platform Examples.scene
              Examples.camera Examples.world0 Examples.jfe0
              Examples.selection 2 3 0 1 eq_refl eq_refl eq_refl eq_refl
              eq_refl ltac:(discriminate) ltac:(discriminate))
    as [w' [e' [steps [Hrun [_ [Hc _]]]]]].
  exists w', e', steps. split; [exact Hrun | exact Hc].
Defined.

(** *** The sign of a record through a flood pass *)

Lemma candidate_distance_nonneg (length : Z -> Z -> Q)
    (source : sampler2D) (p : ivec2) (step : Z) (o : ivec2) (sx sy d : Q) :
  (forall dx dy, 0 <= length dx dy) ->
  FloodRule.candidate length source p step o = Some (sx, sy, d) ->
  0 <= d.
Proof.
  intros Hlen. unfold FloodRule.candidate.
  destruct (negb (in_bounds source _)); [discriminate |].
  destruct (Qeq_bool _ 0); [discriminate |].
  destruct (Qneqb _ _).
  - intros E. injection E as _ _ <-. apply Hlen.
  - destruct (_ && _); [discriminate |].
    intros E. injection E as _ _ <-. apply Hlen.
Qed.

Lemma sign_zero (x : Q) : sign x = 0 <-> x == 0.
Proof.
  unfold sign. destruct x as [n dn]. cbn [Qnum]. unfold Qeq. cbn.
  split.
  - intros H. injection H as H. destruct n; cbn in H; try discriminate.
    reflexivity.
  - intros H. rewrite Z.mul_1_r in H. subst n. reflexivity.
Qed.

Lemma sign_scaled (d : Q) :
  0 < d -> sign (d * 1) = 1 /\ sign (d * -1) = -1.
Proof.
  intros Hd. unfold sign. destruct d as [n dn]. unfold Qlt in Hd.
  cbn in Hd. rewrite Z.mul_1_r in Hd. cbn [Qnum Qmult].
  destruct n as [| pn | pn]; try lia. split; reflexivity.
Qed.

(** X9.  A flood pass never turns an inside record into an outside one
    or the reverse: the marker it writes has the sign of the pixel's
    marker before the pass, or is zero; and a pixel whose marker is zero
    (no record) is written back as it was. *)
Theorem jfa_pass_keeps_sign :
  forall (length : Z -> Z -> Q),
    (forall dx dy, 0 <= length dx dy) ->
    forall (source mask : sampler2D) (step : Z) (vUv : Q * Q) (x y : Z)
           (c : vec4),
      JFAMaterial.fragmentShader length source mask step vUv x y = Some c ->
      let original := texelFetch source (x, y) in
      (sign (b c) = sign (b original) \/ b c == 0) /\
      (b original == 0 -> rgb c = rgb original).
Proof.
  intros length Hlen source mask step vUv x y c Hrun original.
  unfold JFAMaterial.fragmentShader, JFAMaterial.main in Hrun.
  destruct (Qltb (r (texture2D mask vUv)) 0.5); [discriminate |].
  remember (fold_left _ _ _) as res eqn:Hres in Hrun.
  injection Hrun as <-.
  pose proof (fold_keeps_nearest length Hlen source (x, y) step
                JFAMaterial.loop_offsets (rgb (texelFetch source (x, y))))
    as H.
  cbv zeta in H.
  change (sign (b (texelFetch source (x, y))))
    with (sign (v3z (rgb (texelFetch source (x, y))))) in H.
  rewrite <- Hres in H. clear Hres.
  fold original in H |- *.
  change (v3z (rgb original)) with (b original) in H.
  set (s := sign (b original)) in *.
  destruct H as [Hsel _].
  change (b (vec4_of res 1.0)) with (v3z res).
  change (rgb (vec4_of res 1.0)) with (mkVec3 (v3x res) (v3y res) (v3z res)).
  destruct Hsel as [E | [o [sx [sy [d [_ [Hc [Hr Hd]]]]]]]].
  - rewrite E. split; [left; reflexivity |]. intros _. reflexivity.
  - pose proof (candidate_distance_nonneg length source (x, y) step o sx sy
                  d Hlen Hc) as Hd0.
    unfold FloodRule.magnitude in Hd.
    change (v3z (rgb original)) with (b original) in Hd.
    rewrite Hr. cbn [v3x v3y v3z].
    destruct (sign_cases (b original)) as [Hs | [Hs | Hs]]; fold s in Hs.
    + split.
      * destruct (Qlt_le_dec 0 d) as [Hpos | Hle].
        -- left. rewrite Hs. apply (sign_scaled d Hpos).
        -- right. assert (d == 0) by lra. rewrite H. ring.
      * intros Hz. apply sign_zero in Hz. fold s in Hz. rewrite Hs in Hz.
        discriminate.
    + exfalso. rewrite Hs in Hd. lra.
    + split.
      * destruct (Qlt_le_dec 0 d) as [Hpos | Hle].
        -- left. rewrite Hs. apply (sign_scaled d Hpos).
        -- right. assert (d == 0) by lra. rewrite H. ring.
      * intros Hz. apply sign_zero in Hz. fold s in Hz. rewrite Hs in Hz.
        discriminate.
Qed.

Lemma jfa_pass_keeps_sign_witness :
  sign (b (mkVec4 1 1 1 1.0)) = sign (b (texelFetch Examples.seeds3 (0, 1)%Z))
  \/ b (mkVec4 1 1 1 1.0) == 0.
Proof.
  exact (proj1 (jfa_pass_keeps_sign Examples.length example_length_nonneg
                  Examples.seeds3 Examples.full_mask 1 (quad_uv 3 3 0 1) 0 1
                  (mkVec4 1 1 1 1.0) eq_refl)).
Defined.

(** *** The coverage masks and the final pass *)

(** X10.  [render] sizes both coverage masks alike, to the buffer size
    divided by the (non-zero) thickness and rounded down, never below 3 by 3,
    however large the thickness is; drawing the silhouette into the
    first mask keeps that size. *)
Theorem mask_stage_sizes_masks :
  forall (P : Platform) (scene : Scene) (camera : Camera)
         (selected : Selection) (thickness : Q) (w : World)
         (e : JumpFloodEffect.t),
    faults w = [] ->
    ~ thickness == 0 ->
    let t0 := targets_heap w
                (JumpFloodEffect.at_index (JumpFloodEffect.targets e) 0) in
    exists (saved : list (nat * bool)) (w' : World),
      JumpFloodEffect.mask_stage P scene camera selected thickness (w, e)
        = (Returned saved, (w', e)) /\
      forall i, (i < 2)%nat ->
        let mask :=
          texture (targets_heap w'
                     (JumpFloodEffect.at_index (JumpFloodEffect.masks e) i)) in
        tex_width mask = Z.max (Qfloor (width t0 / thickness)) 3 /\
        tex_height mask = Z.max (Qfloor (height t0 / thickness)) 3 /\
        (3 <= tex_width mask)%Z /\ (3 <= tex_height mask)%Z.
Proof.
  intros P scene camera selected thickness w e Hf _ t0.
  destruct (mask_stage_run P scene camera selected thickness w e Hf)
    as [w' [Hrun [_ [_ [_ [_ [_ [Hsz _]]]]]]]].
  eexists. exists w'. split; [exact Hrun |].
  intros i Hi mask.
  assert (Hm : tex_width mask = Z.max (Qfloor (width t0 / thickness)) 3 /\
               tex_height mask = Z.max (Qfloor (height t0 / thickness)) 3).
  { apply Hsz. destruct i as [| [| i]]; [left | right | lia]; reflexivity. }
  destruct Hm as [Ew Eh]. rewrite Ew, Eh. repeat split; lia.
Qed.

Lemma mask_stage_sizes_masks_witness :
  exists (saved : list (nat * bool)) (w' : World),
    JumpFloodEffect.mask_stage Examples.platform Examples.scene
      Examples.camera Examples.selection 2 (Examples.world0, Examples.jfe0)
      = (Returned saved, (w', Examples.jfe0)) /\
    tex_width (texture (targets_heap w' 3%nat)) = 3%Z.
Proof.
  destruct (mask_stage_sizes_masks Examples.platform Examples.scene
              Examples.camera Examples.selection 2 Examples.world0
              Examples.jfe0 eq_refl ltac:(discriminate))
    as [saved [w' [Hrun Hsz]]].
  exists saved, w'. split; [exact Hrun |].
  exact (proj1 (Hsz 1%nat ltac:(lia))).
Defined.

(** X11.  The final pass of [JumpFloodEffect.render] only blends over
    the frame already on the screen: it never clears it, whatever the
    auto-clear flag was at the start.  A pixel outside the scissor box,
    or whose fragment the effect shader discards, keeps its colour; any
    other pixel is blended with the fragment; and no render target is
    written. *)
Theorem composite_stage_blends_over_frame :
  forall (P : Platform) (thickness : Q) (ac0 : bool) (cc0 : Color)
         (ca0 : Q) (w : World) (e : JumpFloodEffect.t),
    faults w = [] ->
    let map := texture (targets_heap w
                 (JumpFloodEffect.at_index (JumpFloodEffect.targets e) 0)) in
    let frag x y :=
      EffectMaterial.fragmentShader map thickness
        (EffectMaterial.set_inside (JumpFloodEffect.inside e))
        (JumpFloodEffect.color_vec
           (JumpFloodEffect.effect_color (JumpFloodEffect.effectQuad e)))
        (quad_uv (tex_width (screen w)) (tex_height (screen w)) x y) in
    exists (w' : World) (e' : JumpFloodEffect.t),
      JumpFloodEffect.composite_stage P thickness ac0 cc0 ca0 (w, e)
        = (Returned tt, (w', e')) /\
      targets_heap w' = targets_heap w /\
      forall x y,
        texel (screen w') x y =
          if in_bounds (screen w) (x, y) && active P (renderer w) x y
          then match frag x y with
               | Some c => GL.normal_blend c (texel (screen w) x y)
               | None => texel (screen w) x y
               end
          else texel (screen w) x y.
Proof.
  intros P thickness ac0 cc0 ca0 w e Hf map frag.
  destruct w as [rd heap scr objs om bg env lm fl cs]. cbn in Hf. subst fl.
  destruct rd as [ac cc ca st sc rt pr sz].
  unfold JumpFloodEffect.composite_stage, JumpFloodEffect.effectQuad_render.
  frame_step. eexists. eexists. split; [reflexivity |].
  cbn [targets_heap screen renderer]. split; [reflexivity |].
  intros x y. reflexivity.
Qed.

Lemma composite_stage_blends_over_frame_witness :
  exists (w' : World) (e' : JumpFloodEffect.t),
    JumpFloodEffect.composite_stage Examples.platform 2 true
      (mkColor 1 1 1) 1 (Examples.world0, Examples.jfe0)
      = (Returned tt, (w', e')) /\
    texel (screen w') 0 0 = texel (screen Examples.world0) 0 0.
Proof.
  destruct (composite_stage_blends_over_frame Examples.platform 2 true
              (mkColor 1 1 1) 1 Examples.world0 Examples.jfe0 eq_refl)
    as [w' [e' [Hrun [_ Hpx]]]].
  exists w', e'. split; [exact Hrun |].
  rewrite Hpx. reflexivity.
Defined.

(** *** The mask that the flood reads *)

Section ExpandedMask.
Import Images Passes.
Variable P : Platform.

Lemma same_image_refl (s : sampler2D) : same_image s s.
Proof. repeat split. Qed.

Lemma texelFetch_same_image (s s' : sampler2D) (c : ivec2) :
  same_image s s' -> texelFetch s c = texelFetch s' c.
Proof.
  intros [Hw [Hh Ht]]. unfold texelFetch, in_bounds.
  rewrite Hw, Hh, Ht. reflexivity.
Qed.

Lemma existsb_pointwise {A} (f g : A -> bool) (l : list A) :
  (forall a, f a = g a) -> existsb f l = existsb g l.
Proof.
  intros H. induction l as [| a l IH]; [reflexivity |].
  cbn. rewrite H, IH. reflexivity.
Qed.

Lemma expand_fragment_same_image (s s' : sampler2D) (x y : Z) :
  same_image s s' ->
  ExpandMaskMaterial.fragmentShader s x y
  = ExpandMaskMaterial.fragmentShader s' x y.
Proof.
  intros H. unfold ExpandMaskMaterial.fragmentShader.
  rewrite (existsb_pointwise _
             (fun o => Qneqb (r (texelFetch s'
                                   (fst (x, y) + fst o, snd (x, y) + snd o)%Z))
                             0)); [reflexivity |].
  intros o. cbv zeta. rewrite (texelFetch_same_image s s' _ H). reflexivity.
Qed.

(** An expansion pass drawn with the scissor test off is the pass of
    [Passes.expand_pass], whatever the auto-clear flag. *)
Lemma draw_expand_same_image (rd : WebGLRenderer) (s s' t t' : sampler2D) :
  scissorTest rd = false ->
  same_image s s' -> same_image t t' ->
  same_image
    (GL.draw (autoClear rd) (clearTexel rd) (active P rd) GL.overwrite
       (ExpandMaskMaterial.fragmentShader s) t)
    (expand_pass s' t').
Proof.
  intros Hst Hs [Hw [Hh Ht]]. unfold expand_pass, GL.draw.
  cbn [tex_width tex_height texel].
  split; [exact Hw |]. split; [exact Hh |].
  intros x y. unfold active. rewrite Hst. cbn [texel].
  rewrite (expand_fragment_same_image s s' x y Hs).
  unfold in_bounds. rewrite Hw, Hh, Ht.
  rewrite (expand_fragment s' x y). unfold GL.overwrite. reflexivity.
Qed.

End ExpandedMask.

(** X12.  With the scissor test off, the expansion stage of [render]
    applies the expansion pass exactly four times to the silhouette held
    by the first mask, ping-ponging between the two masks, and leaves the
    result in the mask that the flood passes and the effect pass then
    use, [masks[1]] after the final [reverse]. *)
Theorem expand_stage_expands_four_times :
  forall (P : Platform) (w : World) (e : JumpFloodEffect.t) (m0 m1 : nat),
    faults w = [] ->
    JumpFloodEffect.masks e = [m0; m1] ->
    m0 <> m1 ->
    scissorTest (renderer w) = false ->
    exists (w' : World) (e' : JumpFloodEffect.t),
      JumpFloodEffect.expand_stage P (w, e) = (Returned tt, (w', e')) /\
      Images.same_image
        (texture (targets_heap w'
                    (JumpFloodEffect.at_index (JumpFloodEffect.masks e') 1)))
        (Passes.expand_n 4 (texture (targets_heap w m0))
                           (texture (targets_heap w m1))).
Proof.
  intros P w e m0 m1 Hf Hm Hne Hst.
  unfold JumpFloodEffect.expand_stage.
  cbn [for_loop]. rewrite !bind_assoc.
  destruct (expand_iteration_run P 0 w e Hf)
    as [w1 [R1 [F1 [_ [_ [Rd1 [_ [_ H1]]]]]]]].
  rewrite (bind_returned _ _ _ _ _ R1). cbv beta. rewrite ?bind_assoc.
  match type of R1 with _ = (_, (_, ?x)) => set (e1 := x) in * end.
  destruct (expand_iteration_run P 1 w1 e1 F1)
    as [w2 [R2 [F2 [_ [_ [Rd2 [_ [_ H2]]]]]]]].
  rewrite (bind_returned _ _ _ _ _ R2). cbv beta. rewrite ?bind_assoc.
  match type of R2 with _ = (_, (_, ?x)) => set (e2 := x) in * end.
  destruct (expand_iteration_run P 2 w2 e2 F2)
    as [w3 [R3 [F3 [_ [_ [Rd3 [_ [_ H3]]]]]]]].
  rewrite (bind_returned _ _ _ _ _ R3). cbv beta. rewrite ?bind_assoc.
  match type of R3 with _ = (_, (_, ?x)) => set (e3 := x) in * end.
  destruct (expand_iteration_run P 3 w3 e3 F3)
    as [w4 [R4 [F4 [_ [_ [Rd4 [_ [_ H4]]]]]]]].
  rewrite (bind_returned _ _ _ _ _ R4). cbv beta.
  match type of R4 with _ = (_, (_, ?x)) => set (e4 := x) in * end.
  assert (E1 : JumpFloodEffect.masks e1 = [m1; m0])
    by (subst e1; cbn; rewrite Hm; reflexivity).
  assert (E2 : JumpFloodEffect.masks e2 = [m0; m1])
    by (subst e2; cbn [JumpFloodEffect.masks JumpFloodEffect.with_masks];
        rewrite E1; reflexivity).
  assert (E3 : JumpFloodEffect.masks e3 = [m1; m0])
    by (subst e3; cbn [JumpFloodEffect.masks JumpFloodEffect.with_masks];
        rewrite E2; reflexivity).
  assert (E4 : JumpFloodEffect.masks e4 = [m0; m1])
    by (subst e4; cbn [JumpFloodEffect.masks JumpFloodEffect.with_masks];
        rewrite E3; reflexivity).
  rewrite Hm in H1, Rd1. rewrite E1 in H2, Rd2.
  rewrite E2 in H3, Rd3. rewrite E3 in H4, Rd4.
  cbn [JumpFloodEffect.at_index nth] in H1, H2, H3, H4, Rd1, Rd2, Rd3, Rd4.
  assert (S1 : scissorTest (renderer w1) = false)
    by (rewrite Rd1; exact Hst).
  assert (S2 : scissorTest (renderer w2) = false)
    by (rewrite Rd2; exact S1).
  assert (S3 : scissorTest (renderer w3) = false)
    by (rewrite Rd3; exact S2).
  eexists. eexists. split; [reflexivity |].
  cbn [JumpFloodEffect.masks JumpFloodEffect.with_masks fst snd].
  rewrite E4. cbn [rev app JumpFloodEffect.at_index nth].
  set (M0 := texture (targets_heap w m0)) in *.
  set (M1 := texture (targets_heap w m1)) in *.
  assert (N : m1 <> m0) by (apply not_eq_sym; exact Hne).
  (* the two masks after each pass *)
  assert (A1 : Images.same_image (texture (targets_heap w1 m1))
                 (Passes.expand_pass M0 M1) /\
               texture (targets_heap w1 m0) = M0).
  { rewrite H1. rewrite upd_same, upd_other by exact Hne.
    cbn [texture]. split; [| reflexivity].
    apply draw_expand_same_image; [exact Hst | |]; apply same_image_refl. }
  destruct A1 as [A1 B1].
  assert (A2 : Images.same_image (texture (targets_heap w2 m0))
                 (Passes.expand_pass (Passes.expand_pass M0 M1) M0) /\
               texture (targets_heap w2 m1) = texture (targets_heap w1 m1)).
  { rewrite H2. rewrite upd_same, upd_other by exact N.
    cbn [texture]. split; [| reflexivity].
    apply draw_expand_same_image; [exact S1 | exact A1 |].
    rewrite B1. apply same_image_refl. }
  destruct A2 as [A2 B2].
  assert (A3 : Images.same_image (texture (targets_heap w3 m1))
                 (Passes.expand_pass
                    (Passes.expand_pass (Passes.expand_pass M0 M1) M0)
                    (Passes.expand_pass M0 M1)) /\
               texture (targets_heap w3 m0) = texture (targets_heap w2 m0)).
  { rewrite H3. rewrite upd_same, upd_other by exact Hne.
    cbn [texture]. split; [| reflexivity].
    apply draw_expand_same_image; [exact S2 | exact A2 |].
    rewrite B2. exact A1. }
  destruct A3 as [A3 B3].
  rewrite H4, upd_same. cbn [texture].
  change (Passes.expand_n 4 M0 M1)
    with (Passes.expand_pass
            (Passes.expand_pass
               (Passes.expand_pass (Passes.expand_pass M0 M1) M0)
               (Passes.expand_pass M0 M1))
            (Passes.expand_pass (Passes.expand_pass M0 M1) M0)).
  apply draw_expand_same_image; [exact S3 | exact A3 |].
  rewrite B3. exact A2.
Qed.

Lemma expand_stage_expands_four_times_witness :
  exists (w' : World) (e' : JumpFloodEffect.t),
    JumpFloodEffect.expand_stage Examples.platform
      (Examples.world0, Examples.jfe0) = (Returned tt, (w', e')) /\
    tex_width (texture (targets_heap w'
                 (JumpFloodEffect.at_index (JumpFloodEffect.masks e') 1)))
    = 1%Z.
Proof.
  destruct (expand_stage_expands_four_times Examples.platform
              Examples.world0 Examples.jfe0 2 3 eq_refl eq_refl
              ltac:(discriminate) eq_refl)
    as [w' [e' [Hrun [Hw _]]]].
  exists w', e'. split; [exact Hrun |]. rewrite Hw. reflexivity.
Defined.

(** ** The scene catalogue *)

Section Shuffle.
Import SceneData.

Lemma uint32_range (x : Z) : (0 <= uint32 x < 2 ^ 32)%Z.
Proof. unfold uint32. apply Z.mod_pos_bound. reflexivity. Qed.

Lemma unit_interval (z : Z) :
  0 <= inject_Z (uint32 z) / 4294967296 /\
  inject_Z (uint32 z) / 4294967296 < 1.
Proof.
  pose proof (uint32_range z) as Hr.
  assert (H0 : inject_Z 0 <= inject_Z (uint32 z))
    by (rewrite <- Zle_Qle; lia).
  assert (H1 : inject_Z (uint32 z) < inject_Z 4294967296)
    by (rewrite <- Zlt_Qlt; lia).
  change (inject_Z 0) with 0 in H0.
  change (inject_Z 4294967296) with 4294967296 in H1.
  split.
  - apply Qle_shift_div_l; [reflexivity |]. rewrite Qmult_0_l. exact H0.
  - apply Qlt_shift_div_r; [reflexivity |]. rewrite Qmult_1_l. exact H1.
Qed.

Lemma mulberry32_range (a : Z) :
  0 <= fst (mulberry32 a) /\ fst (mulberry32 a) < 1.
Proof. unfold mulberry32. cbv zeta. cbn [fst]. apply unit_interval. Qed.

Lemma draw_index_in_range (seed : Z) (m : nat) :
  (0 < m)%nat -> (draw_index seed m < m)%nat.
Proof.
  intros Hm. unfold draw_index.
  destruct (mulberry32_range seed) as [H0 H1].
  set (x := fst (mulberry32 seed)) in *.
  assert (Hm' : 0 < inject_Z (Z.of_nat m)).
  { change 0 with (inject_Z 0). rewrite <- Zlt_Qlt. lia. }
  set (q := inject_Z (Z.of_nat m)) in *.
  assert (Hlo : 0 <= x * q) by (clearbody q x; nra).
  assert (Hhi : x * q < q) by (clearbody q x; nra).
  subst q.
  assert (Hf0 : (0 <= Qfloor (x * inject_Z (Z.of_nat m)))%Z).
  { rewrite <- (Qfloor_Z 0). apply Qfloor_resp_le. exact Hlo. }
  assert (Hf1 : (Qfloor (x * inject_Z (Z.of_nat m)) < Z.of_nat m)%Z).
  { rewrite Zlt_Qlt. eapply Qle_lt_trans; [apply Qfloor_le | exact Hhi]. }
  lia.
Qed.

Lemma set_nth_length {A} (l : list A) (k : nat) (v : A) :
  length (set_nth l k v) = length l.
Proof.
  revert k. induction l as [| a l IH]; intros [| k]; cbn; auto.
Qed.

Lemma set_nth_exchange {A} (l : list A) (k : nat) (v a : A) :
  nth_error l k = Some v -> Permutation (v :: set_nth l k a) (a :: l).
Proof.
  revert k. induction l as [| b l IH]; intros [| k] H; cbn in H;
    try discriminate.
  - injection H as ->. cbn. apply perm_swap.
  - cbn. eapply perm_trans; [apply perm_swap |].
    eapply perm_trans; [apply perm_skip; apply IH; exact H |].
    apply perm_swap.
Qed.

Lemma swap_permutation {A} (l : list A) (m i : nat) :
  Permutation (swap l m i) l.
Proof.
  unfold swap.
  destruct (nth_error l i) as [vi |] eqn:Hi; [| apply Permutation_refl].
  destruct (nth_error l m) as [vm |] eqn:Hm; [| apply Permutation_refl].
  revert m i vi vm Hi Hm.
  induction l as [| a l IH]; intros [| m] [| i] vi vm Hi Hm; cbn in Hi, Hm;
    try discriminate.
  - injection Hi as ->. injection Hm as ->. apply Permutation_refl.
  - injection Hm as ->. cbn. apply set_nth_exchange. exact Hi.
  - injection Hi as ->. cbn. apply set_nth_exchange. exact Hm.
  - cbn. apply perm_skip. apply IH; assumption.
Qed.

Lemma shuffle_loop_permutation {A} (m : nat) :
  forall (l : list A) (seed : Z), Permutation (shuffle_loop m l seed) l.
Proof.
  induction m as [| m IH]; intros l seed; cbn [shuffle_loop].
  - apply Permutation_refl.
  - eapply perm_trans; [apply IH | apply swap_permutation].
Qed.

End Shuffle.

(** X13.  [seededShuffle] returns a permutation of the array it is
    given, for every seed: the generator [mulberry32] yields numbers in
    [[0, 1)], so the index drawn when [m] elements remain is below [m]
    and each step exchanges two elements inside the array. *)
Theorem seededShuffle_permutes :
  forall (A : Type) (array : list A) (seed : Z),
    Permutation (SceneData.seededShuffle array seed) array /\
    length (SceneData.seededShuffle array seed) = length array /\
    (forall (s : Z) (m : nat),
       0 <= fst (SceneData.mulberry32 s) /\
       fst (SceneData.mulberry32 s) < 1 /\
       ((0 < m)%nat -> (SceneData.draw_index s m < m)%nat)).
Proof.
  intros A array seed.
  assert (Hp : Permutation (SceneData.seededShuffle array seed) array)
    by apply shuffle_loop_permutation.
  split; [exact Hp |]. split; [apply Permutation_length; exact Hp |].
  intros s m. destruct (mulberry32_range s) as [H0 H1].
  split; [exact H0 |]. split; [exact H1 | apply draw_index_in_range].
Qed.

Lemma seededShuffle_permutes_witness :
  (SceneData.draw_index 42 40 < 40)%nat.
Proof.
  destruct (seededShuffle_permutes Z SceneData.ROOM_IDS 42)
    as [_ [_ H]].
  destruct (H 42%Z 40%nat) as [_ [_ Hi]]. apply Hi. lia.
Defined.

(** *** Featured first, every scene once *)

Section Catalogue.
Import SceneData.

Lemma includes_In (ids : list Z) (x : Z) :
  includes ids x = true <-> In x ids.
Proof.
  unfold includes. rewrite existsb_exists. split.
  - intros [y [Hin E]]. apply Z.eqb_eq in E. subst. exact Hin.
  - intros Hin. exists x. split; [exact Hin | apply Z.eqb_refl].
Qed.

Lemma flat_map_if {A B} (p : A -> bool) (f : A -> B) (l : list A) :
  flat_map (fun a => if p a then [f a] else []) l = map f (filter p l).
Proof.
  induction l as [| a l IH]; [reflexivity |].
  cbn. destruct (p a); cbn; rewrite IH; reflexivity.
Qed.

(** The featured identifiers that are available, followed by the
    available ones that are not featured, are the available ones. *)
Lemma featured_then_rest (F R : list Z) :
  NoDup F -> NoDup R ->
  Permutation
    (filter (includes R) F ++ filter (fun x => negb (includes F x)) R) R.
Proof.
  intros HF HR. apply NoDup_Permutation; [| exact HR |].
  - apply NoDup_app.
    + apply NoDup_filter. exact HF.
    + apply NoDup_filter. exact HR.
    + intros x H1 H2. apply filter_In in H1. apply filter_In in H2.
      destruct H1 as [HinF _]. destruct H2 as [_ Hn].
      apply includes_In in HinF. rewrite HinF in Hn. discriminate.
  - intros x. rewrite in_app_iff, !filter_In. split.
    + intros [[_ H] | [H _]]; [apply includes_In; exact H | exact H].
    + intros H. destruct (includes F x) eqn:E.
      * left. split; [apply includes_In; exact E | apply includes_In; exact H].
      * right. split; [exact H | reflexivity].
Qed.

Ltac distinct :=
  repeat (constructor;
          [cbn; let H := fresh in
                intros H;
                repeat (destruct H as [H | H]; [discriminate H |]);
                exact H |]);
  constructor.

Lemma ROOM_IDS_distinct : NoDup ROOM_IDS.
Proof. unfold ROOM_IDS. distinct. Qed.

Lemma HOUSE_IDS_distinct : NoDup HOUSE_IDS.
Proof. unfold HOUSE_IDS. distinct. Qed.

Lemma FEATURED_ROOM_IDS_distinct : NoDup FEATURED_ROOM_IDS.
Proof. unfold FEATURED_ROOM_IDS. distinct. Qed.

Lemma FEATURED_HOUSE_IDS_distinct : NoDup FEATURED_HOUSE_IDS.
Proof. unfold FEATURED_HOUSE_IDS. distinct. Qed.

Variable Prompt : Type.
Variable PROMPTS : Z -> option Prompt.

Lemma rooms_shape :
  exists rest,
    buildRoomScenes Prompt PROMPTS
    = map (room_entry Prompt PROMPTS true) FEATURED_ROOM_IDS ++
      map (room_entry Prompt PROMPTS false) rest /\
    Permutation (FEATURED_ROOM_IDS ++ rest) ROOM_IDS /\
    Permutation rest
      (filter (fun x => negb (includes FEATURED_ROOM_IDS x)) ROOM_IDS).
Proof.
  exists (seededShuffle
            (filter (fun x => negb (includes FEATURED_ROOM_IDS x)) ROOM_IDS)
            42).
  unfold buildRoomScenes. cbv zeta. rewrite flat_map_if.
  assert (Hall : filter (includes ROOM_IDS) FEATURED_ROOM_IDS
                 = FEATURED_ROOM_IDS) by reflexivity.
  rewrite Hall. split; [reflexivity |].
  assert (Hs : Permutation
                 (seededShuffle
                    (filter (fun x => negb (includes FEATURED_ROOM_IDS x))
                            ROOM_IDS) 42)
                 (filter (fun x => negb (includes FEATURED_ROOM_IDS x))
                         ROOM_IDS))
    by apply shuffle_loop_permutation.
  split; [| exact Hs].
  eapply perm_trans; [apply Permutation_app_head; exact Hs |].
  rewrite <- Hall at 1.
  apply featured_then_rest;
    [apply FEATURED_ROOM_IDS_distinct | apply ROOM_IDS_distinct].
Qed.

Lemma houses_shape :
  buildHouseScenes Prompt PROMPTS
  = map (house_entry Prompt PROMPTS true) FEATURED_HOUSE_IDS ++
    map (house_entry Prompt PROMPTS false)
      (filter (fun x => negb (includes FEATURED_HOUSE_IDS x)) HOUSE_IDS) /\
  Permutation
    (FEATURED_HOUSE_IDS ++
     filter (fun x => negb (includes FEATURED_HOUSE_IDS x)) HOUSE_IDS)
    HOUSE_IDS.
Proof.
  unfold buildHouseScenes. cbv zeta. rewrite flat_map_if.
  assert (Hall : filter (includes HOUSE_IDS) FEATURED_HOUSE_IDS
                 = FEATURED_HOUSE_IDS) by reflexivity.
  rewrite Hall. split; [reflexivity |].
  rewrite <- Hall at 1.
  apply featured_then_rest;
    [apply FEATURED_HOUSE_IDS_distinct | apply HOUSE_IDS_distinct].
Qed.

(** Looking an identifier up in a list of entries whose identifiers are
    distinct. *)
Lemma find_by_id (entry : bool -> Z -> SceneInfo Prompt)
    (F rest : list Z) (wanted : Z) :
  (forall f x, id Prompt (entry f x) = x) ->
  NoDup (F ++ rest) ->
  find (fun s => (id Prompt s =? wanted)%Z)
       (map (entry true) F ++ map (entry false) rest)
  = if includes (F ++ rest) wanted
    then Some (entry (includes F wanted) wanted)
    else None.
Proof.
  intros Hid.
  induction F as [| a F IH]; intros Hnd.
  - cbn [map app includes existsb]. clear Hnd.
    induction rest as [| b rest IHr]; [reflexivity |].
    cbn [map find includes existsb]. rewrite Hid.
    rewrite (Z.eqb_sym b wanted).
    destruct (Z.eqb_spec wanted b) as [-> | N]; [reflexivity |].
    cbn [orb]. exact IHr.
  - cbn [map app find]. rewrite Hid.
    inversion Hnd as [| ? ? Hnotin Hnd' ]; subst.
    cbn [includes existsb app]. rewrite (Z.eqb_sym a wanted).
    destruct (Z.eqb_spec wanted a) as [-> | N]; [reflexivity |].
    cbn [orb]. apply IH. exact Hnd'.
Qed.

End Catalogue.

(** X14.  The catalogue lists every available scene exactly once, the
    featured ones first and in their given order: [SCENES.rooms] is the
    featured rooms followed by a permutation of the other available
    rooms, [SCENES.houses] the featured houses followed by the other
    available houses in their original order; and every entry of the
    first part is flagged as featured, every entry of the second as not
    featured. *)
Theorem catalogue_lists_every_scene_once :
  forall (Prompt : Type) (PROMPTS : Z -> option Prompt),
    (exists rest,
       SceneData.buildRoomScenes Prompt PROMPTS
       = map (SceneData.room_entry Prompt PROMPTS true)
             SceneData.FEATURED_ROOM_IDS ++
         map (SceneData.room_entry Prompt PROMPTS false) rest /\
       Permutation (SceneData.FEATURED_ROOM_IDS ++ rest) SceneData.ROOM_IDS)
    /\
    SceneData.buildHouseScenes Prompt PROMPTS
    = map (SceneData.house_entry Prompt PROMPTS true)
          SceneData.FEATURED_HOUSE_IDS ++
      map (SceneData.house_entry Prompt PROMPTS false)
        (filter (fun x =>
                   negb (SceneData.includes SceneData.FEATURED_HOUSE_IDS x))
                SceneData.HOUSE_IDS) /\
    Permutation
      (map (SceneData.id Prompt) (SceneData.buildHouseScenes Prompt PROMPTS))
      SceneData.HOUSE_IDS /\
    Permutation
      (map (SceneData.id Prompt) (SceneData.buildRoomScenes Prompt PROMPTS))
      SceneData.ROOM_IDS.
Proof.
  intros Prompt PROMPTS.
  destruct (rooms_shape Prompt PROMPTS) as [rest [Hr [Hp _]]].
  destruct (houses_shape Prompt PROMPTS) as [Hh Hph].
  split; [exists rest; split; assumption |].
  split; [exact Hh |]. split.
  - rewrite Hh, map_app, !map_map. cbn [SceneData.id SceneData.house_entry].
    rewrite !map_id. exact Hph.
  - rewrite Hr, map_app, !map_map. cbn [SceneData.id SceneData.room_entry].
    rewrite !map_id. exact Hp.
Qed.

(** X15.  [getSceneById] finds every available scene, and only those:
    for an available identifier it returns the entry with that
    identifier, its prompt from the table, the path of its model and the
    right [featured] flag; for any other identifier it returns
    [undefined].  A [type] other than ['rooms'] looks among the
    houses. *)
Theorem getSceneById_finds_available_scenes :
  forall (Prompt : Type) (PROMPTS : Z -> option Prompt) (wanted : Z),
    SceneData.getSceneById Prompt PROMPTS wanted SceneData.rooms
    = (if SceneData.includes SceneData.ROOM_IDS wanted
       then Some (SceneData.room_entry Prompt PROMPTS
                    (SceneData.includes SceneData.FEATURED_ROOM_IDS wanted)
                    wanted)
       else None) /\
    SceneData.getSceneById Prompt PROMPTS wanted SceneData.other_type
    = (if SceneData.includes SceneData.HOUSE_IDS wanted
       then Some (SceneData.house_entry Prompt PROMPTS
                    (SceneData.includes SceneData.FEATURED_HOUSE_IDS wanted)
                    wanted)
       else None).
Proof.
  intros Prompt PROMPTS wanted.
  unfold SceneData.getSceneById, SceneData.SCENES. split.
  - destruct (rooms_shape Prompt PROMPTS) as [rest [Hr [Hp _]]].
    rewrite Hr.
    rewrite (find_by_id Prompt (SceneData.room_entry Prompt PROMPTS)).
    + assert (E : SceneData.includes (SceneData.FEATURED_ROOM_IDS ++ rest)
                    wanted
                  = SceneData.includes SceneData.ROOM_IDS wanted).
      { apply eq_true_iff_eq. rewrite !includes_In.
        split; apply Permutation_in;
          [exact Hp | apply Permutation_sym; exact Hp]. }
      rewrite E. reflexivity.
    + reflexivity.
    + eapply Permutation_NoDup;
        [apply Permutation_sym; exact Hp | apply ROOM_IDS_distinct].
  - destruct (houses_shape Prompt PROMPTS) as [Hh Hp].
    rewrite Hh.
    rewrite (find_by_id Prompt (SceneData.house_entry Prompt PROMPTS)).
    + match goal with
      | |- context [SceneData.includes (?F ++ ?R) wanted] =>
          assert (E : SceneData.includes (F ++ R) wanted
                      = SceneData.includes SceneData.HOUSE_IDS wanted)
      end.
      { apply eq_true_iff_eq. rewrite !includes_In.
        split; apply Permutation_in;
          [exact Hp | apply Permutation_sym; exact Hp]. }
      rewrite E. reflexivity.
    + reflexivity.
    + eapply Permutation_NoDup;
        [apply Permutation_sym; exact Hp | apply HOUSE_IDS_distinct].
Qed.

(** ** [SceneCache] *)

Section MapFacts.

Variables K V : Type.
Variable eqb : K -> K -> bool.
Hypothesis eqb_eq : forall a b, eqb a b = true <-> a = b.

Local Abbreviation get := (JSMap.get K V eqb).
Local Abbreviation set := (JSMap.set K V eqb).
Local Abbreviation delete := (JSMap.delete K V eqb).

Lemma eqb_refl (a : K) : eqb a a = true.
Proof. apply eqb_eq. reflexivity. Qed.

Lemma eqb_neq (a b : K) : a <> b -> eqb a b = false.
Proof.
  intros N. destruct (eqb a b) eqn:E; [| reflexivity].
  apply eqb_eq in E. contradiction.
Qed.

Lemma map_get_in (m : JSMap.t K V) (k : K) (v : V) :
  get m k = Some v -> In (k, v) m.
Proof.
  induction m as [| [k' v'] m IH]; cbn; [discriminate |].
  destruct (eqb k k') eqn:E.
  - intros H. injection H as ->. apply eqb_eq in E. subst. left. reflexivity.
  - intros H. right. apply IH. exact H.
Qed.

Lemma map_get_none (m : JSMap.t K V) (k : K) :
  get m k = None <-> ~ In k (JSMap.keys K V m).
Proof.
  induction m as [| [k' v'] m IH]; cbn; [tauto |].
  destruct (eqb k k') eqn:E.
  - apply eqb_eq in E. subst. split; [discriminate | intros H].
    exfalso. apply H. left. reflexivity.
  - rewrite IH. split.
    + intros H [-> | Hin]; [rewrite eqb_refl in E; discriminate | tauto].
    + tauto.
Qed.

Lemma map_in_get (m : JSMap.t K V) (k : K) (v : V) :
  NoDup (JSMap.keys K V m) -> In (k, v) m -> get m k = Some v.
Proof.
  induction m as [| [k' v'] m IH]; cbn; [contradiction |].
  intros Hnd [H | H].
  - injection H as -> ->. rewrite eqb_refl. reflexivity.
  - inversion Hnd as [| ? ? Hnotin Hnd']; subst.
    destruct (eqb k k') eqn:E.
    + apply eqb_eq in E. subst. exfalso. apply Hnotin.
      change k' with (fst (k', v)). apply in_map. exact H.
    + apply IH; assumption.
Qed.

Lemma map_set_keys (m : JSMap.t K V) (k : K) (v : V) :
  JSMap.keys K V (set m k v)
  = if JSMap.has K V eqb m k then JSMap.keys K V m
    else JSMap.keys K V m ++ [k].
Proof.
  unfold JSMap.has, JSMap.keys.
  induction m as [| [k' v'] m IH]; cbn; [reflexivity |].
  destruct (eqb k k') eqn:E; [reflexivity |].
  cbn. rewrite IH. destruct (get m k); reflexivity.
Qed.

Lemma map_set_absent (m : JSMap.t K V) (k : K) (v : V) :
  get m k = None -> set m k v = m ++ [(k, v)].
Proof.
  induction m as [| [k' v'] m IH]; cbn; [reflexivity |].
  destruct (eqb k k'); [discriminate |].
  intros H. rewrite IH by exact H. reflexivity.
Qed.

Lemma map_get_set_same (m : JSMap.t K V) (k : K) (v : V) :
  get (set m k v) k = Some v.
Proof.
  induction m as [| [k' v'] m IH]; cbn.
  - rewrite eqb_refl. reflexivity.
  - destruct (eqb k k') eqn:E; cbn; rewrite E; [reflexivity | exact IH].
Qed.

Lemma map_get_set_other (m : JSMap.t K V) (k k0 : K) (v : V) :
  k0 <> k -> get (set m k v) k0 = get m k0.
Proof.
  intros N. induction m as [| [k' v'] m IH]; cbn.
  - rewrite (eqb_neq k0 k N). reflexivity.
  - destruct (eqb k k') eqn:E; cbn.
    + apply eqb_eq in E. subst k'. rewrite (eqb_neq k0 k N). reflexivity.
    + destruct (eqb k0 k'); [reflexivity | exact IH].
Qed.

Lemma map_delete_keys (m : JSMap.t K V) (k : K) :
  NoDup (JSMap.keys K V m) ->
  NoDup (JSMap.keys K V (delete m k)) /\
  (In k (JSMap.keys K V m) ->
   S (length (delete m k)) = length m /\
   ~ In k (JSMap.keys K V (delete m k))) /\
  (forall k0, In k0 (JSMap.keys K V (delete m k)) ->
              In k0 (JSMap.keys K V m)).
Proof.
  induction m as [| [k' v'] m IH]; cbn; intros Hnd.
  - split; [constructor |]. split; [contradiction | tauto].
  - inversion Hnd as [| ? ? Hnotin Hnd']; subst.
    destruct (IH Hnd') as [IH1 [IH2 IH3]].
    destruct (eqb k k') eqn:E.
    + apply eqb_eq in E. subst k'.
      split; [exact Hnd' |]. split; [| tauto].
      intros _. split; [reflexivity | exact Hnotin].
    + cbn. split.
      * constructor; [| exact IH1]. intros Hin. apply Hnotin.
        apply IH3. exact Hin.
      * split.
        -- intros [-> | Hin]; [rewrite eqb_refl in E; discriminate |].
           destruct (IH2 Hin) as [Hl Hn]. split; [rewrite Hl; reflexivity |].
           intros [-> | H]; [rewrite eqb_refl in E; discriminate |].
           contradiction.
        -- intros k0 [-> | H]; [left; reflexivity | right; apply IH3; exact H].
Qed.

Lemma map_get_snoc_other (m : JSMap.t K V) (k k0 : K) (v : V) :
  k0 <> k -> get (m ++ [(k, v)]) k0 = get m k0.
Proof.
  intros N. induction m as [| [k1 v1] m IH]; cbn.
  - rewrite (eqb_neq k0 k N). reflexivity.
  - destruct (eqb k0 k1); [reflexivity | exact IH].
Qed.

End MapFacts.

Section CacheFacts.

Variable Key : Type.
Variable key_eqb : Key -> Key -> bool.
Hypothesis key_eqb_eq : forall a b, key_eqb a b = true <-> a = b.
Variable GLTF : Type.
Variable has_scene : GLTF -> bool.

Local Abbreviation Entry := (SceneCache.Entry GLTF).
Local Abbreviation lastAccess := (SceneCache.lastAccess GLTF).
Local Abbreviation oldest := (SceneCache.oldest Key GLTF).

(** The key the loop of [evictOldest] ends with belongs to an entry
    that no other entry undercuts. *)
Lemma oldest_spec (entries : list (Key * Entry)) :
  forall (ok : option Key) (ot : option Z),
    match oldest entries ok ot with
    | Some k =>
        (exists e, In (k, e) entries /\
           (forall k' e', In (k', e') entries ->
                          (lastAccess e <= lastAccess e')%Z) /\
           (forall time, ot = Some time -> (lastAccess e < time)%Z)) \/
        (ok = Some k /\
         forall time, ot = Some time ->
           forall k' e', In (k', e') entries -> (time <= lastAccess e')%Z)
    | None => ok = None /\ (entries = [] \/ ot <> None)
    end.
Proof.
  induction entries as [| [key entry] rest IH]; intros ok ot.
  - cbn. destruct ok as [k |].
    + right. split; [reflexivity |]. intros time _ k' e' [].
    + split; [reflexivity | left; reflexivity].
  - cbn [SceneCache.oldest].
    destruct (match ot with
              | Some time => (lastAccess entry <? time)%Z
              | None => true
              end) eqn:Hlt.
    + specialize (IH (Some key) (Some (lastAccess entry))).
      destruct (oldest rest (Some key) (Some (lastAccess entry)))
        as [k |]; [| destruct IH as [IH _]; discriminate].
      left. destruct IH as [[e [Hin [Hmin Hlow]]] | [Hk Hmin]].
      * exists e. split; [right; exact Hin |]. split.
        -- intros k' e' [H | H].
           ++ injection H as <- <-. specialize (Hlow _ eq_refl). lia.
           ++ apply (Hmin k' e' H).
        -- intros time ->. apply Z.ltb_lt in Hlt.
           specialize (Hlow _ eq_refl). lia.
      * injection Hk as <-. exists entry.
        split; [left; reflexivity |]. split.
        -- intros k' e' [H | H].
           ++ injection H as <- <-. lia.
           ++ apply (Hmin _ eq_refl k' e' H).
        -- intros time ->. apply Z.ltb_lt in Hlt. exact Hlt.
    + destruct ot as [time0 |]; [| discriminate].
      apply Z.ltb_ge in Hlt.
      specialize (IH ok (Some time0)).
      destruct (oldest rest ok (Some time0)) as [k |].
      * destruct IH as [[e [Hin [Hmin Hlow]]] | [Hk Hmin]].
        -- left. exists e. split; [right; exact Hin |]. split.
           ++ intros k' e' [H | H].
              ** injection H as <- <-. specialize (Hlow _ eq_refl). lia.
              ** apply (Hmin k' e' H).
           ++ exact Hlow.
        -- right. split; [exact Hk |]. intros time Ht.
           injection Ht as <-. intros k' e' [H | H].
           ++ injection H as <- <-. exact Hlt.
           ++ apply (Hmin _ eq_refl k' e' H).
      * destruct IH as [IH _]. split; [exact IH |]. right. discriminate.
Qed.

Lemma oldest_of_nonempty (entries : list (Key * Entry)) :
  entries <> [] ->
  exists k e,
    oldest entries None None = Some k /\ In (k, e) entries /\
    forall k' e', In (k', e') entries -> (lastAccess e <= lastAccess e')%Z.
Proof.
  intros Hne. pose proof (oldest_spec entries None None) as H.
  destruct (oldest entries None None) as [k |].
  - destruct H as [[e [Hin [Hmin _]]] | [Hk _]]; [| discriminate].
    exists k, e. repeat split; assumption.
  - destruct H as [_ [H | H]]; [contradiction | exfalso; apply H; reflexivity].
Qed.

Local Abbreviation cache_get := (SceneCache.get Key key_eqb GLTF has_scene).
Local Abbreviation entries_of := (SceneCache.cache Key GLTF).
Local Abbreviation limit := (SceneCache.maxSize Key GLTF).
Local Abbreviation keys_of := (JSMap.keys Key Entry).
Local Abbreviation lookup := (JSMap.get Key Entry key_eqb).
Local Abbreviation remove := (JSMap.delete Key Entry key_eqb).

Lemma keys_length (m : JSMap.t Key Entry) : length (keys_of m) = length m.
Proof. apply length_map. Qed.

Lemma in_keys (m : JSMap.t Key Entry) (k : Key) (e : Entry) :
  In (k, e) m -> In k (keys_of m).
Proof. intros H. change k with (fst (k, e)). apply in_map. exact H. Qed.

(** What a miss with a successful load does to the entries. *)
Lemma get_miss (c : SceneCache.t Key GLTF) (key : Key)
    (loadFn : unit -> option GLTF) (now : Z) (g : GLTF) :
  lookup (entries_of c) key = None ->
  loadFn tt = Some g ->
  entries_of c <> [] ->
  NoDup (keys_of (entries_of c)) ->
  (limit c <= Z.of_nat (length (entries_of c)))%Z ->
  exists k e,
    In (k, e) (entries_of c) /\
    (forall k' e', In (k', e') (entries_of c) ->
                   (lastAccess e <= lastAccess e')%Z) /\
    cache_get c key loadFn now
    = (SceneCache.mkGot GLTF (Some g) true
         (if has_scene (SceneCache.gltf GLTF e)
          then [SceneCache.gltf GLTF e] else []),
       SceneCache.mkCache Key GLTF (limit c)
         (remove (entries_of c) k ++ [(key, SceneCache.mkEntry GLTF g now)])).
Proof.
  intros Hmiss Hload Hne Hnd Hfull.
  destruct (oldest_of_nonempty (entries_of c) Hne) as [k [e [Hk [Hin Hmin]]]].
  exists k, e. split; [exact Hin |]. split; [exact Hmin |].
  unfold SceneCache.get. rewrite Hmiss, Hload.
  apply Z.leb_le in Hfull. rewrite Hfull.
  unfold SceneCache.evictOldest. rewrite Hk.
  rewrite (map_in_get Key Entry key_eqb key_eqb_eq _ _ _ Hnd Hin).
  cbn [SceneCache.maxSize SceneCache.cache].
  rewrite (map_set_absent Key Entry key_eqb); [reflexivity |].
  apply (map_get_none Key Entry key_eqb key_eqb_eq).
  intros Hkey.
  apply (map_get_none Key Entry key_eqb key_eqb_eq) in Hmiss. apply Hmiss.
  destruct (map_delete_keys Key Entry key_eqb key_eqb_eq
              (entries_of c) k Hnd) as [_ [_ Hsub]].
  apply Hsub. exact Hkey.
Qed.

(** X16. A cache built for at least one scene never holds more scenes
    than its [maxSize]: whatever [get] is asked and whether the load
    succeeds, a cache within its limit stays within it, and no scene
    id is entered twice. *)
Theorem cache_get_keeps_capacity (c : SceneCache.t Key GLTF) (key : Key)
    (loadFn : unit -> option GLTF) (now : Z) :
  (1 <= limit c)%Z ->
  (Z.of_nat (SceneCache.size Key GLTF c) <= limit c)%Z ->
  NoDup (keys_of (entries_of c)) ->
  let c' := snd (cache_get c key loadFn now) in
  limit c' = limit c /\
  (Z.of_nat (SceneCache.size Key GLTF c') <= limit c)%Z /\
  NoDup (keys_of (entries_of c')).
Proof.
  unfold SceneCache.size. intros Hone Hsize Hnd.
  destruct (lookup (entries_of c) key) as [entry |] eqn:Hget.
  - unfold SceneCache.get. rewrite Hget.
    cbn [snd SceneCache.maxSize SceneCache.cache].
    split; [reflexivity |].
    assert (Hkeys : keys_of (JSMap.set Key Entry key_eqb (entries_of c) key
                     (SceneCache.mkEntry GLTF (SceneCache.gltf GLTF entry) now))
                    = keys_of (entries_of c)).
    { rewrite (map_set_keys Key Entry key_eqb). unfold JSMap.has.
      rewrite Hget. reflexivity. }
    split.
    + rewrite <- keys_length, Hkeys, keys_length. exact Hsize.
    + rewrite Hkeys. exact Hnd.
  - destruct (loadFn tt) as [g |] eqn:Hload.
    2:{ unfold SceneCache.get. rewrite Hget, Hload. cbn [snd].
        split; [reflexivity |]. split; assumption. }
    destruct (limit c <=? Z.of_nat (length (entries_of c)))%Z eqn:Hfull.
    + apply Z.leb_le in Hfull.
      assert (Hne : entries_of c <> []).
      { intros E. rewrite E in Hfull. cbn in Hfull. lia. }
      destruct (get_miss c key loadFn now g Hget Hload Hne Hnd Hfull)
        as [k [e [Hin [_ Hrun]]]].
      rewrite Hrun. cbn [snd SceneCache.maxSize SceneCache.cache].
      destruct (map_delete_keys Key Entry key_eqb key_eqb_eq
                  (entries_of c) k Hnd) as [Hnd' [Hlen Hsub]].
      destruct (Hlen (in_keys _ _ _ Hin)) as [Hl _].
      split; [reflexivity |]. split.
      * rewrite length_app. cbn. lia.
      * unfold JSMap.keys. rewrite map_app. cbn.
        apply NoDup_app; [exact Hnd' | repeat constructor; intros [] |].
        intros x Hx [<- | []].
        apply (map_get_none Key Entry key_eqb key_eqb_eq) in Hget.
        apply Hget. apply Hsub. exact Hx.
    + unfold SceneCache.get. rewrite Hget, Hload, Hfull.
      cbn [snd SceneCache.maxSize SceneCache.cache].
      rewrite (map_set_absent Key Entry key_eqb) by exact Hget.
      apply Z.leb_gt in Hfull.
      split; [reflexivity |]. split.
      * rewrite length_app. cbn. lia.
      * unfold JSMap.keys. rewrite map_app. cbn.
        apply NoDup_app; [exact Hnd | repeat constructor; intros [] |].
        intros x Hx [<- | []].
        apply (map_get_none Key Entry key_eqb key_eqb_eq) in Hget.
        apply Hget. exact Hx.
Qed.

(** X17. When a scene that is not cached is loaded into a full cache,
    the entry given up is one whose last access is the earliest of
    all; its scene, if it has one, is the only one disposed of; every
    other entry keeps its place, and the new scene is entered last,
    stamped with the current time. *)
Theorem cache_evicts_least_recently_used (c : SceneCache.t Key GLTF)
    (key : Key) (loadFn : unit -> option GLTF) (now : Z) (g : GLTF) :
  lookup (entries_of c) key = None ->
  loadFn tt = Some g ->
  entries_of c <> [] ->
  NoDup (keys_of (entries_of c)) ->
  (limit c <= Z.of_nat (SceneCache.size Key GLTF c))%Z ->
  exists k e,
    In (k, e) (entries_of c) /\
    (forall k' e', In (k', e') (entries_of c) ->
                   (lastAccess e <= lastAccess e')%Z) /\
    SceneCache.has Key key_eqb GLTF
      (snd (cache_get c key loadFn now)) k = false /\
    SceneCache.disposed GLTF (fst (cache_get c key loadFn now))
    = (if has_scene (SceneCache.gltf GLTF e)
       then [SceneCache.gltf GLTF e] else []) /\
    entries_of (snd (cache_get c key loadFn now))
    = remove (entries_of c) k ++ [(key, SceneCache.mkEntry GLTF g now)] /\
    (forall k', k' <> k -> k' <> key ->
       lookup (entries_of (snd (cache_get c key loadFn now))) k'
       = lookup (entries_of c) k').
Proof.
  intros Hmiss Hload Hne Hnd Hfull.
  destruct (get_miss c key loadFn now g Hmiss Hload Hne Hnd Hfull)
    as [k [e [Hin [Hmin Hrun]]]].
  exists k, e. rewrite Hrun. cbn [fst snd SceneCache.disposed SceneCache.cache].
  destruct (map_delete_keys Key Entry key_eqb key_eqb_eq
              (entries_of c) k Hnd) as [Hnd' [Hlen Hsub]].
  destruct (Hlen (in_keys _ _ _ Hin)) as [_ Hgone].
  assert (Hk : k <> key).
  { intros ->. apply (map_get_none Key Entry key_eqb key_eqb_eq) in Hmiss.
    apply Hmiss. apply (in_keys _ _ _ Hin). }
  assert (Happ : forall (m : JSMap.t Key Entry) k0 kn en,
             k0 <> kn -> lookup (m ++ [(kn, en)]) k0 = lookup m k0).
  { intros m k0 kn en N. induction m as [| [k1 e1] m IH]; cbn.
    - rewrite (eqb_neq Key key_eqb key_eqb_eq _ _ N). reflexivity.
    - destruct (key_eqb k0 k1); [reflexivity | exact IH]. }
  assert (Hdel : forall (m : JSMap.t Key Entry) k0,
             k0 <> k -> lookup (remove m k) k0 = lookup m k0).
  { intros m k0 N. induction m as [| [k1 e1] m IH]; cbn; [reflexivity |].
    destruct (key_eqb k k1) eqn:E; cbn.
    - apply key_eqb_eq in E. subst k1.
      rewrite (eqb_neq Key key_eqb key_eqb_eq _ _ N). reflexivity.
    - destruct (key_eqb k0 k1); [reflexivity | exact IH]. }
  repeat split; try assumption; try reflexivity.
  - unfold SceneCache.has, JSMap.has. cbn [SceneCache.cache].
    rewrite Happ by exact Hk.
    apply (map_get_none Key Entry key_eqb key_eqb_eq) in Hgone.
    rewrite Hgone. reflexivity.
  - intros k' N1 N2. rewrite Happ by exact N2. apply Hdel. exact N1.
Qed.

(** X18. Once [get] has resolved to a scene, the scene is cached: [has]
    answers true for its id, and the next [get] for that id resolves to
    the same scene without calling its load function and without
    disposing of anything. *)
Theorem cache_get_then_hit (c : SceneCache.t Key GLTF) (key : Key)
    (loadFn loadFn' : unit -> option GLTF) (now now' : Z) (g : GLTF) :
  SceneCache.value GLTF (fst (cache_get c key loadFn now)) = Some g ->
  let c' := snd (cache_get c key loadFn now) in
  SceneCache.has Key key_eqb GLTF c' key = true /\
  fst (cache_get c' key loadFn' now') = SceneCache.mkGot GLTF (Some g) false [].
Proof.
  intros Hval c'.
  assert (Hc' : lookup (entries_of c') key
                = Some (SceneCache.mkEntry GLTF g now)).
  { subst c'. revert Hval. unfold SceneCache.get.
    destruct (lookup (entries_of c) key) as [entry |] eqn:Hget.
    - cbn. intros H. injection H as <-.
      apply (map_get_set_same Key Entry key_eqb key_eqb_eq).
    - destruct (loadFn tt) as [g0 |]; [| cbn; discriminate].
      destruct (if (limit c <=? Z.of_nat (length (entries_of c)))%Z
                then SceneCache.evictOldest Key key_eqb GLTF has_scene c
                else (c, [])) as [c1 gone].
      cbn. intros H. injection H as <-.
      apply (map_get_set_same Key Entry key_eqb key_eqb_eq). }
  split.
  - unfold SceneCache.has, JSMap.has. rewrite Hc'. reflexivity.
  - unfold SceneCache.get. rewrite Hc'. reflexivity.
Qed.

End CacheFacts.

Lemma cache_get_keeps_capacity_witness :
  let c := SceneCache.mkCache Z Z 2
             [(7, SceneCache.mkEntry Z 70 5); (8, SceneCache.mkEntry Z 80 3)]%Z in
  let c' := snd (SceneCache.get Z Z.eqb Z (fun _ => true) c 9%Z
                   (fun _ => Some 90%Z) 6%Z) in
  SceneCache.maxSize Z Z c' = 2%Z /\
  (Z.of_nat (SceneCache.size Z Z c') <= 2)%Z /\
  NoDup (JSMap.keys Z (SceneCache.Entry Z) (SceneCache.cache Z Z c')).
Proof.
  apply (cache_get_keeps_capacity Z Z.eqb Z.eqb_eq Z (fun _ => true)).
  - cbn. lia.
  - cbn. lia.
  - cbn. repeat constructor; cbn; intuition discriminate.
Defined.

Lemma cache_evicts_least_recently_used_witness :
  let c := SceneCache.mkCache Z Z 2
             [(7, SceneCache.mkEntry Z 70 5); (8, SceneCache.mkEntry Z 80 3)]%Z in
  exists k e,
    In (k, e) (SceneCache.cache Z Z c) /\
    (forall k' e', In (k', e') (SceneCache.cache Z Z c) ->
       (SceneCache.lastAccess Z e <= SceneCache.lastAccess Z e')%Z) /\
    SceneCache.has Z Z.eqb Z
      (snd (SceneCache.get Z Z.eqb Z (fun _ => true) c 9%Z
              (fun _ => Some 90%Z) 6%Z)) k = false /\
    SceneCache.disposed Z
      (fst (SceneCache.get Z Z.eqb Z (fun _ => true) c 9%Z
              (fun _ => Some 90%Z) 6%Z))
    = (if (fun _ : Z => true) (SceneCache.gltf Z e)
       then [SceneCache.gltf Z e] else []) /\
    SceneCache.cache Z Z
      (snd (SceneCache.get Z Z.eqb Z (fun _ => true) c 9%Z
              (fun _ => Some 90%Z) 6%Z))
    = JSMap.delete Z (SceneCache.Entry Z) Z.eqb (SceneCache.cache Z Z c) k
      ++ [(9, SceneCache.mkEntry Z 90 6)]%Z /\
    (forall k', k' <> k -> k' <> 9%Z ->
       JSMap.get Z (SceneCache.Entry Z) Z.eqb
         (SceneCache.cache Z Z
            (snd (SceneCache.get Z Z.eqb Z (fun _ => true) c 9%Z
                    (fun _ => Some 90%Z) 6%Z))) k'
       = JSMap.get Z (SceneCache.Entry Z) Z.eqb (SceneCache.cache Z Z c) k').
Proof.
  apply (cache_evicts_least_recently_used Z Z.eqb Z.eqb_eq Z (fun _ => true)).
  - reflexivity.
  - reflexivity.
  - cbn. discriminate.
  - cbn. repeat constructor; cbn; intuition discriminate.
  - cbn. lia.
Defined.

Lemma cache_get_then_hit_witness :
  let c := SceneCache.mkCache Z Z 2
             [(7, SceneCache.mkEntry Z 70 5); (8, SceneCache.mkEntry Z 80 3)]%Z in
  let c' := snd (SceneCache.get Z Z.eqb Z (fun _ => true) c 9%Z
                   (fun _ => Some 90%Z) 6%Z) in
  SceneCache.has Z Z.eqb Z c' 9%Z = true /\
  fst (SceneCache.get Z Z.eqb Z (fun _ => true) c' 9%Z (fun _ => None) 7%Z)
  = SceneCache.mkGot Z (Some 90%Z) false [].
Proof.
  apply (cache_get_then_hit Z Z.eqb Z.eqb_eq Z (fun _ => true)).
  reflexivity.
Defined.

(** ** [MetadataManager] *)

Section MetadataFacts.

Import String.

Variable Obj : Type.
Variable object_id : Obj -> option string.

Local Abbreviation map_get := (JSMap.get string Obj String.eqb).
Local Abbreviation map_has := (JSMap.has string Obj String.eqb).
Local Abbreviation map_set := (JSMap.set string Obj String.eqb).
Local Abbreviation map_keys := (JSMap.keys string Obj).
Local Abbreviation build := (MetadataManager._buildObjectMap Obj object_id).
Local Abbreviation resolve := (MetadataManager._resolveObjectId Obj).

Local Abbreviation enter := (MetadataManager.enter Obj object_id).
Local Abbreviation has_id := (MetadataManager.has_id Obj object_id).

Lemma enter_get (objectMap : JSMap.t string Obj) (obj : Obj) (id : string) :
  map_get (enter objectMap obj) id
  = if has_id id obj then Some obj else map_get objectMap id.
Proof.
  unfold MetadataManager.enter, MetadataManager.has_id.
  destruct (object_id obj) as [id' |]; [| reflexivity].
  destruct (String.eqb id' id) eqn:E.
  - apply String.eqb_eq in E. subst id'.
    apply (map_get_set_same string Obj String.eqb String.eqb_eq).
  - apply (map_get_set_other string Obj String.eqb String.eqb_eq).
    intros N. subst id'. rewrite String.eqb_refl in E. discriminate.
Qed.

Lemma find_snoc {A} (p : A -> bool) (l : list A) (x : A) :
  find p (l ++ [x])
  = match find p l with
    | Some y => Some y
    | None => if p x then Some x else None
    end.
Proof.
  induction l as [| y l IH]; cbn; [reflexivity |].
  destruct (p y); [reflexivity | exact IH].
Qed.

Lemma fold_enter_get (objs : list Obj) :
  forall (objectMap : JSMap.t string Obj) (id : string),
    map_get (fold_left enter objs objectMap) id
    = match find (has_id id) (rev objs) with
      | Some obj => Some obj
      | None => map_get objectMap id
      end.
Proof.
  induction objs as [| obj objs IH]; intros objectMap id; [reflexivity |].
  cbn [fold_left rev]. rewrite IH, find_snoc, enter_get.
  destruct (find (has_id id) (rev objs)); [reflexivity |].
  destruct (has_id id obj); reflexivity.
Qed.

Lemma enter_keys_nodup (objectMap : JSMap.t string Obj) (obj : Obj) :
  NoDup (map_keys objectMap) -> NoDup (map_keys (enter objectMap obj)).
Proof.
  intros Hnd. unfold MetadataManager.enter. destruct (object_id obj) as [id |]; [| exact Hnd].
  rewrite (map_set_keys string Obj String.eqb). unfold JSMap.has.
  destruct (map_get objectMap id) eqn:E; [exact Hnd |].
  apply NoDup_app; [exact Hnd | repeat constructor; intros [] |].
  intros x Hx [<- | []].
  apply (map_get_none string Obj String.eqb String.eqb_eq) in E.
  contradiction.
Qed.

Lemma fold_enter_keys_nodup (objs : list Obj) :
  forall objectMap : JSMap.t string Obj,
    NoDup (map_keys objectMap) ->
    NoDup (map_keys (fold_left enter objs objectMap)).
Proof.
  induction objs as [| obj objs IH]; intros objectMap Hnd; [exact Hnd |].
  cbn [fold_left]. apply IH, enter_keys_nodup, Hnd.
Qed.

(** X19. Whenever [getObjectMetadata] finds metadata for a name,
    [_resolveObjectId] resolves the name to the id under which that
    very metadata is stored: the panel and the collision file of a
    selected object belong to the same entry. *)
Theorem metadata_found_under_resolved_id (objectMap : JSMap.t string Obj)
    (objectId : string) (meta : Obj) :
  MetadataManager.getObjectMetadata Obj objectMap objectId = Some meta ->
  map_get objectMap (resolve objectMap objectId) = Some meta.
Proof.
  unfold MetadataManager.getObjectMetadata, MetadataManager._resolveObjectId,
    JSMap.has.
  destruct (map_get objectMap objectId) as [meta' |] eqn:Hid.
  - intros H. rewrite Hid. exact H.
  - destruct (negb (String.eqb (Names.strip_suffix objectId) objectId)).
    + intros H. rewrite H. cbn [andb]. exact H.
    + cbn [andb]. destruct (Names.long objectId); [| discriminate].
      intros H. rewrite H. cbn [andb]. exact H.
Qed.

(** X20. [_resolveObjectId] settles in one step: the id it resolves a
    name to resolves to itself, and it is either an id of the map or
    the name as it was given. *)
Theorem resolveObjectId_idempotent (objectMap : JSMap.t string Obj)
    (objectId : string) :
  resolve objectMap (resolve objectMap objectId) = resolve objectMap objectId
  /\ (map_has objectMap (resolve objectMap objectId) = true
      \/ resolve objectMap objectId = objectId).
Proof.
  assert (Hfix : forall id, map_has objectMap id = true ->
                            resolve objectMap id = id).
  { intros id H. unfold MetadataManager._resolveObjectId. rewrite H.
    reflexivity. }
  assert (Hcases : map_has objectMap (resolve objectMap objectId) = true
                   \/ resolve objectMap objectId = objectId).
  { unfold MetadataManager._resolveObjectId.
    destruct (map_has objectMap objectId) eqn:H1; [left; exact H1 |].
    destruct (negb (String.eqb (Names.strip_suffix objectId) objectId)
              && map_has objectMap (Names.strip_suffix objectId)) eqn:H2.
    { left. apply andb_prop in H2. apply H2. }
    destruct (Names.long objectId
              && map_has objectMap (Names.dotless objectId)) eqn:H3.
    { left. apply andb_prop in H3. apply H3. }
    right. reflexivity. }
  split; [| exact Hcases].
  destruct Hcases as [H | H].
  - apply Hfix. exact H.
  - rewrite H. exact H.
Qed.

(** X21. After [_buildObjectMap], the map answers an id with the last
    entry of [objects] that carries it (a later entry replaces an
    earlier one of the same id), and with nothing when no entry does;
    entries without an id are not entered. *)
Theorem buildObjectMap_lookup (objs : list Obj) (id : string) :
  map_get (build (Some objs)) id = find (has_id id) (rev objs).
Proof.
  unfold MetadataManager._buildObjectMap.
  rewrite fold_enter_get. destruct (find (has_id id) (rev objs)); reflexivity.
Qed.

(** X22. The ids handed to the picker by [getObjectIds] are exactly the
    ids carried by the entries of [objects], each of them once. *)
Theorem getObjectIds_are_the_object_ids (objs : list Obj) :
  NoDup (MetadataManager.getObjectIds Obj (build (Some objs))) /\
  forall id,
    In id (MetadataManager.getObjectIds Obj (build (Some objs))) <->
    exists obj, In obj objs /\ object_id obj = Some id.
Proof.
  unfold MetadataManager.getObjectIds, MetadataManager._buildObjectMap.
  split; [apply fold_enter_keys_nodup; constructor |].
  intros id.
  pose proof (map_get_none string Obj String.eqb String.eqb_eq
                (fold_left enter objs []) id) as Hnone.
  rewrite fold_enter_get in Hnone.
  destruct (find (has_id id) (rev objs)) as [obj |] eqn:Hfind.
  - split.
    + intros _. apply find_some in Hfind. destruct Hfind as [Hin Hid].
      exists obj. split; [apply in_rev; exact Hin |].
      unfold MetadataManager.has_id in Hid. destruct (object_id obj) as [id' |];
        [| discriminate].
      apply String.eqb_eq in Hid. subst. reflexivity.
    + intros _.
      destruct (in_dec string_dec id (map_keys (fold_left enter objs [])))
        as [Hin | Hout]; [exact Hin |].
      apply Hnone in Hout. discriminate.
  - split.
    + intros Hin. exfalso. cbn in Hnone.
      destruct Hnone as [Hnone _]. apply (Hnone eq_refl). exact Hin.
    + intros [obj [Hin Hid]]. exfalso.
      apply in_rev in Hin.
      pose proof (find_none _ _ Hfind obj Hin) as Hno.
      unfold MetadataManager.has_id in Hno. rewrite Hid, String.eqb_refl in Hno.
      discriminate.
Qed.

End MetadataFacts.

Lemma metadata_found_under_resolved_id_witness :
  JSMap.get String.string nat String.eqb NameExamples.objectMap
    (MetadataManager._resolveObjectId nat NameExamples.objectMap
       (ObjectPicker.name NameExamples.group))
  = Some 1%nat.
Proof.
  apply (metadata_found_under_resolved_id nat). reflexivity.
Defined.

(** ** [ObjectPicker] *)

(** X23. [updatePointer] maps an event inside the element to device
    coordinates between -1 and 1, the top left corner of the element
    to (-1, 1) and the bottom right one to (1, -1). *)
Theorem pointer_in_device_range (left top width height clientX clientY : Q) :
  0 < width -> 0 < height ->
  left <= clientX <= left + width ->
  top <= clientY <= top + height ->
  let p := ObjectPicker.updatePointer left top width height clientX clientY in
  (-1 <= fst p <= 1 /\ -1 <= snd p <= 1) /\
  (fst (ObjectPicker.updatePointer left top width height left top) == -1 /\
   snd (ObjectPicker.updatePointer left top width height left top) == 1) /\
  (fst (ObjectPicker.updatePointer left top width height
          (left + width) (top + height)) == 1 /\
   snd (ObjectPicker.updatePointer left top width height
          (left + width) (top + height)) == -1).
Proof.
  intros Hw Hh Hx Hy. cbn [ObjectPicker.updatePointer fst snd].
  assert (Hunit : forall a b, 0 < b -> 0 <= a <= b -> 0 <= a / b <= 1).
  { intros a b Hb [Ha1 Ha2]. split.
    - apply Qle_shift_div_l; [exact Hb | lra].
    - apply Qle_shift_div_r; [exact Hb | lra]. }
  pose proof (Hunit (clientX - left) width Hw ltac:(lra)) as Hu.
  pose proof (Hunit (clientY - top) height Hh ltac:(lra)) as Hv.
  split; [split; lra |].
  split; split; field; lra.
Qed.

Lemma pointer_in_device_range_witness :
  let p := ObjectPicker.updatePointer 10 20 800 600 210 470 in
  (-1 <= fst p <= 1 /\ -1 <= snd p <= 1) /\
  (fst (ObjectPicker.updatePointer 10 20 800 600 10 20) == -1 /\
   snd (ObjectPicker.updatePointer 10 20 800 600 10 20) == 1) /\
  (fst (ObjectPicker.updatePointer 10 20 800 600 (10 + 800) (20 + 600)) == 1 /\
   snd (ObjectPicker.updatePointer 10 20 800 600 (10 + 800) (20 + 600)) == -1).
Proof.
  apply (pointer_in_device_range 10 20 800 600 210 470); lra.
Defined.

Section PickerFacts.

Import String.

Variable toLowerCase : string -> string.

Local Abbreviation Object3D := ObjectPicker.Object3D.
Local Abbreviation name := ObjectPicker.name.
Local Abbreviation is_scene := ObjectPicker.is_scene.
Local Abbreviation below_scene := ObjectPicker.below_scene.
Local Abbreviation known := ObjectPicker.known.
Local Abbreviation depth := ObjectPicker.getDepthFromRoot.
Local Abbreviation getSelectableRoot :=
  (ObjectPicker.getSelectableRoot toLowerCase).

Lemma known_root_find (ids : list string) (ancestors : list Object3D) :
  forall current,
    ObjectPicker.known_root ids current ancestors
    = find (fun o => known ids (name o)) (current :: below_scene ancestors).
Proof.
  induction ancestors as [| parent above IH]; intros current;
    cbn [ObjectPicker.known_root ObjectPicker.below_scene find].
  - destruct (known ids (name current)); reflexivity.
  - destruct (known ids (name current)); [reflexivity |].
    destruct (is_scene parent); [reflexivity |]. apply IH.
Qed.

Lemma heuristic_root_above (object : Object3D) (ancestors : list Object3D) :
  forall current,
    (2 <= depth ancestors)%Z ->
    exists pre above,
      current :: ancestors
      = pre ++
        ObjectPicker.heuristic_root toLowerCase object false current ancestors
        :: above /\
      (2 <= depth above)%Z /\
      In (ObjectPicker.heuristic_root toLowerCase object false current
            ancestors)
         (current :: below_scene ancestors).
Proof.
  induction ancestors as [| parent above IH]; intros current Hdepth;
    cbn [ObjectPicker.getDepthFromRoot] in Hdepth; [lia |].
  cbn [ObjectPicker.heuristic_root ObjectPicker.below_scene].
  destruct (is_scene parent) eqn:Hscene; [lia |].
  assert (Hhere : exists pre above0,
             current :: parent :: above = pre ++ current :: above0 /\
             (2 <= depth above0)%Z /\
             In current (current :: parent :: below_scene above)).
  { exists [], (parent :: above). split; [reflexivity |].
    split; [| left; reflexivity].
    cbn [ObjectPicker.getDepthFromRoot]. rewrite Hscene. lia. }
  destruct (negb false && negb (String.eqb (name current) "")
            && negb (ObjectPicker.skipped (toLowerCase (name current))));
    [exact Hhere |].
  destruct (ObjectPicker.selectable current); [exact Hhere |].
  destruct (depth (parent :: above) <=? 2)%Z eqn:Hle; [exact Hhere |].
  apply Z.leb_gt in Hle. cbn [ObjectPicker.getDepthFromRoot] in Hle.
  rewrite Hscene in Hle.
  destruct (IH parent ltac:(lia)) as [pre [above0 [E [Hd Hin]]]].
  exists (current :: pre), above0. split; [cbn; rewrite E; reflexivity |].
  split; [exact Hd |]. right. exact Hin.
Qed.

Lemma heuristic_root_top (object : Object3D) (ancestors : list Object3D) :
  ObjectPicker.heuristic_root toLowerCase object true object ancestors
  = object \/
  exists pre above,
    ancestors
    = pre ++
      ObjectPicker.heuristic_root toLowerCase object true object ancestors
      :: above /\
    (2 <= depth above)%Z /\
    In (ObjectPicker.heuristic_root toLowerCase object true object ancestors)
       (below_scene ancestors).
Proof.
  destruct ancestors as [| parent above]; [left; reflexivity |].
  cbn [ObjectPicker.heuristic_root ObjectPicker.below_scene].
  destruct (is_scene parent) eqn:Hscene; [left; reflexivity |].
  cbn [negb andb].
  destruct (ObjectPicker.selectable object); [left; reflexivity |].
  destruct (depth (parent :: above) <=? 2)%Z eqn:Hle; [left; reflexivity |].
  apply Z.leb_gt in Hle. cbn [ObjectPicker.getDepthFromRoot] in Hle.
  rewrite Hscene in Hle.
  right. apply heuristic_root_above. lia.
Qed.

(** X24. Whatever the ids known, [getSelectableRoot] answers with the
    object hit or one of its ancestors below the scene: never with
    the scene itself, nor with anything above it or off the path. *)
Theorem selectable_root_below_scene (knownObjectIds : option (list string))
    (object : ObjectPicker.Chain) :
  In (getSelectableRoot knownObjectIds object)
     (fst object :: below_scene (snd object)).
Proof.
  unfold ObjectPicker.getSelectableRoot.
  destruct (match knownObjectIds with
            | Some ids =>
                ObjectPicker.known_root ids (fst object) (snd object)
            | None => None
            end) as [current |] eqn:Hknown.
  - destruct knownObjectIds as [ids |]; [| discriminate].
    rewrite known_root_find in Hknown.
    apply find_some in Hknown. apply Hknown.
  - destruct (heuristic_root_top (fst object) (snd object))
      as [-> | [pre [above [_ [_ Hin]]]]].
    + left. reflexivity.
    + right. exact Hin.
Qed.

(** X25. Without known ids, the root selected is the object hit or an
    ancestor of it that lies at least two levels below the top of its
    chain of ancestors: the walk upwards never ends on a direct child
    of the scene that the object was not itself. *)
Theorem heuristic_root_keeps_depth (object : ObjectPicker.Chain) :
  getSelectableRoot None object = fst object \/
  exists pre above,
    snd object = pre ++ getSelectableRoot None object :: above /\
    (2 <= depth above)%Z.
Proof.
  unfold ObjectPicker.getSelectableRoot.
  destruct (heuristic_root_top (fst object) (snd object))
    as [H | [pre [above [E [Hd _]]]]].
  - left. exact H.
  - right. exists pre, above. split; assumption.
Qed.

Variable Obj : Type.

Local Abbreviation map_has := (JSMap.has string Obj String.eqb).
Local Abbreviation resolve := (MetadataManager._resolveObjectId Obj).

Lemma set_has_keys (objectMap : JSMap.t string Obj) (s : string) :
  ObjectPicker.set_has (JSMap.keys string Obj objectMap) s
  = map_has objectMap s.
Proof.
  unfold ObjectPicker.set_has, JSMap.has, JSMap.keys.
  induction objectMap as [| [k v] m IH]; cbn; [reflexivity |].
  destruct (String.eqb s k); [reflexivity | exact IH].
Qed.

Lemma known_resolves (objectMap : JSMap.t string Obj) (n : string) :
  known (JSMap.keys string Obj objectMap) n = true ->
  map_has objectMap (resolve objectMap n) = true.
Proof.
  unfold ObjectPicker.known, MetadataManager._resolveObjectId.
  rewrite !set_has_keys. intros H.
  apply andb_prop in H. destruct H as [_ H].
  destruct (map_has objectMap n) eqn:H1; [exact H1 |].
  destruct (negb (String.eqb (Names.strip_suffix n) n)
            && map_has objectMap (Names.strip_suffix n)) eqn:H2.
  { apply andb_prop in H2. apply H2. }
  destruct (Names.long n && map_has objectMap (Names.dotless n)) eqn:H3.
  { apply andb_prop in H3. apply H3. }
  cbn [orb] in H. rewrite H in H3. discriminate.
Qed.

(** X26. With the ids of a scene's metadata made known to the picker,
    a hit whose path to the scene carries a known name selects the
    nearest object of that path with such a name, and the name of the
    object selected resolves to an id of the metadata, the one its
    collision file is looked up under. *)
Theorem named_root_selected_and_resolved (objectMap : JSMap.t string Obj)
    (object : ObjectPicker.Chain) (root : Object3D) :
  objectMap <> [] ->
  find (fun o => known (MetadataManager.getObjectIds Obj objectMap) (name o))
       (fst object :: below_scene (snd object)) = Some root ->
  getSelectableRoot
    (ObjectPicker.setKnownObjectIds
       (Some (MetadataManager.getObjectIds Obj objectMap))) object = root /\
  map_has objectMap (resolve objectMap (name root)) = true.
Proof.
  intros Hne Hfind. split.
  - unfold ObjectPicker.getSelectableRoot, MetadataManager.getObjectIds in *.
    destruct objectMap as [| [k v] m]; [contradiction |].
    cbn [ObjectPicker.setKnownObjectIds JSMap.keys map fst].
    change (k :: map fst m) with (JSMap.keys string Obj ((k, v) :: m)).
    rewrite known_root_find, Hfind. reflexivity.
  - apply find_some in Hfind. destruct Hfind as [_ Hknown].
    apply known_resolves. exact Hknown.
Qed.

Variable Point : Type.

Local Abbreviation Intersection := (ObjectPicker.Intersection Point).
Local Abbreviation hit := (ObjectPicker.hit Point).
Local Abbreviation pickable := (@ObjectPicker.pickable toLowerCase Point).
Local Abbreviation pick := (@ObjectPicker.pick toLowerCase Point).

(** X27. What [pick] returns is the nearest intersection whose object
    is visible, is not marked as not pickable, and has a visible
    selectable root; so neither a hidden object nor an object under a
    hidden root is ever picked, and the ray passes through them to
    what lies behind. *)
Theorem pick_takes_nearest_visible (knownObjectIds : option (list string))
    (intersects : list Intersection) (picked : ObjectPicker.Picked Point) :
  pick knownObjectIds intersects = Some picked ->
  ObjectPicker.visible (ObjectPicker.picked_object Point picked) = true /\
  ObjectPicker.visible (ObjectPicker.rawObject Point picked) = true /\
  ObjectPicker.notPickable (ObjectPicker.rawObject Point picked) = false /\
  exists nearer intersect farther,
    intersects = nearer ++ intersect :: farther /\
    Forall (fun i => pickable knownObjectIds i = false) nearer /\
    picked = ObjectPicker.mkPicked Point
               (getSelectableRoot knownObjectIds (hit intersect))
               (ObjectPicker.point Point intersect)
               (ObjectPicker.instanceId Point intersect)
               (fst (hit intersect)).
Proof.
  induction intersects as [| i rest IH]; cbn [ObjectPicker.pick];
    [discriminate |].
  destruct (ObjectPicker.visible (fst (hit i))) eqn:Hv; cbn [negb].
  2:{ intros H. destruct (IH H) as [H1 [H2 [H3 [pre [x [post [E [F P]]]]]]]].
      repeat split; try assumption.
      exists (i :: pre), x, post. split; [cbn; rewrite E; reflexivity |].
      split; [| exact P]. constructor; [| exact F].
      unfold ObjectPicker.pickable. rewrite Hv. reflexivity. }
  destruct (ObjectPicker.notPickable (fst (hit i))) eqn:Hn.
  { intros H. destruct (IH H) as [H1 [H2 [H3 [pre [x [post [E [F P]]]]]]]].
    repeat split; try assumption.
    exists (i :: pre), x, post. split; [cbn; rewrite E; reflexivity |].
    split; [| exact P]. constructor; [| exact F].
    unfold ObjectPicker.pickable. rewrite Hv, Hn. reflexivity. }
  destruct (ObjectPicker.visible (getSelectableRoot knownObjectIds (hit i)))
    eqn:Hr; cbn [negb].
  2:{ intros H. destruct (IH H) as [H1 [H2 [H3 [pre [x [post [E [F P]]]]]]]].
      repeat split; try assumption.
      exists (i :: pre), x, post. split; [cbn; rewrite E; reflexivity |].
      split; [| exact P]. constructor; [| exact F].
      unfold ObjectPicker.pickable. rewrite Hv, Hn, Hr. reflexivity. }
  intros H. injection H as <-. cbn.
  repeat split; try assumption.
  exists [], i, rest. repeat split. constructor.
Qed.

End PickerFacts.

Lemma named_root_selected_and_resolved_witness :
  ObjectPicker.getSelectableRoot (fun s => s)
    (ObjectPicker.setKnownObjectIds
       (Some (MetadataManager.getObjectIds nat NameExamples.objectMap)))
    (NameExamples.mesh,
     [NameExamples.group; NameExamples.model; NameExamples.scene])
  = NameExamples.group /\
  JSMap.has String.string nat String.eqb NameExamples.objectMap
    (MetadataManager._resolveObjectId nat NameExamples.objectMap
       (ObjectPicker.name NameExamples.group)) = true.
Proof.
  apply (named_root_selected_and_resolved (fun s => s) nat
           NameExamples.objectMap
           (NameExamples.mesh,
            [NameExamples.group; NameExamples.model; NameExamples.scene])
           NameExamples.group).
  - discriminate.
  - reflexivity.
Defined.

Lemma pick_takes_nearest_visible_witness :
  let ids := Some (MetadataManager.getObjectIds nat NameExamples.objectMap) in
  let intersects :=
    [ObjectPicker.mkIntersection nat
       (NameExamples.mesh,
        [NameExamples.hidden_group; NameExamples.model; NameExamples.scene])
       5%nat None;
     ObjectPicker.mkIntersection nat
       (NameExamples.mesh,
        [NameExamples.group; NameExamples.model; NameExamples.scene])
       9%nat None] in
  let picked :=
    ObjectPicker.mkPicked nat NameExamples.group 9%nat None
      NameExamples.mesh in
  ObjectPicker.visible (ObjectPicker.picked_object nat picked) = true /\
  ObjectPicker.visible (ObjectPicker.rawObject nat picked) = true /\
  ObjectPicker.notPickable (ObjectPicker.rawObject nat picked) = false /\
  exists nearer intersect farther,
    intersects = nearer ++ intersect :: farther /\
    Forall (fun i => @ObjectPicker.pickable (fun s => s) nat ids i = false)
           nearer /\
    picked = ObjectPicker.mkPicked nat
               (ObjectPicker.getSelectableRoot (fun s => s) ids
                  (ObjectPicker.hit nat intersect))
               (ObjectPicker.point nat intersect)
               (ObjectPicker.instanceId nat intersect)
               (fst (ObjectPicker.hit nat intersect)).
Proof.
  intros ids intersects picked.
  apply (pick_takes_nearest_visible (fun s => s) nat ids intersects picked).
  reflexivity.
Defined.

(** ** [SelectionEffect] *)

Section SelectionFacts.

Local Abbreviation Material := SelectionEffect.Material.
Local Abbreviation Mesh := SelectionEffect.Mesh.
Local Abbreviation Key := SelectionEffect.Key.
Local Abbreviation Data := SelectionEffect.Data.
Local Abbreviation emissive := SelectionEffect.emissive.
Local Abbreviation emissiveIntensity := SelectionEffect.emissiveIntensity.
Local Abbreviation material := SelectionEffect.material.
Local Abbreviation uuid := SelectionEffect.uuid.
Local Abbreviation slots := SelectionEffect.slots.
Local Abbreviation or_zero := SelectionEffect.or_zero.
Local Abbreviation mkMaterial := SelectionEffect.mkMaterial.
Local Abbreviation key_eqb := SelectionEffect.key_eqb.
Local Abbreviation map_get := (JSMap.get Key Data key_eqb).

Local Abbreviation Slot := (Mesh * nat * nat)%type.

Let slot_key (sl : Slot) : Key := (uuid (fst (fst sl)), snd (fst sl)).

Let entry_of (w : nat -> Material) (sl : Slot) : Key * Data :=
  (slot_key sl,
   SelectionEffect.mkData (fst (fst sl)) (snd (fst sl))
     (emissive (w (snd sl))) (or_zero (emissiveIntensity (w (snd sl))))).

(** [w'] differs from [w] only at materials of the slots that have an
    emissive colour, and these still have one. *)
Let touched (sls : list Slot) (w w' : nat -> Material) : Prop :=
  forall m,
    w' m = w m \/
    (In m (map snd sls) /\ emissive (w m) <> None /\ emissive (w' m) <> None).

Lemma key_eqb_eq (a b : Key) : key_eqb a b = true <-> a = b.
Proof.
  destruct a as [a1 a2], b as [b1 b2]. unfold SelectionEffect.key_eqb. cbn.
  rewrite andb_true_iff, !Nat.eqb_eq. split.
  - intros [-> ->]. reflexivity.
  - intros H. injection H as -> ->. split; reflexivity.
Qed.

Lemma nodup_map_injective {A B} (f : A -> B) (l : list A) :
  (forall a b, f a = f b -> a = b) -> NoDup l -> NoDup (map f l).
Proof.
  intros Hinj. induction l as [| a l IH]; intros Hnd; [constructor |].
  inversion Hnd as [| ? ? Hnotin Hnd']; subst. cbn. constructor.
  - intros Hin. apply in_map_iff in Hin. destruct Hin as [b [E Hb]].
    apply Hinj in E. subst b. contradiction.
  - apply IH. exact Hnd'.
Qed.

Lemma slots_cons (child : Mesh) (object : list Mesh) :
  slots (child :: object)
  = map (fun im => (child, fst im, snd im))
        (combine (seq 0 (length (material child))) (material child))
    ++ slots object.
Proof. reflexivity. Qed.

Lemma combine_seq_nth {A} (l : list A) :
  forall (start i : nat) (x : A),
    In (i, x) (combine (seq start (length l)) l) ->
    (start <= i)%nat /\ nth_error l (i - start) = Some x.
Proof.
  induction l as [| a l IH]; intros start i x; cbn; [contradiction |].
  intros [H | H].
  - injection H as <- <-. split; [lia |]. rewrite Nat.sub_diag. reflexivity.
  - destruct (IH (S start) i x H) as [Hle Hn]. split; [lia |].
    replace (i - start)%nat with (S (i - S start)) by lia. exact Hn.
Qed.

Lemma combine_seq_snd {A} (l : list A) :
  forall start, map snd (combine (seq start (length l)) l) = l.
Proof.
  induction l as [| a l IH]; intros start; cbn; [reflexivity |].
  rewrite IH. reflexivity.
Qed.

Lemma combine_seq_fst_nodup {A} (l : list A) :
  forall start, NoDup (map fst (combine (seq start (length l)) l)).
Proof.
  intros start.
  assert (E : map fst (combine (seq start (length l)) l)
              = seq start (length l)).
  { revert start. induction l as [| a l IH]; intros start; cbn;
      [reflexivity |]. rewrite IH. reflexivity. }
  rewrite E. apply seq_NoDup.
Qed.

Lemma slots_materials (object : list Mesh) :
  map snd (slots object) = flat_map material object.
Proof.
  induction object as [| child object IH]; [reflexivity |].
  rewrite slots_cons, map_app, IH, map_map. cbn.
  rewrite combine_seq_snd. reflexivity.
Qed.

Lemma slots_valid (object : list Mesh) (sl : Slot) :
  In sl (slots object) ->
  In (fst (fst sl)) object /\
  nth_error (material (fst (fst sl))) (snd (fst sl)) = Some (snd sl).
Proof.
  induction object as [| child object IH]; [contradiction |].
  rewrite slots_cons, in_app_iff. intros [H | H].
  - apply in_map_iff in H. destruct H as [[i x] [<- Hin]]. cbn.
    split; [left; reflexivity |].
    destruct (combine_seq_nth _ _ _ _ Hin) as [_ Hn].
    rewrite Nat.sub_0_r in Hn. exact Hn.
  - destruct (IH H) as [H1 H2]. split; [right; exact H1 | exact H2].
Qed.

Lemma slots_keys_nodup (object : list Mesh) :
  NoDup (map uuid object) -> NoDup (map slot_key (slots object)).
Proof.
  induction object as [| child object IH]; [constructor |].
  cbn [map]. intros Hnd. inversion Hnd as [| ? ? Hnotin Hnd']; subst.
  rewrite slots_cons, map_app. apply NoDup_app.
  - rewrite map_map.
    assert (E : map (fun im : nat * nat => slot_key (child, fst im, snd im))
                  (combine (seq 0 (length (material child))) (material child))
                = map (pair (uuid child))
                    (map fst
                       (combine (seq 0 (length (material child)))
                          (material child)))).
    { rewrite map_map. reflexivity. }
    rewrite E. apply nodup_map_injective.
    + intros a b H. injection H as ->. reflexivity.
    + apply combine_seq_fst_nodup.
  - apply IH. exact Hnd'.
  - intros k H1 H2. apply in_map_iff in H1. destruct H1 as [sl1 [<- H1]].
    apply in_map_iff in H1. destruct H1 as [[i x] [<- _]].
    apply in_map_iff in H2. destruct H2 as [sl2 [E H2]].
    apply Hnotin. destruct (slots_valid object sl2 H2) as [Hin _].
    unfold slot_key in E. cbn in E. injection E as E _.
    rewrite <- E. apply in_map. exact Hin.
Qed.

(** The loop of [setSelection] over slots of distinct materials. *)
Lemma highlight_fold (c : Three.Color) (glow : Q) (sls : list Slot) :
  forall (om : JSMap.t Key Data) (w : nat -> Material),
    NoDup (map snd sls) ->
    NoDup (map slot_key sls) ->
    (forall sl, In sl sls -> map_get om (slot_key sl) = None) ->
    fst (fold_left (SelectionEffect.highlight c glow) sls (om, w))
    = om ++ map (entry_of w) sls /\
    forall m,
      snd (fold_left (SelectionEffect.highlight c glow) sls (om, w)) m
      = if existsb (Nat.eqb m) (map snd sls)
        then match emissive (w m) with
             | Some _ => mkMaterial (Some c) (Some glow)
             | None => w m
             end
        else w m.
Proof.
  induction sls as [| sl sls IH]; intros om w Hmats Hkeys Hfresh.
  - cbn. rewrite app_nil_r. split; reflexivity.
  - cbn [map] in Hmats, Hkeys.
    inversion Hmats as [| ? ? Hm Hmats']; subst.
    inversion Hkeys as [| ? ? Hk Hkeys']; subst.
    destruct sl as [[child i] mat]. cbn [snd] in Hm.
    set (w1 := match emissive (w mat) with
               | Some _ => Three.upd w mat (mkMaterial (Some c) (Some glow))
               | None => w
               end).
    assert (Hw1 : forall m, m <> mat -> w1 m = w m).
    { intros m N. unfold w1. destruct (emissive (w mat)); [| reflexivity].
      apply upd_other. exact N. }
    assert (Hstep : SelectionEffect.highlight c glow (om, w) (child, i, mat)
                    = (om ++ [entry_of w (child, i, mat)], w1)).
    { cbn [SelectionEffect.highlight].
      rewrite (map_set_absent Key Data key_eqb)
        by (apply (Hfresh (child, i, mat)); left; reflexivity).
      reflexivity. }
    cbn [fold_left]. rewrite Hstep.
    destruct (IH (om ++ [entry_of w (child, i, mat)]) w1 Hmats' Hkeys')
      as [IH1 IH2].
    { intros sl Hin. unfold entry_of.
      rewrite (map_get_snoc_other Key Data key_eqb key_eqb_eq).
      - apply Hfresh. right. exact Hin.
      - intros E. apply Hk. rewrite <- E. apply in_map. exact Hin. }
    split.
    + refine (eq_trans IH1 _). rewrite <- app_assoc. cbn [app map].
      do 2 f_equal.
      apply map_ext_in. intros sl Hin. unfold entry_of.
      rewrite Hw1; [reflexivity |].
      intros E. apply Hm. rewrite <- E. apply in_map. exact Hin.
    + intros m. refine (eq_trans (IH2 m) _). cbn [map existsb snd].
      destruct (Nat.eqb_spec m mat) as [-> | N]; cbn [orb].
      * assert (Hex : existsb (Nat.eqb mat) (map snd sls) = false).
        { destruct (existsb (Nat.eqb mat) (map snd sls)) eqn:E;
            [| reflexivity].
          apply existsb_exists in E. destruct E as [x [Hin Hx]].
          apply Nat.eqb_eq in Hx. subst x. contradiction. }
        rewrite Hex. unfold w1.
        destruct (emissive (w mat)); [apply upd_same | reflexivity].
      * rewrite (Hw1 m N). reflexivity.
Qed.

(** The loop of [clearSelection] over the entries recorded from [w0]. *)
Lemma restore_fold (w0 : nat -> Material) (sls : list Slot) :
  forall wc : nat -> Material,
    (forall sl, In sl sls ->
       nth_error (material (fst (fst sl))) (snd (fst sl)) = Some (snd sl)) ->
    (forall sl, In sl sls ->
       emissive (w0 (snd sl)) <> None -> emissive (wc (snd sl)) <> None) ->
    exists w2,
      fold_left SelectionEffect.restore (map (entry_of w0) sls) (Some wc)
      = Some w2 /\
      forall m,
        w2 m
        = if existsb (Nat.eqb m) (map snd sls)
          then match emissive (w0 m) with
               | Some e =>
                   mkMaterial (Some e)
                     (Some (or_zero (emissiveIntensity (w0 m))))
               | None => wc m
               end
          else wc m.
Proof.
  induction sls as [| sl sls IH]; intros wc Hvalid Hlive.
  - exists wc. split; reflexivity.
  - destruct sl as [[child i] mat]. cbn [map fold_left].
    pose proof (Hvalid (child, i, mat) (or_introl eq_refl)) as Hnth.
    pose proof (Hlive (child, i, mat) (or_introl eq_refl)) as Hl.
    cbn [fst snd] in Hnth, Hl.
    assert (Hstep :
      SelectionEffect.restore (Some wc) (entry_of w0 (child, i, mat))
      = match emissive (w0 mat) with
        | Some e =>
            match emissive (wc mat) with
            | Some _ =>
                Some (Three.upd wc mat
                        (mkMaterial (Some e)
                           (Some (or_zero (emissiveIntensity (w0 mat))))))
            | None => None
            end
        | None => Some wc
        end).
    { unfold SelectionEffect.restore, entry_of.
      cbn [snd fst SelectionEffect.mesh SelectionEffect.index
           SelectionEffect.data_emissive
           SelectionEffect.data_emissiveIntensity].
      rewrite Hnth. reflexivity. }
    rewrite Hstep. clear Hstep.
    destruct (emissive (w0 mat)) as [e |] eqn:He.
    + destruct (emissive (wc mat)) as [e' |] eqn:Hc;
        [| exfalso; apply Hl; [discriminate | reflexivity]].
      set (wc1 := Three.upd wc mat
                    (mkMaterial (Some e)
                       (Some (or_zero (emissiveIntensity (w0 mat)))))).
      destruct (IH wc1) as [w2 [Hrun Hw2]].
      { intros sl Hin. apply Hvalid. right. exact Hin. }
      { intros sl Hin Hsome. unfold wc1.
        destruct (Nat.eqb_spec (snd sl) mat) as [-> | N].
        - rewrite upd_same. discriminate.
        - rewrite upd_other by exact N. apply Hlive; [right |]; assumption. }
      exists w2. split; [exact Hrun |].
      intros m. rewrite Hw2. cbn [map existsb snd].
      destruct (Nat.eqb_spec m mat) as [-> | N]; cbn [orb].
      * rewrite He. unfold wc1. rewrite upd_same.
        destruct (existsb (Nat.eqb mat) (map snd sls)); reflexivity.
      * unfold wc1. rewrite upd_other by exact N. reflexivity.
    + destruct (IH wc) as [w2 [Hrun Hw2]].
      { intros sl Hin. apply Hvalid. right. exact Hin. }
      { intros sl Hin. apply Hlive. right. exact Hin. }
      exists w2. split; [exact Hrun |].
      intros m. rewrite Hw2. cbn [map existsb snd].
      destruct (Nat.eqb_spec m mat) as [-> | N]; cbn [orb]; [| reflexivity].
      rewrite He. destruct (existsb (Nat.eqb mat) (map snd sls)); reflexivity.
Qed.

Lemma touched_refl (sls : list Slot) (w : nat -> Material) : touched sls w w.
Proof. intros m. left. reflexivity. Qed.

Lemma touched_trans (sls : list Slot) (w w1 w2 : nat -> Material) :
  touched sls w w1 -> touched sls w1 w2 -> touched sls w w2.
Proof.
  intros H1 H2 m. destruct (H2 m) as [E2 | [Hin [Hs1 Hs2]]];
    destruct (H1 m) as [E1 | [Hin' [Hs0 Hs1']]].
  - left. congruence.
  - right. rewrite E2. repeat split; assumption.
  - right. rewrite <- E1. repeat split; assumption.
  - right. repeat split; assumption.
Qed.

Lemma recolor_fold_touched (c : Three.Color) (size : nat) (all : list Slot) :
  forall (sls : list Slot) (w : nat -> Material),
    incl sls all ->
    touched all w (fold_left (SelectionEffect.recolor c size) sls w).
Proof.
  induction sls as [| sl sls IH]; intros w Hincl; [apply touched_refl |].
  cbn [fold_left].
  apply (touched_trans all w (SelectionEffect.recolor c size w sl)).
  - intros m. unfold SelectionEffect.recolor.
    destruct (emissive (w (snd sl))) eqn:He; [| left; reflexivity].
    destruct (0 <? size)%nat; [| left; reflexivity].
    destruct (Nat.eqb_spec m (snd sl)) as [-> | N].
    + right. rewrite upd_same. split.
      * apply in_map. apply Hincl. left. reflexivity.
      * rewrite He. split; discriminate.
    + left. apply upd_other. exact N.
  - apply IH. intros x Hx. apply Hincl. right. exact Hx.
Qed.

(** A run of [setColor] calls keeps the bookkeeping of the selection
    and touches only emissive materials of the selected object. *)
Lemma setColor_fold (object : list Mesh) (colors : list Three.Color) :
  forall (s : SelectionEffect.t) (w : SelectionEffect.World),
    SelectionEffect.selectedObject s = Some object ->
    let sw := fold_left (fun sw c => SelectionEffect.setColor (fst sw) (snd sw) c)
                        colors (s, w) in
    SelectionEffect.selectedObject (fst sw) = Some object /\
    SelectionEffect.originalMaterials (fst sw)
    = SelectionEffect.originalMaterials s /\
    SelectionEffect.boxHelper (fst sw) = SelectionEffect.boxHelper s /\
    SelectionEffect.glowIntensity (fst sw) = SelectionEffect.glowIntensity s /\
    SelectionEffect.scene (snd sw) = SelectionEffect.scene w /\
    touched (slots object) (SelectionEffect.materials w)
            (SelectionEffect.materials (snd sw)).
Proof.
  induction colors as [| c colors IH]; intros s w Hsel.
  - cbn. repeat split; try assumption; try reflexivity. apply touched_refl.
  - cbn [fold_left fst snd].
    destruct (IH (fst (SelectionEffect.setColor s w c))
                 (snd (SelectionEffect.setColor s w c)))
      as [H1 [H2 [H3 [H4 [H5 H6]]]]].
    { cbn. exact Hsel. }
    rewrite <- surjective_pairing in *.
    cbn zeta. repeat split; try assumption.
    + rewrite H5. unfold SelectionEffect.setColor. cbn [snd].
      rewrite Hsel. reflexivity.
    + apply (touched_trans _ _
               (SelectionEffect.materials
                  (snd (SelectionEffect.setColor s w c)))); [| exact H6].
      unfold SelectionEffect.setColor. cbn [snd]. rewrite Hsel.
      cbn [SelectionEffect.materials].
      apply recolor_fold_touched. apply incl_refl.
Qed.

Lemma filter_out_snoc (l : list nat) (helper : nat) :
  ~ In helper l ->
  filter (fun child => negb (Nat.eqb child helper)) (l ++ [helper]) = l.
Proof.
  intros Hnotin. rewrite filter_app. cbn. rewrite Nat.eqb_refl. cbn.
  rewrite app_nil_r. induction l as [| a l IH]; [reflexivity |].
  cbn. destruct (Nat.eqb_spec a helper) as [-> | N].
  - exfalso. apply Hnotin. left. reflexivity.
  - cbn. rewrite IH; [reflexivity |].
    intros H. apply Hnotin. right. exact H.
Qed.

Lemma existsb_eqb_in (m : nat) (l : list nat) :
  existsb (Nat.eqb m) l = true <-> In m l.
Proof.
  rewrite existsb_exists. split.
  - intros [x [Hin Hx]]. apply Nat.eqb_eq in Hx. subst. exact Hin.
  - intros Hin. exists m. split; [exact Hin | apply Nat.eqb_refl].
Qed.

(** X28. Selecting an object whose meshes and materials are all
    distinct lights every emissive material of it in the colour of
    the effect; and clearing the selection, after any number of
    colour changes, gives every material its own emissive colour and
    intensity back (an undefined intensity comes back as 0), takes
    the box helper out of the scene and leaves nothing recorded. *)
Theorem selection_round_trip (s : SelectionEffect.t)
    (w : SelectionEffect.World) (object : list Mesh) (helper : nat)
    (colors : list Three.Color) :
  SelectionEffect.originalMaterials s = [] ->
  SelectionEffect.boxHelper s = None ->
  NoDup (map uuid object) ->
  NoDup (flat_map material object) ->
  ~ In helper (SelectionEffect.scene w) ->
  exists s1 w1,
    SelectionEffect.setSelection s w (Some object) helper = Some (s1, w1) /\
    (forall mat,
       In mat (flat_map material object) ->
       emissive (SelectionEffect.materials w mat) <> None ->
       SelectionEffect.materials w1 mat
       = mkMaterial (Some (SelectionEffect.color s))
                    (Some (SelectionEffect.glowIntensity s))) /\
    exists s2 w2,
      SelectionEffect.clearSelection
        (fst (fold_left
                (fun sw c => SelectionEffect.setColor (fst sw) (snd sw) c)
                colors (s1, w1)))
        (snd (fold_left
                (fun sw c => SelectionEffect.setColor (fst sw) (snd sw) c)
                colors (s1, w1)))
      = Some (s2, w2) /\
      (forall mat,
         emissive (SelectionEffect.materials w2 mat)
         = emissive (SelectionEffect.materials w mat) /\
         (emissiveIntensity (SelectionEffect.materials w2 mat)
          = emissiveIntensity (SelectionEffect.materials w mat) \/
          (emissiveIntensity (SelectionEffect.materials w mat) = None /\
           emissiveIntensity (SelectionEffect.materials w2 mat) = Some 0))) /\
      SelectionEffect.scene w2 = SelectionEffect.scene w /\
      SelectionEffect.originalMaterials s2 = [] /\
      SelectionEffect.selectedObject s2 = None /\
      SelectionEffect.boxHelper s2 = None.
Proof.
  intros Hempty Hbox Huuid Hmats Hhelper.
  set (c := SelectionEffect.color s).
  set (glow := SelectionEffect.glowIntensity s).
  set (w0 := SelectionEffect.materials w).
  destruct (highlight_fold c glow (slots object) [] w0) as [Hom Hlit].
  { rewrite slots_materials. exact Hmats. }
  { apply slots_keys_nodup. exact Huuid. }
  { intros sl _. reflexivity. }
  cbn [app] in Hom.
  match type of Hom with fst ?F = _ => set (F0 := F) in * end.
  assert (Hset :
    SelectionEffect.setSelection s w (Some object) helper
    = Some (SelectionEffect.mkEffect c glow (Some object) (fst F0)
              (Some helper),
            SelectionEffect.mkWorld (snd F0)
              (SelectionEffect.scene w ++ [helper]))).
  { unfold SelectionEffect.setSelection, SelectionEffect.clearSelection.
    rewrite Hempty, Hbox.
    cbn -[SelectionEffect.highlight SelectionEffect.slots].
    match goal with
    | |- (let '(_, _) := ?F in _) = _ => change F with F0
    end.
    destruct F0. reflexivity. }
  clearbody F0. destruct F0 as [om1 w1m]. cbn [fst snd] in Hom, Hlit, Hset.
  set (s1 := SelectionEffect.mkEffect c glow (Some object) om1 (Some helper))
    in *.
  set (w1 := SelectionEffect.mkWorld w1m (SelectionEffect.scene w ++ [helper]))
    in *.
  exists s1, w1. split; [exact Hset |].
  split.
  { intros mat Hin Hsome. cbn [w1 SelectionEffect.materials].
    rewrite Hlit. rewrite slots_materials.
    apply existsb_eqb_in in Hin. rewrite Hin. fold w0 in Hsome.
    destruct (emissive (w0 mat)); [reflexivity | contradiction]. }
  destruct (setColor_fold object colors s1 w1 eq_refl)
    as [_ [Horig [Hhelp [_ [Hscene Htouched]]]]].
  set (sw := fold_left
               (fun sw c0 => SelectionEffect.setColor (fst sw) (snd sw) c0)
               colors (s1, w1)) in *.
  cbn [s1 w1 SelectionEffect.originalMaterials SelectionEffect.boxHelper
       SelectionEffect.scene SelectionEffect.materials]
    in Horig, Hhelp, Hscene, Htouched.
  destruct (restore_fold w0 (slots object)
              (SelectionEffect.materials (snd sw))) as [w2m [Hrun Hw2]].
  { intros sl Hin. apply (slots_valid object sl Hin). }
  { intros sl Hin Hsome. destruct (Htouched (snd sl)) as [E | [_ [_ H]]];
      [| exact H].
    rewrite E, Hlit.
    assert (Hex : existsb (Nat.eqb (snd sl)) (map snd (slots object)) = true).
    { apply existsb_eqb_in. apply in_map. exact Hin. }
    rewrite Hex. destruct (emissive (w0 (snd sl))); [discriminate |].
    contradiction. }
  exists (SelectionEffect.mkEffect (SelectionEffect.color (fst sw))
            (SelectionEffect.glowIntensity (fst sw)) None [] None),
         (SelectionEffect.mkWorld w2m (SelectionEffect.scene w)).
  split.
  { unfold SelectionEffect.clearSelection.
    rewrite Horig, Hom, Hrun, Hhelp, Hscene.
    rewrite (filter_out_snoc _ _ Hhelper). reflexivity. }
  split; [| repeat split].
  intros mat. cbn [SelectionEffect.materials]. fold w0. rewrite Hw2.
  assert (Hsame : emissive (w0 mat) = None \/
                  ~ In mat (map snd (slots object)) ->
                  SelectionEffect.materials (snd sw) mat = w0 mat).
  { intros Hcase. destruct (Htouched mat) as [E | [Hin [Hs _]]].
    - rewrite E, Hlit.
      destruct (existsb (Nat.eqb mat) (map snd (slots object))) eqn:Hex;
        [| reflexivity].
      destruct Hcase as [Hnone | Hout].
      + rewrite Hnone. reflexivity.
      + apply existsb_eqb_in in Hex. contradiction.
    - exfalso. rewrite Hlit in Hs.
      destruct Hcase as [Hnone | Hout]; [| contradiction].
      apply existsb_eqb_in in Hin. rewrite Hin, Hnone in Hs.
      apply Hs. exact Hnone. }
  destruct (existsb (Nat.eqb mat) (map snd (slots object))) eqn:Hex.
  - destruct (emissive (w0 mat)) as [e |] eqn:He.
    + cbn. split; [reflexivity |].
      destruct (emissiveIntensity (w0 mat)) as [v |]; cbn.
      * left. reflexivity.
      * right. split; reflexivity.
    + rewrite Hsame by (left; reflexivity).
      split; [exact He | left; reflexivity].
  - rewrite Hsame.
    + split; [reflexivity | left; reflexivity].
    + right. intros Hin. apply existsb_eqb_in in Hin.
      rewrite Hin in Hex. discriminate.
Qed.

End SelectionFacts.

Lemma selection_round_trip_witness :
  exists s1 w1,
    SelectionEffect.setSelection SelectionExamples.effect
      SelectionExamples.world (Some SelectionExamples.chair) 7%nat
    = Some (s1, w1) /\
    (forall mat,
       In mat (flat_map SelectionEffect.material SelectionExamples.chair) ->
       SelectionEffect.emissive
         (SelectionEffect.materials SelectionExamples.world mat) <> None ->
       SelectionEffect.materials w1 mat
       = SelectionEffect.mkMaterial
           (Some (SelectionEffect.color SelectionExamples.effect))
           (Some (SelectionEffect.glowIntensity SelectionExamples.effect))) /\
    exists s2 w2,
      SelectionEffect.clearSelection
        (fst (fold_left
                (fun sw c => SelectionEffect.setColor (fst sw) (snd sw) c)
                [SelectionExamples.teal] (s1, w1)))
        (snd (fold_left
                (fun sw c => SelectionEffect.setColor (fst sw) (snd sw) c)
                [SelectionExamples.teal] (s1, w1)))
      = Some (s2, w2) /\
      (forall mat,
         SelectionEffect.emissive (SelectionEffect.materials w2 mat)
         = SelectionEffect.emissive
             (SelectionEffect.materials SelectionExamples.world mat) /\
         (SelectionEffect.emissiveIntensity (SelectionEffect.materials w2 mat)
          = SelectionEffect.emissiveIntensity
              (SelectionEffect.materials SelectionExamples.world mat) \/
          (SelectionEffect.emissiveIntensity
             (SelectionEffect.materials SelectionExamples.world mat) = None /\
           SelectionEffect.emissiveIntensity (SelectionEffect.materials w2 mat)
           = Some 0))) /\
      SelectionEffect.scene w2
      = SelectionEffect.scene SelectionExamples.world /\
      SelectionEffect.originalMaterials s2 = [] /\
      SelectionEffect.selectedObject s2 = None /\
      SelectionEffect.boxHelper s2 = None.
Proof.
  apply (selection_round_trip SelectionExamples.effect
           SelectionExamples.world SelectionExamples.chair 7%nat
           [SelectionExamples.teal]).
  - reflexivity.
  - reflexivity.
  - cbn. repeat constructor; cbn; intuition discriminate.
  - cbn. repeat constructor; cbn; intuition discriminate.
  - cbn. intros [].
Defined.

(** ** [SceneSmithViewer] *)

Section ViewerFacts.

Local Abbreviation hiddenObjects := SceneSmithViewer.hiddenObjects.
Local Abbreviation visible := SceneSmithViewer.visible.






End ViewerFacts.


(** ** [IsolatedViewer]: joints *)

Section JointFacts.

Variable Quaternion : Type.
Variable normalize : Three.Vector3 -> Three.Vector3.
Variable setFromEuler : Q -> Q -> Q -> Quaternion.
Variable setFromAxisAngle : Three.Vector3 -> Q -> Quaternion.
Variable applyQuaternion : Three.Vector3 -> Quaternion -> Three.Vector3.
Variable premultiply : Quaternion -> Quaternion -> Quaternion.

Local Abbreviation Transform := (IsolatedViewer.Transform Quaternion).
Local Abbreviation State := (IsolatedViewer.t Quaternion).
Local Abbreviation JointData := IsolatedViewer.JointData.
Local Abbreviation moved :=
  (IsolatedViewer.moved Quaternion normalize setFromEuler setFromAxisAngle
     applyQuaternion premultiply).
Local Abbreviation move_node :=
  (IsolatedViewer.move_node Quaternion normalize setFromEuler
     setFromAxisAngle applyQuaternion premultiply).
Local Abbreviation applyJointTransform :=
  (IsolatedViewer.applyJointTransform Quaternion normalize setFromEuler
     setFromAxisAngle applyQuaternion premultiply).
Local Abbreviation originals :=
  (JSMap.get String.string Transform String.eqb).
Local Abbreviation cached :=
  (JSMap.get String.string (option (list nat)) String.eqb).
Local Abbreviation nodes := (IsolatedViewer.nodes Quaternion).
Local Abbreviation names := (IsolatedViewer.names Quaternion).

(** The loop of [applyJointTransform] over nodes of distinct names,
    each of which has its original transform [orig] recorded, or has
    none recorded and is still there. *)
Lemma move_fold (jointData : JointData) (value : Q)
    (name : nat -> String.string) (orig : nat -> Transform)
    (childNodes : list nat) :
  forall (om : JSMap.t String.string Transform) (nd : nat -> Transform),
    NoDup (map name childNodes) ->
    (forall n, In n childNodes ->
       originals om (name n) = Some (orig n) \/
       (originals om (name n) = None /\ nd n = orig n)) ->
    let st := fold_left (move_node jointData value name) childNodes (om, nd) in
    (forall n, In n childNodes -> originals (fst st) (name n) = Some (orig n))
    /\ (forall k t, originals om k = Some t -> originals (fst st) k = Some t)
    /\ (forall n,
          snd st n = if existsb (Nat.eqb n) childNodes
                     then moved jointData value (orig n) (nd n)
                     else nd n).
Proof.
  induction childNodes as [| a rest IH]; intros om nd Hnd Hrec.
  - cbn. split; [intros n [] |]. split; [auto | reflexivity].
  - cbn [map] in Hnd. inversion Hnd as [| ? ? Ha Hnd']; subst.
    set (om1 := if JSMap.has String.string Transform String.eqb om (name a)
                then om
                else JSMap.set String.string Transform String.eqb om (name a)
                       (nd a)).
    assert (Hom1 : originals om1 (name a) = Some (orig a)).
    { unfold om1, JSMap.has.
      destruct (Hrec a (or_introl eq_refl)) as [H | [H E]]; rewrite H.
      - exact H.
      - rewrite <- E.
        apply (map_get_set_same _ _ String.eqb String.eqb_eq). }
    assert (Hkeep : forall k t, originals om k = Some t ->
                                originals om1 k = Some t).
    { intros k t H. unfold om1, JSMap.has.
      destruct (originals om (name a)) eqn:E; [exact H |].
      rewrite (map_get_set_other _ _ String.eqb String.eqb_eq); [exact H |].
      intros ->. rewrite E in H. discriminate. }
    assert (Hother : forall n, In n rest ->
                               originals om1 (name n) = originals om (name n)).
    { intros n Hin. unfold om1, JSMap.has.
      destruct (originals om (name a)) eqn:E; [reflexivity |].
      apply (map_get_set_other _ _ String.eqb String.eqb_eq).
      intros E'. apply Ha. rewrite <- E'. apply in_map. exact Hin. }
    assert (Hstep : move_node jointData value name (om, nd) a
                    = (om1, Three.upd nd a
                              (moved jointData value (orig a) (nd a)))).
    { unfold IsolatedViewer.move_node. fold om1. rewrite Hom1. reflexivity. }
    cbn [fold_left]. rewrite Hstep.
    assert (Hfresh : ~ In a rest).
    { intros Hin. apply Ha. apply in_map. exact Hin. }
    destruct (IH om1 (Three.upd nd a (moved jointData value (orig a) (nd a)))
                 Hnd') as [IH1 [IH2 IH3]].
    { intros n Hin. rewrite (Hother n Hin).
      assert (N : n <> a) by (intros ->; contradiction).
      rewrite upd_other by exact N. apply Hrec. right. exact Hin. }
    cbn zeta. split; [| split].
    + intros n [<- | Hin]; [apply IH2; exact Hom1 | apply IH1; exact Hin].
    + intros k t H. apply IH2, Hkeep, H.
    + intros n. rewrite IH3. cbn [existsb].
      destruct (Nat.eqb_spec n a) as [-> | N]; cbn [orb].
      * assert (Hex : existsb (Nat.eqb a) rest = false).
        { destruct (existsb (Nat.eqb a) rest) eqn:E; [| reflexivity].
          apply existsb_eqb_in in E. contradiction. }
        rewrite Hex. apply upd_same.
      * rewrite upd_other by exact N. reflexivity.
Qed.

Local Abbreviation child_link := IsolatedViewer.child_link.
Local Abbreviation currentObject := (IsolatedViewer.currentObject Quaternion).
Local Abbreviation originalTransforms :=
  (IsolatedViewer.originalTransforms Quaternion).
Local Abbreviation _nodeCache := (IsolatedViewer._nodeCache Quaternion).

(** The nodes of the link of a joint, as [_findChildNodes] collects
    them below the object [objectId]. *)
Let link_nodes (s : State) (jointData : JointData)
    (objectId : String.string) (below : list nat) : list nat :=
  filter (fun node =>
            IsolatedViewer.matches
              (String.append objectId (child_link jointData))
              (child_link jointData) (names s node))
         below.

Let found (matched : list nat) : option (list nat) :=
  match matched with [] => None | _ :: _ => Some matched end.

(** What holds of the viewer between two moves of the joint, [s]
    being the viewer just after [showObject]. *)
Let settled (s : State) (jointData : JointData) (objectId : String.string)
    (below : list nat) (s' : State) : Prop :=
  currentObject s' = Some (objectId, below) /\
  names s' = names s /\
  (cached (_nodeCache s') (child_link jointData) = None \/
   cached (_nodeCache s') (child_link jointData)
   = Some (found (link_nodes s jointData objectId below))) /\
  (forall n, In n (link_nodes s jointData objectId below) ->
     originals (originalTransforms s') (names s n) = Some (nodes s n) \/
     (originals (originalTransforms s') (names s n) = None /\
      nodes s' n = nodes s n)) /\
  (forall n,
     ~ In n (link_nodes s jointData objectId below) \/
     IsolatedViewer.type jointData = IsolatedViewer.other_joint ->
     nodes s' n = nodes s n).

Lemma moved_current (jointData : JointData) (value : Q)
    (original current current' : Transform) :
  (IsolatedViewer.type jointData = IsolatedViewer.other_joint ->
   current = current') ->
  moved jointData value original current
  = moved jointData value original current'.
Proof.
  intros H. unfold IsolatedViewer.moved.
  destruct (IsolatedViewer.type jointData); try reflexivity.
  apply H. reflexivity.
Qed.

Lemma joint_step (s : State) (jointData : JointData)
    (objectId : String.string) (below : list nat) (s' : State) (value : Q) :
  NoDup (map (names s) (link_nodes s jointData objectId below)) ->
  settled s jointData objectId below s' ->
  settled s jointData objectId below (applyJointTransform s' jointData value)
  /\
  forall n,
    nodes (applyJointTransform s' jointData value) n
    = if existsb (Nat.eqb n) (link_nodes s jointData objectId below)
      then moved jointData value (nodes s n) (nodes s n)
      else nodes s n.
Proof.
  intros Hdistinct [Hcur [Hnames [Hcache [Horig Hrest]]]].
  set (matched := link_nodes s jointData objectId below) in *.
  set (childName := child_link jointData) in *.
  assert (Hfind :
    exists cache',
      IsolatedViewer._findChildNodes Quaternion s' childName
      = (found matched,
         IsolatedViewer.mkIsolated Quaternion (currentObject s')
           (originalTransforms s') cache' (names s') (nodes s')) /\
      cached cache' childName = Some (found matched)).
  { unfold IsolatedViewer._findChildNodes.
    destruct Hcache as [Hc | Hc]; rewrite Hc.
    - rewrite Hcur, Hnames. fold childName.
      exists (JSMap.set String.string (option (list nat)) String.eqb
                (_nodeCache s') childName (found matched)).
      split; [reflexivity |].
      apply (map_get_set_same _ _ String.eqb String.eqb_eq).
    - exists (_nodeCache s'). split; [| exact Hc].
      destruct s'; reflexivity. }
  destruct Hfind as [cache' [Hfind Hcache']].
  unfold IsolatedViewer.applyJointTransform. rewrite Hcur.
  fold childName. rewrite Hfind.
  destruct matched as [| m matched'] eqn:Hm; cbn [found].
  - split.
    + unfold settled. fold matched childName. rewrite Hm.
      cbn [IsolatedViewer.currentObject IsolatedViewer.names
           IsolatedViewer._nodeCache IsolatedViewer.originalTransforms
           IsolatedViewer.nodes].
      split; [exact Hcur |]. split; [exact Hnames |].
      split; [right; exact Hcache' |]. split; [intros n [] |].
      intros n _. apply Hrest. left. intros [].
    + intros n. cbn. apply Hrest. left. intros [].
  - rewrite <- Hm in *. clear Hm m matched'.
    cbn [IsolatedViewer.currentObject IsolatedViewer.names
         IsolatedViewer._nodeCache IsolatedViewer.originalTransforms
         IsolatedViewer.nodes].
    pose proof (move_fold jointData value (names s') (nodes s) matched
                  (originalTransforms s') (nodes s')) as Hfold.
    rewrite Hnames in Hfold. specialize (Hfold Hdistinct Horig).
    rewrite Hnames.
    destruct (fold_left (move_node jointData value (names s)) matched
                (originalTransforms s', nodes s')) as [om' nd'].
    cbn [fst snd] in Hfold. destruct Hfold as [H1 [_ H3]].
    assert (Hnodes : forall n,
              nd' n = if existsb (Nat.eqb n) matched
                      then moved jointData value (nodes s n) (nodes s n)
                      else nodes s n).
    { intros n. rewrite H3.
      destruct (existsb (Nat.eqb n) matched) eqn:Hex.
      - apply moved_current. intros Hother. apply Hrest. right. exact Hother.
      - apply Hrest. left. intros Hin. apply existsb_eqb_in in Hin.
        rewrite Hin in Hex. discriminate. }
    split; [| exact Hnodes].
    unfold settled. fold matched childName.
    cbn [IsolatedViewer.currentObject IsolatedViewer.names
         IsolatedViewer._nodeCache IsolatedViewer.originalTransforms
         IsolatedViewer.nodes].
    split; [exact Hcur |]. split; [reflexivity |].
    split; [right; exact Hcache' |]. split.
    + intros n Hin. left. apply H1. exact Hin.
    + intros n Hcase. rewrite Hnodes.
      destruct (existsb (Nat.eqb n) matched) eqn:Hex; [| reflexivity].
      destruct Hcase as [Hout | Hother].
      * apply existsb_eqb_in in Hex. contradiction.
      * unfold IsolatedViewer.moved. rewrite Hother. reflexivity.
Qed.

(** X30. Moving a joint is not cumulative: on an object just put on
    show, whose nodes of the joint's link have distinct names, the
    nodes end, after any run of [applyJointTransform] calls for the
    joint, where the last call alone would have put them, the
    transforms being computed each time from the ones recorded at the
    first call. *)
Theorem joint_pose_is_not_cumulative (s : State) (jointData : JointData)
    (objectId : String.string) (below : list nat)
    (values : list Q) (value : Q) :
  currentObject s = Some (objectId, below) ->
  originalTransforms s = [] ->
  _nodeCache s = [] ->
  NoDup (map (names s)
           (filter (fun node =>
                      IsolatedViewer.matches
                        (String.append objectId (child_link jointData))
                        (child_link jointData) (names s node))
                   below)) ->
  forall n,
    nodes (fold_left (fun s' v => applyJointTransform s' jointData v)
                     (values ++ [value]) s) n
    = nodes (applyJointTransform s jointData value) n.
Proof.
  intros Hcur Horig Hcache Hdistinct n.
  assert (H0 : settled s jointData objectId below s).
  { unfold settled. rewrite Horig, Hcache.
    repeat split; try assumption; try reflexivity.
    - left. reflexivity.
    - intros m _. right. split; reflexivity. }
  destruct (joint_step s jointData objectId below s value Hdistinct H0)
    as [_ Hone].
  rewrite Hone. clear Hone.
  assert (Hrun : forall vs s',
            settled s jointData objectId below s' ->
            settled s jointData objectId below
              (fold_left (fun s' v => applyJointTransform s' jointData v)
                         vs s')).
  { induction vs as [| v vs IH]; intros s' Hs'; [exact Hs' |].
    cbn [fold_left]. apply IH.
    apply (joint_step s jointData objectId below s' v Hdistinct Hs'). }
  rewrite fold_left_app. cbn [fold_left].
  apply (joint_step s jointData objectId below _ value Hdistinct).
  apply Hrun. exact H0.
Qed.

End JointFacts.

Lemma joint_pose_is_not_cumulative_witness :
  IsolatedViewer.nodes unit
    (fold_left
       (fun s' v =>
          IsolatedViewer.applyJointTransform unit (fun v => v)
            (fun _ _ _ => tt) (fun _ _ => tt) (fun v _ => v)
            (fun _ _ => tt) s' JointExamples.slide v)
       ([0.3; 0.1] ++ [0.2]) JointExamples.cabinet) 1%nat
  = IsolatedViewer.nodes unit
      (IsolatedViewer.applyJointTransform unit (fun v => v)
         (fun _ _ _ => tt) (fun _ _ => tt) (fun v _ => v)
         (fun _ _ => tt) JointExamples.cabinet JointExamples.slide 0.2) 1%nat.
Proof.
  apply (joint_pose_is_not_cumulative unit (fun v => v) (fun _ _ _ => tt)
           (fun _ _ => tt) (fun v _ => v) (fun _ _ => tt)
           JointExamples.cabinet JointExamples.slide
           JointExamples.cabinet_id
           [0; 1; 2]%nat [0.3; 0.1] 0.2).
  - reflexivity.
  - reflexivity.
  - reflexivity.
  - vm_compute. repeat constructor; cbn; intuition discriminate.
Defined.
